(** * BusFeed trip planner: the route service of [frontend/src/services]

    A shallow embedding of the route-calculation code ([calculateDistance],
    [findNearbyStops], [findConnectingLines], the direct, transfer and example
    builders, and [calculateRoutes]) together with the properties of it that
    the design document states.

    Conventions of the embedding.
    - A JavaScript number that holds a distance is a rational [Q]; a number
      that holds minutes or a count is an integer [Z] (they only ever come out
      of [Math.ceil], [Math.round], [Math.max] and sums of those).
    - The haversine formula itself is trigonometry on doubles; it is the
      section variable [haversine].  Everything else is modelled as written.
    - [option A] is used for a computation that may throw: [None] is a thrown
      [TypeError] (reading an index of [undefined], a property of [null]).
      A JavaScript value that may be [null] is also an [option]; the two
      layers are kept apart in the types ([option (option Route)]). *)

From Stdlib Require Import QArith Qround Qabs ZArith List String Ascii Lia Lqa.
From stdpp Require Import base option list sorting strings gmap pretty.

Local Open Scope Z_scope.

(** ** Data *)

(** [[lat, lng]] *)
Definition coord : Type := (Q * Q)%type.

(** An origin or destination as the search form hands it over. *)
Record Location := mkLocation {
  loc_name : string;
  loc_coordinates : option coord          (* may be missing *)
}.

(** A bus stop of the catalog ([mockBusStops] entries).  [stop_type] and
    [lines] are optional because the stop literals that [createExampleRoute]
    makes have neither, and a missing [coordinates] or [lines] is what makes
    the code throw on a degraded catalog entry. *)
Record Stop := mkStop {
  stop_id : string;
  stop_name : string;
  coordinates : option coord;
  stop_type : option string;
  accessibility : bool;
  lines : option (list string)
}.

(** [{...stop, distance: d}]: a copy of a stop with its distance to the point
    searched from. *)
Record NearbyStop := mkNearby {
  ns_stop :> Stop;
  distance : Q
}.

(** [{distancia, tempo}] of [caminhadaInicial] / [caminhadaFinal]. *)
Record Walk := mkWalk {
  w_distancia : Q;
  w_tempo : Z
}.

(** The stop a segment starts or ends at: a nearby stop (with its distance
    annotation) or a plain stop object. *)
Inductive SegStop :=
| Annotated (s : NearbyStop)
| Plain (s : Stop).

Definition seg_stop (s : SegStop) : Stop :=
  match s with Annotated n => ns_stop n | Plain p => p end.

Record Segment := mkSegment {
  linha : string;
  paradaOrigem : SegStop;
  paradaDestino : SegStop;
  tempo : Z;
  paradas : Z;
  caminhadaInicial : option Walk;       (* null or absent: None *)
  caminhadaFinal : option Walk
}.

Record Route := mkRoute {
  route_id : option string;
  origem : Location;
  destino : Location;
  tempo_total : Z;
  distancia_total : Q;
  transferencias : Z;
  custo_total : Q;
  acessibilidade : bool;
  segmentos : list Segment;
  observacoes : list string
}.

(** ** Array methods that take a callback

    The callbacks of the service read properties of objects: that may throw
    and, in the store model further down, it reads the heap.  The methods are
    therefore written once, over the monad [M] the callback runs in.

    [Array.prototype.sort] is stable.  [cmp a b] is the sign of
    [compareFn(a, b)].  An array of fewer than two elements is returned
    without any call of the comparison function; with two or more, every
    element takes part in a comparison. *)
Section js_array.
Context {M : Type → Type} `{!MBind M, !MRet M, !FMap M} {A : Type}.

Fixpoint sort_insert (cmp : A → A → M comparison) (x : A) (l : list A)
    : M (list A) :=
  match l with
  | [] => mret [x]
  | y :: l' =>
      c ← cmp x y;
      match c with
      | Gt => (y ::.) <$> sort_insert cmp x l'
      | _ => mret (x :: y :: l')
      end
  end.

Fixpoint js_sort (cmp : A → A → M comparison) (l : list A) : M (list A) :=
  match l with
  | [] => mret []
  | x :: l' => s ← js_sort cmp l'; sort_insert cmp x s
  end.

(** [Array.prototype.filter]: the callback is run on each element in turn,
    so nothing is thrown on an empty array. *)
Fixpoint js_filter (p : A → M bool) (l : list A) : M (list A) :=
  match l with
  | [] => mret []
  | x :: l' =>
      b ← p x;
      r ← js_filter p l';
      mret (if (b : bool) then x :: r else r)
  end.
End js_array.

(** [arr.slice(0, end)] for an integer [end]: a negative [end] counts from the
    end of the array. *)
Definition js_slice0 {A} (l : list A) (e : Z) : list A :=
  if e <? 0 then take (Z.to_nat (Z.max (Z.of_nat (length l) + e) 0)) l
  else take (Z.to_nat e) l.

(** [Math.round]: the nearest integer, halves going up. *)
Definition Math_round (x : Q) : Z := Qfloor (x + (1 # 2))%Q.

(** [Math.ceil] *)
Definition Math_ceil (x : Q) : Z := Qceiling x.

Section Planner.

(** The great-circle distance in metres of two coordinate pairs (lines 623 to
    634 of the service: the haversine formula with R = 6371e3). *)
Variable haversine : coord → coord → Q.

(** [calculateDistance(coord1, coord2)]: indexing an [undefined] argument
    throws. *)
Definition calculateDistance (coord1 coord2 : option coord) : option Q :=
  c1 ← coord1; c2 ← coord2; Some (haversine c1 c2).

(** [findNearbyStops(coordinates, busStops, maxDistance, limit)] *)
Definition findNearbyStops (point : option coord) (busStops : list Stop)
    (maxDistance : Q) (limit : Z) : option (list NearbyStop) :=
  mapped ← mapM (λ stop : Stop,
                   d ← calculateDistance point (coordinates stop);
                   Some (mkNearby stop d)) busStops;
  let filtered := List.filter (λ stop, Qle_bool (distance stop) maxDistance) mapped in
  sorted ← js_sort (λ a b, Some (distance a - distance b ?= 0)%Q) filtered;
  Some (js_slice0 sorted limit).

(** [findConnectingLines(originStop, destinationStop)].  The callback of
    [filter] reads [destinationStop.lines] once per line of the origin stop,
    so a destination without [lines] only throws when the origin has a line. *)
Definition findConnectingLines (originStop destinationStop : Stop)
    : option (list string) :=
  ol ← lines originStop;
  commonLines ← js_filter (λ line, dl ← lines destinationStop;
                                   Some (existsb (String.eqb line) dl)) ol;
  if (length commonLines =? 0)%nat then Some ["0.999"%string] else Some commonLines.

(** [calculateWalkingTime(distance, walkingSpeed = 80)] *)
Definition calculateWalkingTime (d : Q) : Z := Math_ceil (d / 80)%Q.

(** [calculateBusTime(distance, busSpeed = 300)] *)
Definition calculateBusTime (d : Q) : Z := Math_ceil (d / 300)%Q.

(** [estimateStopCount(originStop, destinationStop)] *)
Definition estimateStopCount (originStop destinationStop : Stop) : option Z :=
  d ← calculateDistance (coordinates originStop) (coordinates destinationStop);
  Some (Z.max 2 (Math_round (d / 500)%Q)).

(** [walkDistance > 50 ? {distancia, tempo} : null] *)
Definition walkLeg (walkDistance : Q) (walkTime : Z) : option Walk :=
  if Qlt_le_dec 50 walkDistance then Some (mkWalk walkDistance walkTime) else None.

(** The route literal that [calculateDirectRoute] returns for a pair of
    nearby stops joined by [connectingLines[0]] (lines 732 to 770). *)
Definition buildDirectRoute (originLocation destinationLocation : Location)
    (originStop destinationStop : NearbyStop) (line0 : string) : option Route :=
  busDistance ← calculateDistance (coordinates originStop) (coordinates destinationStop);
  let walkToStopDistance := distance originStop in
  let walkFromStopDistance := distance destinationStop in
  let walkToStopTime := calculateWalkingTime walkToStopDistance in
  let busTime := calculateBusTime busDistance in
  let walkFromStopTime := calculateWalkingTime walkFromStopDistance in
  let waitTime := if decide (stop_type originStop = Some "main"%string) then 8 else 12 in
  let totalTime := walkToStopTime + busTime + walkFromStopTime + waitTime in
  let totalDistance := (walkToStopDistance + busDistance + walkFromStopDistance)%Q in
  stopCount ← estimateStopCount originStop destinationStop;
  Some {| route_id := None;
          origem := originLocation;
          destino := destinationLocation;
          tempo_total := totalTime;
          distancia_total := totalDistance;
          transferencias := 0;
          custo_total := 9 # 2;
          acessibilidade := accessibility originStop && accessibility destinationStop;
          segmentos := [ {| linha := line0;
                            paradaOrigem := Annotated originStop;
                            paradaDestino := Annotated destinationStop;
                            tempo := busTime;
                            paradas := stopCount;
                            caminhadaInicial := walkLeg walkToStopDistance walkToStopTime;
                            caminhadaFinal := walkLeg walkFromStopDistance walkFromStopTime |} ];
          observacoes := [] |}.

(** The two nested [for ... of] loops of [calculateDirectRoute]: the first
    pair with [connectingLines.length > 0] returns; [Some None] is falling out
    of the loop. *)
Fixpoint directInner (originLocation destinationLocation : Location)
    (originStop : NearbyStop) (dests : list NearbyStop) : option (option Route) :=
  match dests with
  | [] => Some None
  | destinationStop :: rest =>
      connectingLines ← findConnectingLines originStop destinationStop;
      match connectingLines with
      | line0 :: _ =>
          Some <$> buildDirectRoute originLocation destinationLocation
                     originStop destinationStop line0
      | [] => directInner originLocation destinationLocation originStop rest
      end
  end.

Fixpoint directOuter (originLocation destinationLocation : Location)
    (origins dests : list NearbyStop) : option (option Route) :=
  match origins with
  | [] => Some None
  | originStop :: rest =>
      r ← directInner originLocation destinationLocation originStop dests;
      match r with
      | Some route => Some (Some route)
      | None => directOuter originLocation destinationLocation rest dests
      end
  end.

(** [calculateDirectRoute(originLocation, destinationLocation, busStops)];
    the inner [None] is the [null] of "no direct route". *)
Definition calculateDirectRoute (originLocation destinationLocation : Location)
    (busStops : list Stop) : option (option Route) :=
  nearbyOriginStops ← findNearbyStops (loc_coordinates originLocation) busStops 3000 10;
  nearbyDestinationStops ← findNearbyStops (loc_coordinates destinationLocation) busStops 3000 10;
  directOuter originLocation destinationLocation nearbyOriginStops nearbyDestinationStops.

(** The route literal that [calculateRouteWithTransfer] returns for a pair of
    nearby stops and a terminal (lines 804 to 854). *)
Definition buildTransferRoute (originLocation destinationLocation : Location)
    (originStop destinationStop : NearbyStop) (terminalStop : Stop)
    (firstLeg0 secondLeg0 : string) : option Route :=
  leg1Distance ← calculateDistance (coordinates originStop) (coordinates terminalStop);
  leg2Distance ← calculateDistance (coordinates terminalStop) (coordinates destinationStop);
  let walkToStopDistance := distance originStop in
  let walkFromStopDistance := distance destinationStop in
  let walkToStopTime := calculateWalkingTime walkToStopDistance in
  let leg1Time := calculateBusTime leg1Distance in
  let transferTime := 15 in
  let leg2Time := calculateBusTime leg2Distance in
  let walkFromStopTime := calculateWalkingTime walkFromStopDistance in
  let totalTime :=
    walkToStopTime + leg1Time + transferTime + leg2Time + walkFromStopTime + 12 in
  let totalDistance :=
    (walkToStopDistance + leg1Distance + leg2Distance + walkFromStopDistance)%Q in
  paradas1 ← estimateStopCount originStop terminalStop;
  paradas2 ← estimateStopCount terminalStop destinationStop;
  Some {| route_id := None;
          origem := originLocation;
          destino := destinationLocation;
          tempo_total := totalTime;
          distancia_total := totalDistance;
          transferencias := 1;
          custo_total := 9;
          acessibilidade := accessibility originStop && accessibility terminalStop
                            && accessibility destinationStop;
          segmentos := [ {| linha := firstLeg0;
                            paradaOrigem := Annotated originStop;
                            paradaDestino := Plain terminalStop;
                            tempo := leg1Time;
                            paradas := paradas1;
                            caminhadaInicial := walkLeg walkToStopDistance walkToStopTime;
                            caminhadaFinal := None |};
                         {| linha := secondLeg0;
                            paradaOrigem := Plain terminalStop;
                            paradaDestino := Annotated destinationStop;
                            tempo := leg2Time;
                            paradas := paradas2;
                            caminhadaInicial := None;
                            caminhadaFinal := walkLeg walkFromStopDistance walkFromStopTime |} ];
          observacoes := [ ("Baldeação em " ++ stop_name terminalStop)%string;
                           "Aguarde o próximo ônibus no mesmo terminal"%string ] |}.

(** [busStops.filter(stop => stop.type === 'main' && stop.lines.length >= 4)]
    (lines 790 to 792); [&&] does not read [lines] of a stop that is not
    ['main']. *)
Definition terminalStops (busStops : list Stop) : option (list Stop) :=
  js_filter (λ stop,
               if decide (stop_type stop = Some "main"%string)
               then ls ← lines stop; Some (4 <=? length ls)%nat
               else Some false) busStops.

(** The three nested loops of [calculateRouteWithTransfer]. *)
Fixpoint transferTerminals (originLocation destinationLocation : Location)
    (originStop destinationStop : NearbyStop) (terminals : list Stop)
    : option (option Route) :=
  match terminals with
  | [] => Some None
  | terminalStop :: rest =>
      firstLeg ← findConnectingLines originStop terminalStop;
      secondLeg ← findConnectingLines terminalStop destinationStop;
      match firstLeg, secondLeg with
      | f0 :: _, s0 :: _ =>
          Some <$> buildTransferRoute originLocation destinationLocation
                     originStop destinationStop terminalStop f0 s0
      | _, _ => transferTerminals originLocation destinationLocation
                  originStop destinationStop rest
      end
  end.

Fixpoint transferInner (originLocation destinationLocation : Location)
    (originStop : NearbyStop) (dests : list NearbyStop) (terminals : list Stop)
    : option (option Route) :=
  match dests with
  | [] => Some None
  | destinationStop :: rest =>
      r ← transferTerminals originLocation destinationLocation
            originStop destinationStop terminals;
      match r with
      | Some route => Some (Some route)
      | None => transferInner originLocation destinationLocation originStop rest terminals
      end
  end.

Fixpoint transferOuter (originLocation destinationLocation : Location)
    (origins dests : list NearbyStop) (terminals : list Stop)
    : option (option Route) :=
  match origins with
  | [] => Some None
  | originStop :: rest =>
      r ← transferInner originLocation destinationLocation originStop dests terminals;
      match r with
      | Some route => Some (Some route)
      | None => transferOuter originLocation destinationLocation rest dests terminals
      end
  end.

(** [calculateRouteWithTransfer(originLocation, destinationLocation, busStops)] *)
Definition calculateRouteWithTransfer (originLocation destinationLocation : Location)
    (busStops : list Stop) : option (option Route) :=
  nearbyOriginStops ← findNearbyStops (loc_coordinates originLocation) busStops 3000 10;
  nearbyDestinationStops ← findNearbyStops (loc_coordinates destinationLocation) busStops 3000 10;
  terminals ← terminalStops busStops;
  transferOuter originLocation destinationLocation
    nearbyOriginStops nearbyDestinationStops terminals.

(** [createExampleRoute(originLocation, destinationLocation, busStops)]; the
    inner [None] is the [null] returned when a location has no coordinates. *)
Definition createExampleRoute (originLocation destinationLocation : Location)
    (busStops : list Stop) : option (option Route) :=
  match loc_coordinates originLocation, loc_coordinates destinationLocation with
  | Some _, Some _ =>
      directDistance ← calculateDistance (loc_coordinates originLocation)
                                         (loc_coordinates destinationLocation);
      let walkToStopTime := 8 in
      let busTime := Z.max 25 (Math_round (directDistance / 300)%Q) in
      let walkFromStopTime := 5 in
      let waitTime := 10 in
      let totalTime := walkToStopTime + busTime + walkFromStopTime + waitTime in
      Some (Some
        {| route_id := Some "example-route-1"%string;
           origem := originLocation;
           destino := destinationLocation;
           tempo_total := totalTime;
           distancia_total := (directDistance + 600)%Q;
           transferencias := 0;
           custo_total := 9 # 2;
           acessibilidade := true;
           segmentos :=
             [ {| linha := "0.111"%string;
                  paradaOrigem := Plain
                    {| stop_id := "example-origin"%string;
                       stop_name := ("Parada próxima a " ++ loc_name originLocation)%string;
                       coordinates := loc_coordinates originLocation;
                       stop_type := None;
                       accessibility := true;
                       lines := None |};
                  paradaDestino := Plain
                    {| stop_id := "example-destination"%string;
                       stop_name := ("Parada próxima a " ++ loc_name destinationLocation)%string;
                       coordinates := loc_coordinates destinationLocation;
                       stop_type := None;
                       accessibility := true;
                       lines := None |};
                  tempo := busTime;
                  paradas := Z.max 3 (Math_round (directDistance / 800)%Q);
                  caminhadaInicial := Some (mkWalk 400 walkToStopTime);
                  caminhadaFinal := Some (mkWalk 200 walkFromStopTime) |} ];
           observacoes :=
             [ "Rota calculada com base na distância entre os pontos"%string;
               "Horários e linhas podem variar - consulte o DFTrans"%string ] |})
  | _, _ => Some None
  end.

(** [(a, b) => a.tempo_total - b.tempo_total] on array elements that may be
    [null]: reading [tempo_total] of [null] throws. *)
Definition compareRoutes (a b : option Route) : option comparison :=
  ra ← a; rb ← b; Some (tempo_total ra - tempo_total rb ?= 0).

(** The [try] block of [calculateRoutes]. *)
Definition calculateRoutes_try (originLocation destinationLocation : Location)
    (busStops : list Stop) : option (list (option Route)) :=
  exampleRoute ← createExampleRoute originLocation destinationLocation busStops;
  let routes := [exampleRoute] in
  directRoute ← calculateDirectRoute originLocation destinationLocation busStops;
  let routes := match directRoute with
                | Some r => routes ++ [Some r]       (* routes.push(directRoute) *)
                | None => routes
                end in
  js_sort compareRoutes routes.

(** The [catch] block of [calculateRoutes]. *)
Definition calculateRoutes_catch (originLocation destinationLocation : Location)
    (busStops : list Stop) : option (list (option Route)) :=
  fallbackRoute ← createExampleRoute originLocation destinationLocation busStops;
  Some (match fallbackRoute with Some r => [Some r] | None => [] end).

(** [calculateRoutes(originLocation, destinationLocation, busStops)]; [None]
    would be an exception that reaches the caller. *)
Definition calculateRoutes (originLocation destinationLocation : Location)
    (busStops : list Stop) : option (list (option Route)) :=
  match calculateRoutes_try originLocation destinationLocation busStops with
  | Some routes => Some routes
  | None => calculateRoutes_catch originLocation destinationLocation busStops
  end.

End Planner.

(** ** The same functions on a store of objects

    The functions above are written on values.  To speak about what the
    service does to the catalog it is handed, this module runs them on a
    heap: a stop object and an array are cells, [map], [filter] and [slice]
    allocate a new array, the object spread in [map] allocates a new stop
    object, and [sort] and [push] write the array they are called on in
    place.  The arrays held in the [coordinates] and [lines] properties are
    only read by the service (indexing, [filter], [includes], [length]) and
    stay values inside the stop cell; a route literal is kept as the record
    built from the stops as they are read when it is made. *)
Module Store.

Definition loc : Type := positive.

Inductive obj :=
| OStop (stop : Stop) (dist : option Q)     (* a stop object and its [distance] property *)
| OStops (elems : list loc)                 (* an array of stop objects *)
| ORoutes (elems : list (option Route)).    (* an array of routes *)

Abbreviation heap := (gmap loc obj).

(** How a run ends: with a value, with a thrown [TypeError], or at a cell
    that is not of the kind the code takes it to be ([Fault]: outside what
    the model covers; [try] does not catch it). *)
Inductive outcome (A : Type) :=
| Ok (a : A)
| Throw
| Fault.
Global Arguments Ok {A} a.
Global Arguments Throw {A}.
Global Arguments Fault {A}.

Definition M (A : Type) : Type := heap → outcome A * heap.

Global Instance M_ret : MRet M := λ A a h, (Ok a, h).
Global Instance M_bind : MBind M := λ A B f m h,
  match m h with
  | (Ok a, h') => f a h'
  | (Throw, h') => (Throw, h')
  | (Fault, h') => (Fault, h')
  end.
Global Instance M_fmap : FMap M := λ A B f m, a ← m; mret (f a).

(** A value computed without the heap. *)
Definition liftThrow {A} (o : option A) : M A := λ h,
  match o with Some a => (Ok a, h) | None => (Throw, h) end.

(** [try { m } catch { handler }] *)
Definition try_catch {A} (m handler : M A) : M A := λ h,
  match m h with
  | (Throw, h') => handler h'
  | r => r
  end.

(** A new object or array. *)
Definition alloc (o : obj) : M loc := λ h,
  let l := fresh (dom h) in (Ok l, <[l := o]> h).

Definition getStop (l : loc) : M Stop := λ h,
  match h !! l with
  | Some (OStop s _) => (Ok s, h)
  | _ => (Fault, h)
  end.

(** A stop object read together with its [distance]. *)
Definition getNearby (l : loc) : M NearbyStop := λ h,
  match h !! l with
  | Some (OStop s (Some d)) => (Ok (mkNearby s d), h)
  | _ => (Fault, h)
  end.

Definition getStops (l : loc) : M (list loc) := λ h,
  match h !! l with
  | Some (OStops ls) => (Ok ls, h)
  | _ => (Fault, h)
  end.

Definition getRoutes (l : loc) : M (list (option Route)) := λ h,
  match h !! l with
  | Some (ORoutes rs) => (Ok rs, h)
  | _ => (Fault, h)
  end.

(** Writing an array in place: what [sort] and [push] do to the array they
    are called on. *)
Definition setStops (l : loc) (ls : list loc) : M unit := λ h,
  match h !! l with
  | Some (OStops _) => (Ok (), <[l := OStops ls]> h)
  | _ => (Fault, h)
  end.

Definition setRoutes (l : loc) (rs : list (option Route)) : M unit := λ h,
  match h !! l with
  | Some (ORoutes _) => (Ok (), <[l := ORoutes rs]> h)
  | _ => (Fault, h)
  end.

Section functions.
Variable haversine : coord → coord → Q.

(** [findNearbyStops(coordinates, busStops, maxDistance, limit)] *)
Definition findNearbyStops (point : option coord) (busStops : loc)
    (maxDistance : Q) (limit : Z) : M loc :=
  (* busStops.map(stop => ({...stop, distance: ...})) *)
  stops ← getStops busStops;
  mapped ← mapM (λ stop,
                   s ← getStop stop;
                   d ← liftThrow (calculateDistance haversine point (coordinates s));
                   alloc (OStop s (Some d))) stops;
  mappedArr ← alloc (OStops mapped);
  (* .filter(stop => stop.distance <= maxDistance) *)
  candidates ← getStops mappedArr;
  kept ← js_filter (λ stop,
                      n ← getNearby stop;
                      mret (Qle_bool (distance n) maxDistance)) candidates;
  filteredArr ← alloc (OStops kept);
  (* .sort((a, b) => a.distance - b.distance), in place *)
  unsorted ← getStops filteredArr;
  sorted ← js_sort (λ a b,
                      na ← getNearby a;
                      nb ← getNearby b;
                      mret (distance na - distance nb ?= 0)%Q) unsorted;
  setStops filteredArr sorted;;
  (* .slice(0, limit) *)
  all ← getStops filteredArr;
  alloc (OStops (js_slice0 all limit)).

(** [findConnectingLines(originStop, destinationStop)]: it reads the [lines]
    of the two stop objects. *)
Definition findConnectingLines (originStop destinationStop : loc)
    : M (list string) :=
  os ← getStop originStop;
  ds ← getStop destinationStop;
  liftThrow (findConnectingLines os ds).

Fixpoint directInner (originLocation destinationLocation : Location)
    (originStop : loc) (dests : list loc) : M (option Route) :=
  match dests with
  | [] => mret None
  | destinationStop :: rest =>
      connectingLines ← findConnectingLines originStop destinationStop;
      match connectingLines with
      | line0 :: _ =>
          os ← getNearby originStop;
          ds ← getNearby destinationStop;
          Some <$> liftThrow (buildDirectRoute haversine originLocation
                                destinationLocation os ds line0)
      | [] => directInner originLocation destinationLocation originStop rest
      end
  end.

Fixpoint directOuter (originLocation destinationLocation : Location)
    (origins dests : list loc) : M (option Route) :=
  match origins with
  | [] => mret None
  | originStop :: rest =>
      r ← directInner originLocation destinationLocation originStop dests;
      match r with
      | Some route => mret (Some route)
      | None => directOuter originLocation destinationLocation rest dests
      end
  end.

(** [calculateDirectRoute(originLocation, destinationLocation, busStops)] *)
Definition calculateDirectRoute (originLocation destinationLocation : Location)
    (busStops : loc) : M (option Route) :=
  nearbyOriginStops ← findNearbyStops (loc_coordinates originLocation) busStops 3000 10;
  nearbyDestinationStops ←
    findNearbyStops (loc_coordinates destinationLocation) busStops 3000 10;
  origins ← getStops nearbyOriginStops;
  dests ← getStops nearbyDestinationStops;
  directOuter originLocation destinationLocation origins dests.

(** [busStops.filter(stop => stop.type === 'main' && stop.lines.length >= 4)] *)
Definition terminalStops (busStops : loc) : M loc :=
  stops ← getStops busStops;
  kept ← js_filter (λ stop,
                      s ← getStop stop;
                      if decide (stop_type s = Some "main"%string)
                      then ls ← liftThrow (lines s); mret (4 <=? length ls)%nat
                      else mret false) stops;
  alloc (OStops kept).

Fixpoint transferTerminals (originLocation destinationLocation : Location)
    (originStop destinationStop : loc) (terminals : list loc)
    : M (option Route) :=
  match terminals with
  | [] => mret None
  | terminalStop :: rest =>
      firstLeg ← findConnectingLines originStop terminalStop;
      secondLeg ← findConnectingLines terminalStop destinationStop;
      match firstLeg, secondLeg with
      | f0 :: _, s0 :: _ =>
          os ← getNearby originStop;
          ts ← getStop terminalStop;
          ds ← getNearby destinationStop;
          Some <$> liftThrow (buildTransferRoute haversine originLocation
                                destinationLocation os ds ts f0 s0)
      | _, _ => transferTerminals originLocation destinationLocation
                  originStop destinationStop rest
      end
  end.

Fixpoint transferInner (originLocation destinationLocation : Location)
    (originStop : loc) (dests terminals : list loc) : M (option Route) :=
  match dests with
  | [] => mret None
  | destinationStop :: rest =>
      r ← transferTerminals originLocation destinationLocation
            originStop destinationStop terminals;
      match r with
      | Some route => mret (Some route)
      | None => transferInner originLocation destinationLocation
                  originStop rest terminals
      end
  end.

Fixpoint transferOuter (originLocation destinationLocation : Location)
    (origins dests terminals : list loc) : M (option Route) :=
  match origins with
  | [] => mret None
  | originStop :: rest =>
      r ← transferInner originLocation destinationLocation originStop dests terminals;
      match r with
      | Some route => mret (Some route)
      | None => transferOuter originLocation destinationLocation rest dests terminals
      end
  end.

(** [calculateRouteWithTransfer(originLocation, destinationLocation, busStops)] *)
Definition calculateRouteWithTransfer (originLocation destinationLocation : Location)
    (busStops : loc) : M (option Route) :=
  nearbyOriginStops ← findNearbyStops (loc_coordinates originLocation) busStops 3000 10;
  nearbyDestinationStops ←
    findNearbyStops (loc_coordinates destinationLocation) busStops 3000 10;
  terminalArr ← terminalStops busStops;
  origins ← getStops nearbyOriginStops;
  dests ← getStops nearbyDestinationStops;
  terminals ← getStops terminalArr;
  transferOuter originLocation destinationLocation origins dests terminals.

(** [createExampleRoute(originLocation, destinationLocation, busStops)]:
    the function does not touch its third argument, so none is passed to
    the version on values. *)
Definition createExampleRoute (originLocation destinationLocation : Location)
    (busStops : loc) : M (option Route) :=
  liftThrow (createExampleRoute haversine originLocation destinationLocation []).

(** [calculateRoutes(originLocation, destinationLocation, busStops)]: the
    location of the array of routes it returns. *)
Definition calculateRoutes (originLocation destinationLocation : Location)
    (busStops : loc) : M loc :=
  try_catch
    (exampleRoute ← createExampleRoute originLocation destinationLocation busStops;
     routes ← alloc (ORoutes [exampleRoute]);
     directRoute ← calculateDirectRoute originLocation destinationLocation busStops;
     match directRoute with
     | Some r =>                            (* routes.push(directRoute) *)
         rs ← getRoutes routes; setRoutes routes (rs ++ [Some r])
     | None => mret ()
     end;;
     (* routes.sort(...), in place *)
     rs ← getRoutes routes;
     sorted ← liftThrow (js_sort compareRoutes rs);
     setRoutes routes sorted;;
     mret routes)
    (fallbackRoute ← createExampleRoute originLocation destinationLocation busStops;
     alloc (ORoutes (match fallbackRoute with Some r => [Some r] | None => [] end))).
End functions.

Definition outcome_of {A} (o : option A) : outcome A :=
  match o with Some a => Ok a | None => Throw end.

(** No cell of [h] differs in [h']. *)
Definition unchanged (h h' : heap) : Prop :=
  ∀ l o, h !! l = Some o → h' !! l = Some o.

(** Run from any heap that still has the cells of [h0] as they were, [m]
    leaves them as they were, however it ends, and a value it returns
    satisfies [post]. *)
Definition preserves (h0 : heap) {A} (m : M A) (post : A → Prop) : Prop :=
  ∀ h, h0 ⊆ h → h0 ⊆ (m h).2 ∧ ∀ a, (m h).1 = Ok a → post a.

(** The cell at [l] is the stop [s], with or without a [distance]. *)
Definition is_stop (h : heap) (l : loc) (s : Stop) : Prop :=
  ∃ d, h !! l = Some (OStop s d).

(** The cell at [l] is the copy [n] of a stop, with its [distance]. *)
Definition is_copy (h : heap) (l : loc) (n : NearbyStop) : Prop :=
  h !! l = Some (OStop (ns_stop n) (Some (distance n))).

(** [h] holds the catalog [stops] as an array at [busStops]. *)
Definition holds_catalog (h : heap) (busStops : loc) (stops : list Stop) : Prop :=
  ∃ ls, h !! busStops = Some (OStops ls) ∧ Forall2 (is_stop h) ls stops.

(** [h] holds the nearby stops [ns] as an array at [arr], each in a cell
    that [h0] does not have. *)
Definition holds_nearby (h0 h : heap) (arr : loc) (ns : list NearbyStop) : Prop :=
  ∃ ls, h !! arr = Some (OStops ls)
        ∧ Forall2 (is_copy h) ls ns
        ∧ Forall (λ l, l ∉ dom h0) ls.

End Store.

(** ** Concrete catalog entries and scenarios *)

(** Four entries of [mockBusStops], as they are in the service. *)
Definition stop001 : Stop :=
  {| stop_id := "stop-001"; stop_name := "Terminal Ceilândia Centro";
     coordinates := Some (-158267 # 10000, -481089 # 10000)%Q;
     stop_type := Some "main"%string; accessibility := true;
     lines := Some ["0.111"; "0.112"; "0.113"; "0.114";
                    "0.115"; "0.130"; "0.131"; "0.140"]%string |}.

Definition stop002 : Stop :=
  {| stop_id := "stop-002"; stop_name := "Shopping Ceilândia";
     coordinates := Some (-158245 # 10000, -481125 # 10000)%Q;
     stop_type := Some "regular"%string; accessibility := true;
     lines := Some ["0.111"; "0.113"; "0.140"; "0.150"]%string |}.

Definition stop022 : Stop :=
  {| stop_id := "stop-022"; stop_name := "Shopping Águas Claras";
     coordinates := Some (-158289 # 10000, -480089 # 10000)%Q;
     stop_type := Some "regular"%string; accessibility := true;
     lines := Some ["0.350"; "0.352"]%string |}.

Definition stop023 : Stop :=
  {| stop_id := "stop-023"; stop_name := "Estação Águas Claras";
     coordinates := Some (-158367 # 10000, -480156 # 10000)%Q;
     stop_type := Some "metro"%string; accessibility := true;
     lines := Some ["0.351"; "0.360"; "METRO"]%string |}.

(** Two stops whose line arrays are not in ascending order. *)
Definition stopDesc1 : Stop :=
  {| stop_id := "stop-a"; stop_name := "A";
     coordinates := Some (-158000 # 10000, -481000 # 10000)%Q;
     stop_type := Some "regular"%string; accessibility := true;
     lines := Some ["0.140"; "0.111"]%string |}.

Definition stopDesc2 : Stop :=
  {| stop_id := "stop-b"; stop_name := "B";
     coordinates := Some (-158100 # 10000, -481000 # 10000)%Q;
     stop_type := Some "regular"%string; accessibility := true;
     lines := Some ["0.111"; "0.140"]%string |}.

(** Distance along a meridian, at 111195 m per degree of latitude: what the
    haversine formula gives, to within a metre per degree, for two points of
    the same longitude.  The scenarios below keep all their points on one
    meridian and away from the rounding boundaries of the time formulas. *)
Definition meridianDistance (a b : coord) : Q :=
  (111195 * Qabs (fst b - fst a))%Q.

Definition onMeridian (lat : Q) : coord := (lat, -481000 # 10000)%Q.

Definition meridianStop (id : string) (lat : Q) (ty : string) (ls : list string) : Stop :=
  {| stop_id := id; stop_name := id; coordinates := Some (onMeridian lat);
     stop_type := Some ty; accessibility := true; lines := Some ls |}.

(** Scenario "tie": origin and destination six kilometres apart, one stop
    1.4 km from the origin and one stop 200 m from the destination. *)
Definition tieOrigin : Location :=
  {| loc_name := "Origem"; loc_coordinates := Some (onMeridian (-158000 # 10000)) |}.
Definition tieDestination : Location :=
  {| loc_name := "Destino"; loc_coordinates := Some (onMeridian (-157460 # 10000)) |}.
Definition tieStop1 : Stop := meridianStop "tie-1" (-157874 # 10000) "regular" ["0.111"%string].
Definition tieStop2 : Stop := meridianStop "tie-2" (-157478 # 10000) "regular" ["0.111"%string].
Definition tieCatalog : list Stop := [tieStop1; tieStop2].

(** Scenario "long ride": a destination nine kilometres from the origin of
    "tie" (9006.795 m along the meridian). *)
Definition longRideDestination : Location :=
  {| loc_name := "Destino distante";
     loc_coordinates := Some (onMeridian (-157190 # 10000)) |}.

(** Scenario "cross": origin and destination one kilometre apart, two stops
    between them, both within reach of both ends. *)
Definition crossOrigin : Location :=
  {| loc_name := "Origem"; loc_coordinates := Some (onMeridian (-158000 # 10000)) |}.
Definition crossDestination : Location :=
  {| loc_name := "Destino"; loc_coordinates := Some (onMeridian (-157910 # 10000)) |}.
Definition crossA : Stop := meridianStop "cross-a" (-157990 # 10000) "regular" ["0.111"%string].
Definition crossB : Stop := meridianStop "cross-b" (-157920 # 10000) "regular" ["0.111"%string].
Definition crossCatalog : list Stop := [crossA; crossB].

(** Scenario "short walk": as "tie", but the origin-side stop is 44 m from
    the origin. *)
Definition shortWalkStop : Stop :=
  meridianStop "short-1" (-157996 # 10000) "regular" ["0.111"%string].
Definition shortWalkCatalog : list Stop := [shortWalkStop; tieStop2].

(** Scenario "transfer": two stops that both share a line with a terminal
    lying between them. *)
Definition hubStop : Stop :=
  meridianStop "hub" (-157700 # 10000) "main"
    ["0.111"; "0.180"; "0.220"; "0.300"]%string.
Definition transferStop2 : Stop :=
  meridianStop "transfer-2" (-157478 # 10000) "regular" ["0.300"%string].
Definition transferCatalog : list Stop := [tieStop1; hubStop; transferStop2].

(** A location whose [coordinates] field is missing. *)
Definition noCoordinates : Location :=
  {| loc_name := "Sem coordenadas"; loc_coordinates := None |}.

(** The "cross" catalog laid out in a heap: the two stop objects at 1 and 2,
    the catalog array at 3. *)
Definition crossHeap : Store.heap :=
  <[3%positive := Store.OStops [1%positive; 2%positive]]>
    (<[2%positive := Store.OStop crossB None]>
       (<[1%positive := Store.OStop crossA None]> ∅)).

(** ** Reading totals off a route

    What is recorded on the segments of a route, to compare with its
    [tempo_total] and [distancia_total]. *)

Definition walk_time (w : option Walk) : Z := from_option w_tempo 0 w.
Definition walk_distance (w : option Walk) : Q := from_option w_distancia 0%Q w.

(** Minutes recorded on a segment: the ride and the walks attached to it. *)
Definition segment_time (s : Segment) : Z :=
  walk_time (caminhadaInicial s) + tempo s + walk_time (caminhadaFinal s).

Definition segments_time (r : Route) : Z :=
  foldr (λ s acc, segment_time s + acc) 0 (segmentos r).

(** Metres of a segment: the walks recorded on it and the distance between
    the two stops it joins (a segment has no distance field of its own). *)
Definition segment_distance (haversine : coord → coord → Q) (s : Segment) : option Q :=
  ride ← calculateDistance haversine (coordinates (seg_stop (paradaOrigem s)))
                                     (coordinates (seg_stop (paradaDestino s)));
  Some (walk_distance (caminhadaInicial s) + ride + walk_distance (caminhadaFinal s))%Q.

Definition segments_distance (haversine : coord → coord → Q) (r : Route) : option Q :=
  foldr (λ s acc, d ← segment_distance haversine s; a ← acc; Some (d + a)%Q)
        (Some 0%Q) (segmentos r).

(** The nearby stops of a route whose walk leg is not recorded on the
    segment ([caminhadaInicial] or [caminhadaFinal] is [null]). *)
Definition unrecorded_walk (w : option Walk) (s : SegStop) : list NearbyStop :=
  match w, s with
  | None, Annotated n => [n]
  | _, _ => []
  end.

Definition unrecorded_walks (r : Route) : list NearbyStop :=
  flat_map (λ s, unrecorded_walk (caminhadaInicial s) (paradaOrigem s)
                 ++ unrecorded_walk (caminhadaFinal s) (paradaDestino s))
           (segmentos r).

Definition unrecorded_walk_time (r : Route) : Z :=
  foldr (λ n acc, calculateWalkingTime (distance n) + acc) 0 (unrecorded_walks r).

Definition unrecorded_walk_distance (r : Route) : Q :=
  foldr (λ n acc, distance n + acc)%Q 0%Q (unrecorded_walks r).

(** The fixed minutes a builder adds on top of rides and walks: 10 in the
    example route (the only route with an [id]), 15 + 12 in a route with a
    transfer, and in a direct route the wait at the origin stop, 8 minutes at
    a 'main' stop and 12 at any other. *)
Definition fixedOverhead (r : Route) : Z :=
  match route_id r with
  | Some _ => 10
  | None =>
      if transferencias r =? 1 then 15 + 12
      else match segmentos r with
           | s :: _ =>
               if decide (stop_type (seg_stop (paradaOrigem s)) = Some "main"%string)
               then 8 else 12
           | [] => 0
           end
  end.

(** The totals of a route agree with what its segments record. *)
Definition totals_ok (haversine : coord → coord → Q) (r : Route) : Prop :=
  tempo_total r = segments_time r + fixedOverhead r + unrecorded_walk_time r
  ∧ (∃ sd, segments_distance haversine r = Some sd
           ∧ (distancia_total r == sd + unrecorded_walk_distance r)%Q)
  ∧ Forall (λ n, (distance n <= 50)%Q) (unrecorded_walks r).

(** The copy that [findNearbyStops] makes of a catalog stop with coordinates,
    for a point. *)
Definition annotate (haversine : coord → coord → Q) (point : coord) (stop : Stop)
    : NearbyStop :=
  mkNearby stop (from_option (haversine point) 0%Q (coordinates stop)).

(** The order [findNearbyStops] sorts by. *)
Definition nearer (a b : NearbyStop) : Prop := (distance a <= distance b)%Q.

(** The stops [calculateRouteWithTransfer] may change buses at. *)
Definition isTerminal (stop : Stop) : bool :=
  bool_decide (stop_type stop = Some "main"%string)
  && match lines stop with Some ls => (4 <=? length ls)%nat | None => false end.

(** The three ways [calculateRoutes] comes to its result [rs], given the
    value [ex] of [createExampleRoute]: no direct route, a direct route, or
    an exception in the [try] block. *)
Inductive RoutesShape (haversine : coord → coord → Q)
    (originLocation destinationLocation : Location) (busStops : list Stop)
    (ex : option Route) (rs : list (option Route)) : Prop :=
| shape_example_only :
    calculateDirectRoute haversine originLocation destinationLocation busStops
      = Some None →
    rs = [ex] →
    RoutesShape haversine originLocation destinationLocation busStops ex rs
| shape_example_and_direct e dr :
    ex = Some e →
    calculateDirectRoute haversine originLocation destinationLocation busStops
      = Some (Some dr) →
    rs = (if decide (tempo_total dr < tempo_total e)
          then [Some dr; Some e] else [Some e; Some dr]) →
    RoutesShape haversine originLocation destinationLocation busStops ex rs
| shape_caught :
    calculateRoutes_try haversine originLocation destinationLocation busStops = None →
    rs = match ex with Some r => [Some r] | None => [] end →
    RoutesShape haversine originLocation destinationLocation busStops ex rs.

(** ** The rest of the route service: the stop catalog and the exported
    nearby-stop search

    The entries of [mockBusStops] not yet given above. *)

Definition stop003 : Stop :=
  {| stop_id := "stop-003"; stop_name := "Hospital Regional da Ceilândia";
     coordinates := Some (-158198 # 10000, -481067 # 10000)%Q;
     stop_type := Some "regular"%string; accessibility := true;
     lines := Some ["0.112"; "0.114"; "0.131"]%string |}.

Definition stop004 : Stop :=
  {| stop_id := "stop-004"; stop_name := "Terminal Ceilândia Sul";
     coordinates := Some (-158456 # 10000, -481178 # 10000)%Q;
     stop_type := Some "main"%string; accessibility := true;
     lines := Some ["0.115"; "0.130"; "0.160"; "0.170"]%string |}.

Definition stop005 : Stop :=
  {| stop_id := "stop-005"; stop_name := "Centro Metropolitano";
     coordinates := Some (-158189 # 10000, -481034 # 10000)%Q;
     stop_type := Some "regular"%string; accessibility := true;
     lines := Some ["0.111"; "0.112"; "0.120"]%string |}.

Definition stop006 : Stop :=
  {| stop_id := "stop-006"; stop_name := "QNM 13 - Conjunto A";
     coordinates := Some (-158289 # 10000, -481078 # 10000)%Q;
     stop_type := Some "regular"%string; accessibility := true;
     lines := Some ["0.113"; "0.114"; "0.121"]%string |}.

Definition stop007 : Stop :=
  {| stop_id := "stop-007"; stop_name := "QNM 15 - Comércio Local";
     coordinates := Some (-158234 # 10000, -481098 # 10000)%Q;
     stop_type := Some "regular"%string; accessibility := true;
     lines := Some ["0.115"; "0.116"; "0.122"]%string |}.

Definition stop008 : Stop :=
  {| stop_id := "stop-008"; stop_name := "CAIC - Ceilândia";
     coordinates := Some (-158321 # 10000, -481145 # 10000)%Q;
     stop_type := Some "regular"%string; accessibility := true;
     lines := Some ["0.117"; "0.118"; "0.123"]%string |}.

Definition stop009 : Stop :=
  {| stop_id := "stop-009"; stop_name := "Terminal Taguatinga";
     coordinates := Some (-158311 # 10000, -480428 # 10000)%Q;
     stop_type := Some "main"%string; accessibility := true;
     lines := Some ["0.180"; "0.181"; "0.182"; "0.183"; "0.190"; "0.200"; "0.210"]%string |}.

Definition stop010 : Stop :=
  {| stop_id := "stop-010"; stop_name := "Shopping Taguatinga";
     coordinates := Some (-158298 # 10000, -480389 # 10000)%Q;
     stop_type := Some "regular"%string; accessibility := true;
     lines := Some ["0.180"; "0.182"; "0.190"]%string |}.

Definition stop011 : Stop :=
  {| stop_id := "stop-011"; stop_name := "Feira de Taguatinga";
     coordinates := Some (-158267 # 10000, -480502 # 10000)%Q;
     stop_type := Some "regular"%string; accessibility := true;
     lines := Some ["0.181"; "0.191"; "0.201"]%string |}.

Definition stop012 : Stop :=
  {| stop_id := "stop-012"; stop_name := "Hospital Regional de Taguatinga";
     coordinates := Some (-158289 # 10000, -480445 # 10000)%Q;
     stop_type := Some "regular"%string; accessibility := true;
     lines := Some ["0.183"; "0.192"; "0.202"]%string |}.

Definition stop013 : Stop :=
  {| stop_id := "stop-013"; stop_name := "Terminal Samambaia";
     coordinates := Some (-158756 # 10000, -480789 # 10000)%Q;
     stop_type := Some "main"%string; accessibility := true;
     lines := Some ["0.220"; "0.221"; "0.222"; "0.230"; "0.240"]%string |}.

Definition stop014 : Stop :=
  {| stop_id := "stop-014"; stop_name := "Shopping Samambaia";
     coordinates := Some (-158723 # 10000, -480834 # 10000)%Q;
     stop_type := Some "regular"%string; accessibility := true;
     lines := Some ["0.220"; "0.222"; "0.230"]%string |}.

Definition stop015 : Stop :=
  {| stop_id := "stop-015"; stop_name := "Estação Samambaia";
     coordinates := Some (-158834 # 10000, -480923 # 10000)%Q;
     stop_type := Some "metro"%string; accessibility := true;
     lines := Some ["0.221"; "0.240"; "METRO"]%string |}.

Definition stop016 : Stop :=
  {| stop_id := "stop-016"; stop_name := "Rodoviária do Plano Piloto";
     coordinates := Some (-157942 # 10000, -478822 # 10000)%Q;
     stop_type := Some "main"%string; accessibility := true;
     lines := Some ["0.111"; "0.180"; "0.220"; "0.300"; "0.301"; "0.302"; "0.310"; "0.320"]%string |}.

Definition stop017 : Stop :=
  {| stop_id := "stop-017"; stop_name := "Esplanada dos Ministérios";
     coordinates := Some (-157998 # 10000, -478635 # 10000)%Q;
     stop_type := Some "regular"%string; accessibility := true;
     lines := Some ["0.300"; "0.301"; "0.310"]%string |}.

Definition stop018 : Stop :=
  {| stop_id := "stop-018"; stop_name := "Shopping Brasília";
     coordinates := Some (-157789 # 10000, -478934 # 10000)%Q;
     stop_type := Some "regular"%string; accessibility := true;
     lines := Some ["0.302"; "0.320"]%string |}.

Definition stop019 : Stop :=
  {| stop_id := "stop-019"; stop_name := "UnB - Campus Darcy Ribeiro";
     coordinates := Some (-157801 # 10000, -478719 # 10000)%Q;
     stop_type := Some "regular"%string; accessibility := true;
     lines := Some ["0.301"; "0.310"; "0.330"]%string |}.

Definition stop020 : Stop :=
  {| stop_id := "stop-020"; stop_name := "Aeroporto JK";
     coordinates := Some (-158711 # 10000, -479181 # 10000)%Q;
     stop_type := Some "airport"%string; accessibility := true;
     lines := Some ["0.113"; "0.183"; "0.302"; "0.400"]%string |}.

Definition stop021 : Stop :=
  {| stop_id := "stop-021"; stop_name := "Terminal Águas Claras";
     coordinates := Some (-158345 # 10000, -480123 # 10000)%Q;
     stop_type := Some "main"%string; accessibility := true;
     lines := Some ["0.350"; "0.351"; "0.352"; "0.360"]%string |}.


(** [mockBusStops] (lines 420 to 614 of the service), in the order of the
    source. *)
Definition mockBusStops : list Stop :=
  [stop001; stop002; stop003; stop004; stop005; stop006; stop007; stop008;
   stop009; stop010; stop011; stop012; stop013; stop014; stop015; stop016;
   stop017; stop018; stop019; stop020; stop021; stop022; stop023].

(** [findNearbyStopsForLocation(location, busStops = mockBusStops,
    maxDistance = 1200)]: an argument left out ([undefined], here [None])
    takes its default. *)
Definition findNearbyStopsForLocation (haversine : coord → coord → Q)
    (location : Location) (busStops : option (list Stop)) (maxDistance : option Q)
    : option (list NearbyStop) :=
  findNearbyStops haversine (loc_coordinates location)
    (default mockBusStops busStops) (default 1200%Q maxDistance) 10.

(** A catalog entry that carries the two fields the route builders index
    into. *)
Definition complete (stop : Stop) : Prop :=
  is_Some (coordinates stop) ∧ is_Some (lines stop).

(** The catalog stops within [maxDistance] of a point. *)
Definition reachable (haversine : coord → coord → Q) (point : coord)
    (maxDistance : Q) (busStops : list Stop) (stop : Stop) : Prop :=
  stop ∈ busStops
  ∧ ∃ c, coordinates stop = Some c ∧ (haversine point c <= maxDistance)%Q.

(** A nearby stop [n] made for [point] out of a catalog entry, and nearer to
    the point than every entry of the catalog is. *)
Definition nearest (haversine : coord → coord → Q) (point : coord)
    (busStops : list Stop) (n : NearbyStop) : Prop :=
  ns_stop n ∈ busStops
  ∧ (∃ c, coordinates n = Some c ∧ distance n = haversine point c)
  ∧ ∀ s c, s ∈ busStops → coordinates s = Some c →
      (distance n <= haversine point c)%Q.

(** The line codes two stops have in common. *)
Definition commonLine (a b : Stop) (line : string) : Prop :=
  ∃ la lb, lines a = Some la ∧ lines b = Some lb ∧ line ∈ la ∧ line ∈ lb.

(** The recorded walks of a route. *)
Definition recordedWalks (r : Route) : list Walk :=
  flat_map (λ s, option_list (caminhadaInicial s) ++ option_list (caminhadaFinal s))
           (segmentos r).

(** Consecutive segments meet at one stop. *)
Fixpoint chained (segs : list Segment) : Prop :=
  match segs with
  | s1 :: (s2 :: _) as rest =>
      seg_stop (paradaDestino s1) = seg_stop (paradaOrigem s2) ∧ chained rest
  | _ => True
  end.

(** A route that one of the three builders returns for two locations and a
    catalog. *)
Definition built (haversine : coord → coord → Q)
    (originLocation destinationLocation : Location) (busStops : list Stop)
    (r : Route) : Prop :=
  calculateDirectRoute haversine originLocation destinationLocation busStops
    = Some (Some r)
  ∨ calculateRouteWithTransfer haversine originLocation destinationLocation busStops
    = Some (Some r)
  ∨ createExampleRoute haversine originLocation destinationLocation busStops
    = Some (Some r).

(** ** The results page ([pages/RouteResultsPage.js])

    The page keeps five state cells ([useState]) and calls [navigate]; a
    handler is modelled as a function on a record of these cells, each
    [set...] call writing one field, in the order of the source.  What the
    page renders is a [View]. *)

(** [location.state]: what the search form navigated with; [origem] and
    [destino] may be missing. *)
Record SearchData := mkSearchData {
  sd_origem : option Location;
  sd_destino : option Location
}.

Record PageState := mkPageState {
  st_routes : list (option Route);
  st_isLoading : bool;
  st_selectedRoute : option Route;        (* null: None *)
  st_showMap : bool;
  st_error : option string;               (* null: None *)
  st_navigated : list string              (* the calls of [navigate], oldest first *)
}.

(** The initial values of the [useState] cells. *)
Definition initialState : PageState :=
  {| st_routes := []; st_isLoading := true; st_selectedRoute := None;
     st_showMap := false; st_error := None; st_navigated := [] |}.

Definition setRoutes (v : list (option Route)) (st : PageState) : PageState :=
  {| st_routes := v; st_isLoading := st_isLoading st;
     st_selectedRoute := st_selectedRoute st; st_showMap := st_showMap st;
     st_error := st_error st; st_navigated := st_navigated st |}.

Definition setIsLoading (v : bool) (st : PageState) : PageState :=
  {| st_routes := st_routes st; st_isLoading := v;
     st_selectedRoute := st_selectedRoute st; st_showMap := st_showMap st;
     st_error := st_error st; st_navigated := st_navigated st |}.

Definition setError (v : option string) (st : PageState) : PageState :=
  {| st_routes := st_routes st; st_isLoading := st_isLoading st;
     st_selectedRoute := st_selectedRoute st; st_showMap := st_showMap st;
     st_error := v; st_navigated := st_navigated st |}.

Definition navigate (path : string) (st : PageState) : PageState :=
  {| st_routes := st_routes st; st_isLoading := st_isLoading st;
     st_selectedRoute := st_selectedRoute st; st_showMap := st_showMap st;
     st_error := st_error st; st_navigated := st_navigated st ++ [path] |}.

(** [calculateRoutes(origem, destino, busStops)] when an argument may be
    [undefined].  Without an origin, the [try] block throws on
    [originLocation.name] and the [catch] block on
    [originLocation.coordinates]: the promise is rejected.  Without a
    destination, the [try] block throws on [destinationLocation.name]; in
    the [catch] block [createExampleRoute] returns [null] when the origin has
    no coordinates ([||] does not look at the destination then), and throws
    on [destinationLocation.coordinates] otherwise. *)
Definition calculateRoutes_call (haversine : coord → coord → Q)
    (origem destino : option Location) (busStops : list Stop)
    : option (list (option Route)) :=
  match origem, destino with
  | Some originLocation, Some destinationLocation =>
      calculateRoutes haversine originLocation destinationLocation busStops
  | Some originLocation, None =>
      match loc_coordinates originLocation with
      | None => Some []
      | Some _ => None
      end
  | None, _ => None
  end.

(** [fetchRoutes], the effect run when the page is mounted (lines 39 to 70). *)
Definition fetchRoutes (haversine : coord → coord → Q)
    (searchData : option SearchData) (st : PageState) : PageState :=
  match searchData with
  | Some (mkSearchData (Some origem) (Some destino)) =>
      let st := setIsLoading true st in
      let st := setError None st in
      let st :=
        match calculateRoutes_call haversine (Some origem) (Some destino) mockBusStops with
        | Some foundRoutes =>
            let st := setRoutes foundRoutes st in
            if (length foundRoutes =? 0)%nat
            then setError (Some "Nenhuma rota encontrada entre os pontos selecionados. Tente locais mais próximos."%string) st
            else st
        | None =>
            let st := setError (Some "Erro ao buscar rotas. Tente novamente."%string) st in
            setRoutes [] st
        end in
      setIsLoading false st
  | _ => navigate "/" st
  end.

(** [handleRetrySearch] (lines 100 to 124); reading [searchData.origem] of a
    missing [searchData] throws inside the [try] block. *)
Definition handleRetrySearch (haversine : coord → coord → Q)
    (searchData : option SearchData) (st : PageState) : PageState :=
  let st := setIsLoading true st in
  let st := setError None st in
  let st :=
    match sd ← searchData;
          calculateRoutes_call haversine (sd_origem sd) (sd_destino sd) mockBusStops with
    | Some foundRoutes =>
        let st := setRoutes foundRoutes st in
        if (length foundRoutes =? 0)%nat
        then setError (Some "Ainda não foi possível encontrar rotas. Considere pontos de origem e destino diferentes."%string) st
        else st
    | None => setError (Some "Erro ao buscar rotas. Verifique sua conexão."%string) st
    end in
  setIsLoading false st.

(** What the page shows below its header: the spinner, the error box with
    its retry button, the list of routes (with the map of the selected
    route, if any), or the "no route" box. *)
Inductive View :=
| LoadingState
| ErrorState (message : string)
| RoutesSection (rotas : list (option Route)) (mapa : option Route)
| NoResultsState.

(** The render of the page (lines 126 to 242): [Some None] is [return null];
    [None] is a [TypeError], thrown by [searchData.origem.name] or
    [searchData.destino.name] in the header when an endpoint is missing.  A
    string is truthy when it is not empty. *)
Definition RouteResultsPage (searchData : option SearchData) (st : PageState)
    : option (option View) :=
  match searchData with
  | None => Some None
  | Some sd =>
      _ ← sd_origem sd;
      _ ← sd_destino sd;
      Some (Some
        (if st_isLoading st then LoadingState
         else match st_error st with
              | Some (String c message) => ErrorState (String c message)
              | _ =>
                  if (0 <? length (st_routes st))%nat
                  then RoutesSection (st_routes st)
                         (if st_showMap st then st_selectedRoute st else None)
                  else NoResultsState
              end))
  end.

(** ** The search form ([components/common/SearchForm.js])

    The form hands the results page its [searchData]: [handleSubmit] calls
    [onSearch], that is [handleSearch] of the home page, which navigates to
    the results page with [{origem, destino}] as [location.state].

    A handler of a React component reads the state cells as they were when
    the component was last rendered, and a [set...] call takes effect at the
    next render only.  So a handler is a function from the state it reads to
    the state after it, and every read in it is a read of the state it was
    given. *)

Record FormErrors := mkFormErrors {
  err_origem : option string;             (* no such key: None *)
  err_destino : option string
}.

Record FormState := mkFormState {
  f_origem : string;
  f_destino : string;
  f_origemSuggestions : list Location;
  f_destinoSuggestions : list Location;
  f_errors : FormErrors;
  f_origemSelecionada : option Location;  (* null: None *)
  f_destinoSelecionado : option Location
}.

Definition setOrigemSelecionada (v : option Location) (st : FormState) : FormState :=
  {| f_origem := f_origem st; f_destino := f_destino st;
     f_origemSuggestions := f_origemSuggestions st;
     f_destinoSuggestions := f_destinoSuggestions st;
     f_errors := f_errors st;
     f_origemSelecionada := v; f_destinoSelecionado := f_destinoSelecionado st |}.

Definition setDestinoSelecionado (v : option Location) (st : FormState) : FormState :=
  {| f_origem := f_origem st; f_destino := f_destino st;
     f_origemSuggestions := f_origemSuggestions st;
     f_destinoSuggestions := f_destinoSuggestions st;
     f_errors := f_errors st;
     f_origemSelecionada := f_origemSelecionada st; f_destinoSelecionado := v |}.

Definition setErrors (v : FormErrors) (st : FormState) : FormState :=
  {| f_origem := f_origem st; f_destino := f_destino st;
     f_origemSuggestions := f_origemSuggestions st;
     f_destinoSuggestions := f_destinoSuggestions st;
     f_errors := v;
     f_origemSelecionada := f_origemSelecionada st;
     f_destinoSelecionado := f_destinoSelecionado st |}.

(** A string is truthy when it is not empty. *)
Definition truthy (s : string) : bool := negb (String.eqb s "").

Section form.

(** [String.prototype.trim] and [String.prototype.toLowerCase] *)
Variable trim toLowerCase : string → string.

(** The [locations] prop of the form. *)
Variable locations : list Location.

(** [validateForm] (lines 285 to 326): its result, and the state after it.
    [this] is the state the handler reads. *)
Definition validateForm (this : FormState) : bool * FormState :=
  let origem := f_origem this in
  let destino := f_destino this in
  let newErrors := mkFormErrors None None in
  let newErrors :=
    if truthy (trim origem) then newErrors
    else mkFormErrors (Some "Informe o local de origem"%string) (err_destino newErrors) in
  let newErrors :=
    if truthy (trim destino) then newErrors
    else mkFormErrors (err_origem newErrors) (Some "Informe o destino"%string) in
  let newErrors :=
    if truthy (trim origem) && truthy (trim destino)
       && String.eqb (toLowerCase (trim origem)) (toLowerCase (trim destino))
    then mkFormErrors (err_origem newErrors)
           (Some "Origem e destino devem ser diferentes"%string)
    else newErrors in
  let '(newErrors, st) :=
    if truthy (trim origem) && negb (bool_decide (is_Some (f_origemSelecionada this)))
    then
      match List.find (λ loc, String.eqb (toLowerCase (loc_name loc)) (toLowerCase origem))
                      (f_origemSuggestions this ++ locations) with
      | None =>
          (mkFormErrors (Some "Selecione um local da lista de sugestões"%string)
             (err_destino newErrors), this)
      | Some correspondencia =>
          (newErrors, setOrigemSelecionada (Some correspondencia) this)
      end
    else (newErrors, this) in
  let '(newErrors, st) :=
    if truthy (trim destino) && negb (bool_decide (is_Some (f_destinoSelecionado this)))
    then
      match List.find (λ loc, String.eqb (toLowerCase (loc_name loc)) (toLowerCase destino))
                      (f_destinoSuggestions this ++ locations) with
      | None =>
          (mkFormErrors (err_origem newErrors)
             (Some "Selecione um local da lista de sugestões"%string), st)
      | Some correspondencia =>
          (newErrors, setDestinoSelecionado (Some correspondencia) st)
      end
    else (newErrors, st) in
  let st := setErrors newErrors st in
  (bool_decide (err_origem newErrors = None ∧ err_destino newErrors = None), st).

(** [handleSubmit] (lines 331 to 343): the state after it, and the argument
    of [onSearch] when it is called. *)
Definition handleSubmit (this : FormState) : FormState * option SearchData :=
  let '(valid, st) := validateForm this in
  if negb valid then (st, None)
  else (st, Some {| sd_origem := f_origemSelecionada this;
                    sd_destino := f_destinoSelecionado this |}).
End form.

(** ** The list of results ([RouteResultList], lines 640 to 685 of the
    component file) *)

(** [key={rota.id || index}], as the string React compares. *)
Definition routeKey (rota : Route) (index : nat) : string :=
  match route_id rota with
  | Some (String c id) => String c id
  | _ => pretty index
  end.

Inductive ListView :=
| NoResultsList
| RoutesList (items : list (string * Route)).     (* key and [rota] of each item *)

(** [RouteResultList({rotas})] with [isLoading] left at its default; reading
    [rota.id] of a [null] entry throws. *)
Definition RouteResultList (rotas : list (option Route)) : option ListView :=
  if (length rotas =? 0)%nat then Some NoResultsList
  else RoutesList <$> mapM id (imap (λ index rota, r ← rota;
                                                   Some (routeKey r index, r)) rotas).

(** ** The route card ([RouteResult], lines 263 to 636 of the component
    file) *)

(** In [arr], some occurrence of [a] has no occurrence of [b] before it: the
    first [a] is not after the first [b]. *)
Definition firstBefore {A} (arr : list A) (a b : A) : Prop :=
  ∃ pre suf, arr = pre ++ a :: suf ∧ b ∉ pre.

(** [arr.indexOf(x)] on an array of strings; [None] is -1. *)
Fixpoint js_indexOf_from (x : string) (arr : list string) (from : nat) : option nat :=
  match arr with
  | [] => None
  | y :: arr' => if String.eqb y x then Some from else js_indexOf_from x arr' (S from)
  end.

Definition js_indexOf (x : string) (arr : list string) : option nat :=
  js_indexOf_from x arr 0.

(** [arr.filter((x, index) => ...)] *)
Fixpoint js_filter_index_from {A} (p : A → nat → bool) (arr : list A) (from : nat)
    : list A :=
  match arr with
  | [] => []
  | x :: arr' =>
      if p x from then x :: js_filter_index_from p arr' (S from)
      else js_filter_index_from p arr' (S from)
  end.

Definition js_filter_index {A} (p : A → nat → bool) (arr : list A) : list A :=
  js_filter_index_from p arr 0.

(** [linhasCodigos] (lines 350 to 353): the line codes of the segments,
    each once.  The segments of the route service have no [tipo], so
    [seg.tipo !== 'caminhada'] holds for each of them; [seg.linha] is truthy
    when it is not the empty string. *)
Definition linhasCodigos (rota : Route) : list string :=
  let arr := linha <$> List.filter (λ seg, negb (String.eqb (linha seg) ""))
                         (segmentos rota) in
  js_filter_index (λ codigo index, bool_decide (js_indexOf codigo arr = Some index)) arr.

(** The state cells of a card ([detalhesLinhas] is an object keyed by line
    code), and the line codes that the card has asked the line service for,
    oldest first. *)
Record CardState (Detalhes : Type) := mkCardState {
  cs_isExpanded : bool;
  cs_detalhesLinhas : gmap string Detalhes;
  cs_loadingDetalhes : bool;
  cs_requests : list string
}.
Arguments mkCardState {Detalhes}.
Arguments cs_isExpanded {Detalhes}.
Arguments cs_detalhesLinhas {Detalhes}.
Arguments cs_loadingDetalhes {Detalhes}.
Arguments cs_requests {Detalhes}.

Section card.
Context {Detalhes : Type}.

(** The answer of [linhasAPI.buscarDetalhes(codigo)] as the card sees it:
    the details, or [None] when the request is rejected or its answer is
    falsy. *)
Variable buscarDetalhes : string → option Detalhes.

Definition setDetalhesLinhas (v : gmap string Detalhes) (st : CardState Detalhes)
    : CardState Detalhes :=
  {| cs_isExpanded := cs_isExpanded st; cs_detalhesLinhas := v;
     cs_loadingDetalhes := cs_loadingDetalhes st; cs_requests := cs_requests st |}.

Definition setLoadingDetalhes (v : bool) (st : CardState Detalhes) : CardState Detalhes :=
  {| cs_isExpanded := cs_isExpanded st; cs_detalhesLinhas := cs_detalhesLinhas st;
     cs_loadingDetalhes := v; cs_requests := cs_requests st |}.

(** The requests of [linhasCodigos.map(async codigo => ...)], one for each
    code, in order. *)
Definition request (codigos : list string) (st : CardState Detalhes)
    : CardState Detalhes :=
  {| cs_isExpanded := cs_isExpanded st; cs_detalhesLinhas := cs_detalhesLinhas st;
     cs_loadingDetalhes := cs_loadingDetalhes st;
     cs_requests := cs_requests st ++ codigos |}.

(** [carregarDetalhesLinhas] (lines 344 to 380) *)
Definition carregarDetalhesLinhas (rota : Route) (st : CardState Detalhes)
    : CardState Detalhes :=
  if cs_loadingDetalhes st || (0 <? size (cs_detalhesLinhas st))%nat then st
  else
    let st := setLoadingDetalhes true st in
    let st := request (linhasCodigos rota) st in
    let resultados := (λ codigo, (codigo, buscarDetalhes codigo)) <$> linhasCodigos rota in
    let novosDetalhes :=
      foldl (λ (novosDetalhes : gmap string Detalhes) resultado,
               match resultado.2 with
               | Some detalhes => <[resultado.1 := detalhes]> novosDetalhes
               | None => novosDetalhes
               end) ∅ resultados in
    let st := setDetalhesLinhas novosDetalhes st in
    setLoadingDetalhes false st.
End card.

(** [formatarTempo(minutos)] (lines 278 to 286) for a whole number of
    minutes, as the route service produces them; [pretty] writes an integer
    in decimal, as a template literal does. *)
Definition formatarTempo (minutos : Z) : string :=
  if minutos <? 1 then "< 1 min"
  else if minutos <? 60 then pretty minutos +:+ " min"
  else
    let horas := minutos `div` 60 in
    let minutosRestantes := minutos `mod` 60 in
    if 0 <? minutosRestantes
    then pretty horas +:+ "h " +:+ pretty minutosRestantes +:+ "min"
    else pretty horas +:+ "h".

(** [tempoTotal]: [rota.tempo_total || rota.duracao || 0]; the routes of the
    service have no [duracao]. *)
Definition tempoTotal (rota : Route) : Z :=
  if tempo_total rota =? 0 then 0 else tempo_total rota.

(** [Number.MAX_SAFE_INTEGER]: up to it a JavaScript number holds every
    integer exactly (and prints it in decimal). *)
Definition MAX_SAFE_INTEGER : Z := 9007199254740991.

(** The decimal digits, and the strings made of them. *)
Definition is_digit (c : Ascii.ascii) : bool :=
  (48 <=? Ascii.nat_of_ascii c)%nat && (Ascii.nat_of_ascii c <=? 57)%nat.

Fixpoint digits (s : string) : bool :=
  match s with
  | EmptyString => true
  | String c s' => is_digit c && digits s'
  end.

(** ** [sincronizarDadosMapa]: the lines of the visible stops, each once
    (lines 348 and 349 of the API file) *)

(** [[...new Set(arr)]] on strings: the elements of [arr] in the order of
    their first occurrence. *)
Fixpoint js_Set_from (seen arr : list string) : list string :=
  match arr with
  | [] => []
  | x :: arr' =>
      if bool_decide (x ∈ seen) then js_Set_from seen arr'
      else x :: js_Set_from (x :: seen) arr'
  end.

Definition js_Set_values (arr : list string) : list string := js_Set_from [] arr.

(** [linhasUnicas], from the arrays of line objects that the requests for
    the visible stops resolved to.  [codigo] reads the [codigo] of a line
    object; [flat()] joins the arrays; an entry is [None] where [find]
    returns [undefined]. *)
Definition linhasUnicas {Linha : Type} (codigo : Linha → string)
    (linhasArrays : list (list Linha)) : list (option Linha) :=
  (λ c, List.find (λ linha, String.eqb (codigo linha) c) (concat linhasArrays))
    <$> js_Set_values (codigo <$> concat linhasArrays).

(** ** More scenarios *)

(** Scenario "mirror": two stops at the same distance, one to the south and
    one to the north of the origin of the "cross" scenario, and a third one
    nearer than both. *)
Definition mirrorSouth : Stop :=
  meridianStop "mirror-south" (-158020 # 10000) "regular" ["0.111"%string].
Definition mirrorNorth : Stop :=
  meridianStop "mirror-north" (-157980 # 10000) "regular" ["0.112"%string].
Definition mirrorCatalog : list Stop := [mirrorSouth; mirrorNorth; crossA].

(** Scenario "degraded": the "cross" catalog with one more entry, far away,
    that has lost its coordinates. *)
Definition unlocatedStop : Stop :=
  {| stop_id := "unlocated"; stop_name := "Sem coordenadas";
     coordinates := None;
     stop_type := Some "regular"%string; accessibility := true;
     lines := Some ["0.111"%string] |}.
Definition degradedCatalog : list Stop := crossCatalog ++ [unlocatedStop].

(** The route of the "transfer" scenario, and a line service that answers
    for line 0.111 only. *)
Definition transferRoute : option Route :=
  mjoin (calculateRouteWithTransfer meridianDistance tieOrigin tieDestination
           transferCatalog).

Definition answersFor0111 (codigo : string) : option nat :=
  if String.eqb codigo "0.111" then Some 111%nat else None.

(** Scenario "far stop": the "cross" catalog with a stop between its two
    entries that lies more than 3000 m from both locations. *)
Definition farStopCatalog : list Stop := [crossA] ++ tieStop2 :: [crossB].

(** Scenario "typed": the origin typed in full but not picked from the
    list, the destination picked. *)
Definition typedForm : FormState :=
  {| f_origem := "Origem"; f_destino := "Destino";
     f_origemSuggestions := [crossOrigin]; f_destinoSuggestions := [];
     f_errors := mkFormErrors None None;
     f_origemSelecionada := None; f_destinoSelecionado := Some crossDestination |}.

(** ** Facts about the array primitives *)

Section js_sort_facts.
Context {A : Type} (cmp : A → A → option comparison).

Lemma sort_insert_perm x l r :
  sort_insert cmp x l = Some r → r ≡ₚ x :: l.
Proof.
  revert r; induction l as [|y l IH]; intros r; simpl.
  - by intros [= <-].
  - destruct (cmp x y) as [[]|]; simpl; try by intros [= <-].
    destruct (sort_insert cmp x l) as [r'|]; simpl; [|done].
    intros [= <-]. rewrite (IH r' eq_refl). apply perm_swap.
Qed.

Lemma js_sort_perm l r : js_sort cmp l = Some r → r ≡ₚ l.
Proof.
  revert r; induction l as [|x l IH]; intros r; simpl.
  - by intros [= <-].
  - destruct (js_sort cmp l) as [s|]; simpl; [|done].
    intros Hins. apply sort_insert_perm in Hins.
    by rewrite Hins, (IH s eq_refl).
Qed.

(** With a comparison function that does not throw on the elements at
    hand, the sort returns. *)
Lemma sort_insert_total x l :
  (∀ y, y ∈ l → is_Some (cmp x y)) → is_Some (sort_insert cmp x l).
Proof.
  induction l as [|y l IH]; intros Hc; simpl; [by eexists|].
  destruct (Hc y) as [c Hxy]; [by left|]. rewrite Hxy; simpl.
  destruct c; try by eexists.
  destruct IH as [r ->]; [|by eexists].
  intros z Hz. apply Hc. by right.
Qed.

Lemma js_sort_total l :
  (∀ x y, x ∈ l → y ∈ l → is_Some (cmp x y)) → is_Some (js_sort cmp l).
Proof.
  induction l as [|x l IH]; intros Hc; simpl; [by eexists|].
  destruct IH as [s Hs].
  { intros a b Ha Hb. apply Hc; by right. }
  rewrite Hs; simpl. apply sort_insert_total.
  intros y Hy. apply Hc; [by left|].
  right. by rewrite <- (js_sort_perm _ _ Hs).
Qed.

(** Sortedness, for any transitive order that the comparison function
    decides. *)
Section sorted.
Context (R : A → A → Prop) `{!Transitive R}.
Hypothesis cmp_le : ∀ a b c, cmp a b = Some c → c ≠ Gt → R a b.
Hypothesis cmp_gt : ∀ a b, cmp a b = Some Gt → R b a.

Lemma sort_insert_sorted x l r :
  StronglySorted R l → sort_insert cmp x l = Some r → StronglySorted R r.
Proof.
  revert r; induction l as [|y l IH]; intros r Hl; simpl.
  - intros [= <-]. repeat constructor.
  - apply StronglySorted_inv in Hl as [Hl Hy].
    destruct (cmp x y) as [c|] eqn:Hxy; simpl; [|done].
    assert (c ≠ Gt → StronglySorted R (x :: y :: l)) as Hle.
    { intros Hc. pose proof (cmp_le _ _ _ Hxy Hc) as Rxy.
      constructor; [by constructor|].
      constructor; [done|].
      eapply Forall_impl; [exact Hy|]. intros z Rz. by transitivity y. }
    destruct c; try (intros [= <-]; by apply Hle).
    destruct (sort_insert cmp x l) as [r'|] eqn:Hins; simpl; [|done].
    intros [= <-]. constructor; [by apply IH|].
    apply sort_insert_perm in Hins. rewrite Hins.
    constructor; [by apply cmp_gt|done].
Qed.

Lemma js_sort_sorted l r : js_sort cmp l = Some r → StronglySorted R r.
Proof.
  revert r; induction l as [|x l IH]; intros r; simpl.
  - intros [= <-]. constructor.
  - destruct (js_sort cmp l) as [s|]; simpl; [|done].
    apply sort_insert_sorted. by apply IH.
Qed.
End sorted.

(** Stability: elements that the comparison function does not tell apart
    keep their relative order.  [P] picks out such a class of elements. *)
Section stable.
Context (P : A → bool).
Hypothesis P_tie : ∀ a b, P a = true → P b = true → cmp a b ≠ Some Gt.

Lemma sort_insert_stable x l r :
  sort_insert cmp x l = Some r → List.filter P r = List.filter P (x :: l).
Proof.
  revert r; induction l as [|y l IH]; intros r; simpl.
  - by intros [= <-].
  - destruct (cmp x y) as [c|] eqn:Hxy; simpl; [|done].
    destruct c; try by intros [= <-].
    destruct (sort_insert cmp x l) as [r'|] eqn:Hins; simpl; [|done].
    intros [= <-]. simpl. rewrite (IH r' eq_refl). simpl.
    destruct (P x) eqn:Hx, (P y) eqn:Hy; try done.
    by destruct (P_tie x y Hx Hy).
Qed.

Lemma js_sort_stable l r :
  js_sort cmp l = Some r → List.filter P r = List.filter P l.
Proof.
  revert r; induction l as [|x l IH]; intros r; simpl.
  - by intros [= <-].
  - destruct (js_sort cmp l) as [s|]; simpl; [|done].
    intros Hins. apply sort_insert_stable in Hins. rewrite Hins.
    simpl. by rewrite (IH s eq_refl).
Qed.
End stable.
End js_sort_facts.

Lemma js_filter_pure {A} (p : A → option bool) (f : A → bool) l :
  (∀ x, x ∈ l → p x = Some (f x)) → js_filter p l = Some (List.filter f l).
Proof.
  induction l as [|x l IH]; intros Hp; simpl; [done|].
  rewrite (Hp x) by left. simpl.
  rewrite IH; [done|]. intros y Hy. apply Hp. by right.
Qed.

Lemma elem_of_List_filter {A} (f : A → bool) l x :
  x ∈ List.filter f l ↔ x ∈ l ∧ f x = true.
Proof. rewrite !list_elem_of_In. apply filter_In. Qed.

Lemma List_filter_sublist {A} (f : A → bool) l : sublist (List.filter f l) l.
Proof.
  induction l as [|x l IH]; simpl; [constructor|].
  destruct (f x); by constructor.
Qed.

Lemma existsb_eqb_elem_of (x : string) l :
  existsb (String.eqb x) l = true ↔ x ∈ l.
Proof.
  rewrite existsb_exists, list_elem_of_In. split.
  - intros (y & Hy & Heq). apply String.eqb_eq in Heq. by subst.
  - intros Hx. exists x. split; [done|]. apply String.eqb_refl.
Qed.

(** ** The loops of the builders *)

Section loops.
Context (haversine : coord → coord → Q).
Context (originLocation destinationLocation : Location).

Lemma transferTerminals_Some originStop destinationStop terminals r :
  transferTerminals haversine originLocation destinationLocation
    originStop destinationStop terminals = Some (Some r) →
  ∃ t f0 s0, t ∈ terminals
    ∧ buildTransferRoute haversine originLocation destinationLocation
        originStop destinationStop t f0 s0 = Some r.
Proof.
  induction terminals as [|t ts IH]; simpl; [done|].
  destruct (findConnectingLines originStop t) as [[|f0 fl]|]; simpl; [| |done].
  - destruct (findConnectingLines t destinationStop); simpl; [|done].
    intros H. destruct (IH H) as (t' & f & s & Ht' & Hb).
    exists t', f, s. split; [by right|done].
  - destruct (findConnectingLines t destinationStop) as [[|s0 sl]|]; simpl; [| |done].
    + intros H. destruct (IH H) as (t' & f & s & Ht' & Hb).
      exists t', f, s. split; [by right|done].
    + destruct (buildTransferRoute _ _ _ _ _ _ _ _) as [r'|] eqn:Hb; simpl; [|done].
      intros [= <-]. exists t, f0, s0. split; [by left|done].
Qed.

Lemma transferInner_Some originStop dests terminals r :
  transferInner haversine originLocation destinationLocation
    originStop dests terminals = Some (Some r) →
  ∃ ds t f0 s0, ds ∈ dests ∧ t ∈ terminals
    ∧ buildTransferRoute haversine originLocation destinationLocation
        originStop ds t f0 s0 = Some r.
Proof.
  induction dests as [|ds dests IH]; simpl; [done|].
  destruct (transferTerminals _ _ _ _ _ _) as [[r'|]|] eqn:Ht; simpl; [| |done].
  - intros [= <-]. apply transferTerminals_Some in Ht as (t & f & s & ? & ?).
    exists ds, t, f, s. split; [by left|done].
  - intros H. destruct (IH H) as (ds' & t & f & s & ? & ? & ?).
    exists ds', t, f, s. split; [by right|done].
Qed.

Lemma transferOuter_Some origins dests terminals r :
  transferOuter haversine originLocation destinationLocation
    origins dests terminals = Some (Some r) →
  ∃ os ds t f0 s0, os ∈ origins ∧ ds ∈ dests ∧ t ∈ terminals
    ∧ buildTransferRoute haversine originLocation destinationLocation
        os ds t f0 s0 = Some r.
Proof.
  induction origins as [|os origins IH]; simpl; [done|].
  destruct (transferInner _ _ _ _ _ _) as [[r'|]|] eqn:Ht; simpl; [| |done].
  - intros [= <-]. apply transferInner_Some in Ht as (ds & t & f & s & ? & ? & ?).
    exists os, ds, t, f, s. split; [by left|done].
  - intros H. destruct (IH H) as (os' & ds & t & f & s & ? & ? & ? & ?).
    exists os', ds, t, f, s. split; [by right|done].
Qed.
End loops.

Lemma terminalStops_filter busStops :
  (∀ s, s ∈ busStops → stop_type s = Some "main"%string → is_Some (lines s)) →
  terminalStops busStops = Some (List.filter isTerminal busStops).
Proof.
  intros Hwf. apply js_filter_pure. intros s Hs. unfold isTerminal.
  destruct (decide _) as [Hm|Hm].
  - destruct (Hwf s Hs Hm) as [ls ->]. simpl.
    by rewrite bool_decide_eq_true_2.
  - by rewrite bool_decide_eq_false_2.
Qed.

Lemma isTerminal_true stop :
  isTerminal stop = true ↔
  stop_type stop = Some "main"%string
  ∧ ∃ ls, lines stop = Some ls ∧ (4 ≤ length ls)%nat.
Proof.
  unfold isTerminal. rewrite andb_true_iff, bool_decide_eq_true.
  destruct (lines stop) as [ls|].
  - rewrite Nat.leb_le. split.
    + intros [? ?]. eauto.
    + intros [? (ls' & [= <-] & ?)]. done.
  - split; [by intros [_ ?]|]. by intros [_ (? & ? & _)].
Qed.

Lemma findConnectingLines_nonempty (a b : Stop) (ls : list string) :
  findConnectingLines a b = Some ls → ls ≠ [].
Proof.
  unfold findConnectingLines. intros H.
  apply bind_Some in H as (ol & _ & H). apply bind_Some in H as (cl & _ & H).
  destruct cl; simpl in H; by inversion H.
Qed.

Section direct_loops.
Context (haversine : coord → coord → Q).
Context (originLocation destinationLocation : Location).

Lemma directOuter_no_dests origins :
  directOuter haversine originLocation destinationLocation origins [] = Some None.
Proof. induction origins as [|os origins IH]; simpl; done. Qed.

(** A direct route is always built for the first pair of the two lists:
    [findConnectingLines] never returns an empty array. *)
Lemma directOuter_Some origins dests r :
  directOuter haversine originLocation destinationLocation origins dests
    = Some (Some r) →
  ∃ os no ds nd line0 ls,
    origins = os :: no ∧ dests = ds :: nd
    ∧ findConnectingLines os ds = Some (line0 :: ls)
    ∧ buildDirectRoute haversine originLocation destinationLocation
        os ds line0 = Some r.
Proof.
  destruct dests as [|ds nd]; [by rewrite directOuter_no_dests|].
  destruct origins as [|os no]; [done|]. simpl.
  destruct (findConnectingLines os ds) as [[|line0 ls]|] eqn:Hl; simpl; [| |done].
  - by destruct (findConnectingLines_nonempty _ _ _ Hl).
  - destruct (buildDirectRoute _ _ _ _ _ _) as [r'|] eqn:Hb; simpl; [|done].
    intros [= <-]. by exists os, no, ds, nd, line0, ls.
Qed.

Lemma directOuter_None origins dests :
  directOuter haversine originLocation destinationLocation origins dests
    = Some None →
  origins = [] ∨ dests = [].
Proof.
  destruct dests as [|ds nd]; [by right|].
  destruct origins as [|os no]; [by left|]. simpl.
  destruct (findConnectingLines os ds) as [[|line0 ls]|] eqn:Hl; simpl; [| |done].
  - by destruct (findConnectingLines_nonempty _ _ _ Hl).
  - by destruct (buildDirectRoute _ _ _ _ _ _).
Qed.
End direct_loops.

(** ** The example route and the orchestrator *)

Section orchestrator.
Context (haversine : coord → coord → Q).
Context (originLocation destinationLocation : Location) (busStops : list Stop).

Local Abbreviation example := (createExampleRoute haversine originLocation destinationLocation busStops).
Local Abbreviation direct := (calculateDirectRoute haversine originLocation destinationLocation busStops).
Local Abbreviation routes := (calculateRoutes haversine originLocation destinationLocation busStops).

Lemma createExampleRoute_no_throw : is_Some example.
Proof.
  unfold createExampleRoute.
  destruct (loc_coordinates originLocation), (loc_coordinates destinationLocation);
    simpl; by eexists.
Qed.

Lemma createExampleRoute_null :
  example = Some None ↔
  loc_coordinates originLocation = None ∨ loc_coordinates destinationLocation = None.
Proof.
  unfold createExampleRoute.
  destruct (loc_coordinates originLocation), (loc_coordinates destinationLocation);
    simpl;
    (split; [intros H; first [discriminate H | by left | by right]
            |intros [H|H]; first [discriminate H | reflexivity]]).
Qed.

(** The sort at the end of the [try] block, on the one or two routes it is
    given. *)
Lemma sort_one_route (ex : option Route) : js_sort compareRoutes [ex] = Some [ex].
Proof. reflexivity. Qed.

Lemma sort_two_routes (ex dr : Route) :
  js_sort compareRoutes [Some ex; Some dr]
  = Some (if decide (tempo_total dr < tempo_total ex)
          then [Some dr; Some ex] else [Some ex; Some dr]).
Proof.
  simpl. destruct (Z.compare_spec (tempo_total ex - tempo_total dr) 0);
    simpl; case_decide; done || lia.
Qed.

(** What the [try] block returns when nothing throws. *)
Lemma calculateRoutes_try_Some rs :
  calculateRoutes_try haversine originLocation destinationLocation busStops = Some rs →
  ∃ ex, example = Some ex ∧
    ((direct = Some None ∧ rs = [ex])
     ∨ (∃ e dr, ex = Some e ∧ direct = Some (Some dr)
          ∧ rs = if decide (tempo_total dr < tempo_total e)
                 then [Some dr; Some e] else [Some e; Some dr])).
Proof.
  unfold calculateRoutes_try. intros H.
  apply bind_Some in H as (ex & Hex & H). exists ex. split; [done|].
  apply bind_Some in H as ([dr|] & Hdr & H); cbv zeta in H.
  - right. destruct ex as [e|]; [|done].
    exists e, dr. change ([Some e] ++ [Some dr]) with [Some e; Some dr] in H.
    rewrite sort_two_routes in H. by inversion H.
  - left. by inversion H.
Qed.

Lemma calculateRoutes_never_throws : is_Some routes.
Proof.
  unfold calculateRoutes.
  destruct (calculateRoutes_try _ _ _ _); [by eexists|].
  unfold calculateRoutes_catch.
  destruct createExampleRoute_no_throw as [ex ->]. simpl. by eexists.
Qed.
End orchestrator.

Section orchestrator_shape.
Context (haversine : coord → coord → Q).
Context (originLocation destinationLocation : Location) (busStops : list Stop).

Local Abbreviation example := (createExampleRoute haversine originLocation destinationLocation busStops).
Local Abbreviation direct := (calculateDirectRoute haversine originLocation destinationLocation busStops).
Local Abbreviation routes := (calculateRoutes haversine originLocation destinationLocation busStops).

Lemma calculateRoutes_shape rs :
  routes = Some rs →
  ∃ ex, example = Some ex
        ∧ RoutesShape haversine originLocation destinationLocation busStops ex rs.
Proof.
  unfold calculateRoutes.
  destruct (calculateRoutes_try _ _ _ _) as [rs'|] eqn:Htry.
  - intros [= <-]. apply calculateRoutes_try_Some in Htry as (ex & Hex & Hcases).
    exists ex. split; [done|].
    destruct Hcases as [[Hd ->]|(e & dr & -> & Hd & ->)].
    + by apply shape_example_only.
    + by eapply shape_example_and_direct.
  - unfold calculateRoutes_catch.
    destruct (createExampleRoute_no_throw haversine originLocation destinationLocation
                busStops) as [ex Hex].
    rewrite Hex. simpl. intros [= <-]. exists ex. split; [done|].
    by apply shape_caught.
Qed.

Lemma createExampleRoute_with_coordinates co cd :
  loc_coordinates originLocation = Some co →
  loc_coordinates destinationLocation = Some cd →
  ∃ ex, example = Some (Some ex).
Proof.
  intros Ho Hd. unfold createExampleRoute. rewrite Ho, Hd. simpl. by eexists.
Qed.
End orchestrator_shape.

Lemma mapM_cons_None {A B} (f : A → option B) x l :
  f x = None → mapM f (x :: l) = None.
Proof. intros H. simpl. by rewrite H. Qed.

Lemma findNearbyStops_no_point haversine stop busStops maxDistance limit :
  findNearbyStops haversine None (stop :: busStops) maxDistance limit = None.
Proof. unfold findNearbyStops. by rewrite mapM_cons_None. Qed.

(** With a non-empty catalog, a location without coordinates makes the
    [try] block throw, and the [catch] block returns the empty list. *)
Lemma calculateRoutes_missing_coordinates haversine originLocation destinationLocation
    stop busStops :
  loc_coordinates originLocation = None ∨ loc_coordinates destinationLocation = None →
  calculateRoutes haversine originLocation destinationLocation (stop :: busStops)
  = Some [].
Proof.
  intros Hmiss.
  assert (createExampleRoute haversine originLocation destinationLocation
            (stop :: busStops) = Some None) as Hex
    by by apply createExampleRoute_null.
  assert (calculateDirectRoute haversine originLocation destinationLocation
            (stop :: busStops) = None) as Hdr.
  { unfold calculateDirectRoute. destruct Hmiss as [-> | ->].
    - by rewrite findNearbyStops_no_point.
    - rewrite findNearbyStops_no_point. by destruct (findNearbyStops _ _ _ _ _). }
  unfold calculateRoutes, calculateRoutes_try, calculateRoutes_catch.
  rewrite Hex, Hdr. reflexivity.
Qed.

(** ** Totals of the routes the builders make *)

Section totals.
Context (haversine : coord → coord → Q).
Context (originLocation destinationLocation : Location).

Lemma buildDirectRoute_totals originStop destinationStop line0 r :
  buildDirectRoute haversine originLocation destinationLocation
    originStop destinationStop line0 = Some r →
  totals_ok haversine r.
Proof.
  unfold buildDirectRoute, totals_ok. intros H.
  apply bind_Some in H as (busDistance & Hbus & H).
  apply bind_Some in H as (stopCount & _ & H). injection H as <-.
  unfold segments_time, segment_time, segments_distance, segment_distance,
    unrecorded_walk_time, unrecorded_walk_distance, unrecorded_walks,
    fixedOverhead, walkLeg; simpl.
  rewrite Hbus; simpl.
  destruct (Qlt_le_dec 50 (distance originStop)),
           (Qlt_le_dec 50 (distance destinationStop)); simpl;
    (split; [case_decide; lia|]);
    (split; [eexists; split; [reflexivity|ring]|]);
    repeat constructor; done.
Qed.

Lemma buildTransferRoute_totals originStop destinationStop terminalStop f0 s0 r :
  buildTransferRoute haversine originLocation destinationLocation
    originStop destinationStop terminalStop f0 s0 = Some r →
  totals_ok haversine r.
Proof.
  unfold buildTransferRoute, totals_ok. intros H.
  apply bind_Some in H as (leg1Distance & Hleg1 & H).
  apply bind_Some in H as (leg2Distance & Hleg2 & H).
  apply bind_Some in H as (p1 & _ & H).
  apply bind_Some in H as (p2 & _ & H). injection H as <-.
  unfold segments_time, segment_time, segments_distance, segment_distance,
    unrecorded_walk_time, unrecorded_walk_distance, unrecorded_walks,
    fixedOverhead, walkLeg; simpl.
  rewrite Hleg1, Hleg2; simpl.
  destruct (Qlt_le_dec 50 (distance originStop)),
           (Qlt_le_dec 50 (distance destinationStop)); simpl;
    (split; [lia|]);
    (split; [eexists; split; [reflexivity|ring]|]);
    repeat constructor; done.
Qed.

Lemma createExampleRoute_totals busStops r :
  createExampleRoute haversine originLocation destinationLocation busStops
    = Some (Some r) →
  totals_ok haversine r.
Proof.
  unfold createExampleRoute, totals_ok.
  destruct (loc_coordinates originLocation) as [co|] eqn:Ho; [|done].
  destruct (loc_coordinates destinationLocation) as [cd|] eqn:Hd; [|done].
  simpl. intros [= <-].
  unfold segments_time, segment_time, segments_distance, segment_distance,
    unrecorded_walk_time, unrecorded_walk_distance, unrecorded_walks,
    fixedOverhead; simpl.
  split; [lia|]. split; [eexists; split; [reflexivity|ring]|]. constructor.
Qed.
End totals.

(** ** Nearby stops *)

Global Instance nearer_trans : Transitive nearer.
Proof. intros a b c. unfold nearer. apply Qle_trans. Qed.

Section nearby.
Context (haversine : coord → coord → Q) (point : coord).
Context (busStops : list Stop) (maxDistance : Q) (limit : Z).
Hypothesis have_coordinates : ∀ s, s ∈ busStops → is_Some (coordinates s).

Local Abbreviation byDistance :=
  (λ a b : NearbyStop, Some (distance a - distance b ?= 0)%Q).
Local Abbreviation within :=
  (λ stop : NearbyStop, Qle_bool (distance stop) maxDistance).

Lemma findNearbyStops_mapped :
  mapM (λ stop : Stop,
          d ← calculateDistance haversine (Some point) (coordinates stop);
          Some (mkNearby stop d)) busStops
  = Some (annotate haversine point <$> busStops).
Proof.
  apply mapM_Some. apply Forall2_fmap_r, Forall_Forall2_diag, Forall_forall.
  intros s Hs. destruct (have_coordinates s Hs) as [c Hc].
  unfold annotate. simpl. rewrite Hc. reflexivity.
Qed.

Lemma byDistance_sorts l :
  ∃ sorted, js_sort byDistance l = Some sorted
            ∧ sorted ≡ₚ l ∧ StronglySorted nearer sorted.
Proof.
  destruct (js_sort_total byDistance l) as [sorted Hs]; [by eexists|].
  exists sorted. split; [done|]. split; [by eapply js_sort_perm|].
  eapply (js_sort_sorted byDistance nearer); [| |exact Hs].
  - intros a b c [= <-] Hc. unfold nearer.
    apply Qle_alt in Hc. lra.
  - intros a b [= Hc]. unfold nearer.
    apply Qgt_alt in Hc. lra.
Qed.

Lemma findNearbyStops_sorted_prefix :
  ∃ sorted k,
    findNearbyStops haversine (Some point) busStops maxDistance limit
      = Some (take k sorted)
    ∧ (0 ≤ limit → k = Z.to_nat limit)
    ∧ sorted ≡ₚ List.filter within (annotate haversine point <$> busStops)
    ∧ StronglySorted nearer sorted.
Proof.
  destruct (byDistance_sorts
              (List.filter within (annotate haversine point <$> busStops)))
    as (sorted & Hs & Hperm & Hsorted).
  exists sorted,
    (if limit <? 0 then Z.to_nat (Z.max (Z.of_nat (length sorted) + limit) 0)
     else Z.to_nat limit).
  split; [|split; [|done]].
  - unfold findNearbyStops. rewrite findNearbyStops_mapped. simpl.
    rewrite Hs. simpl. unfold js_slice0. by destruct (limit <? 0).
  - intros Hlimit. by destruct (Z.ltb_spec limit 0); [lia|].
Qed.
End nearby.

Lemma fmap_ns_stop_annotate haversine point (busStops : list Stop) :
  ns_stop <$> (annotate haversine point <$> busStops) = busStops.
Proof. induction busStops as [|s l IH]; [done|]. rewrite !fmap_cons. by f_equal. Qed.

(** Neither the example route nor a direct route has a transfer. *)
Lemma buildDirectRoute_no_transfer haversine originLocation destinationLocation
    originStop destinationStop line0 r :
  buildDirectRoute haversine originLocation destinationLocation
    originStop destinationStop line0 = Some r →
  transferencias r = 0 ∧ length (segmentos r) = 1%nat.
Proof.
  unfold buildDirectRoute. intros H.
  apply bind_Some in H as (busDistance & _ & H).
  apply bind_Some in H as (stopCount & _ & H). by injection H as <-.
Qed.

Lemma createExampleRoute_no_transfer haversine originLocation destinationLocation
    busStops r :
  createExampleRoute haversine originLocation destinationLocation busStops
    = Some (Some r) →
  transferencias r = 0 ∧ length (segmentos r) = 1%nat.
Proof.
  unfold createExampleRoute.
  destruct (loc_coordinates originLocation), (loc_coordinates destinationLocation);
    simpl; try done.
  by intros [= <-].
Qed.

(** ** The store: what a run leaves untouched *)

Section store_frame.
Import Store.
Context (h0 : heap).

Lemma preserves_ret {A} (a : A) (post : A → Prop) :
  post a → preserves h0 (mret a) post.
Proof. intros Hp h Hh. split; [done|]. by intros a' [= <-]. Qed.

Lemma preserves_bind {A B} (m : M A) (f : A → M B) (mid : A → Prop)
    (post : B → Prop) :
  preserves h0 m mid →
  (∀ a, mid a → preserves h0 (f a) post) →
  preserves h0 (m ≫= f) post.
Proof.
  intros Hm Hf h Hh. destruct (Hm h Hh) as [Hsub Hmid].
  unfold mbind, M_bind. destruct (m h) as [[a| |] h1]; simpl in *; [|done..].
  by apply (Hf a (Hmid a eq_refl)).
Qed.

Lemma preserves_weaken {A} (m : M A) (post post' : A → Prop) :
  preserves h0 m post → (∀ a, post a → post' a) → preserves h0 m post'.
Proof.
  intros Hm Himp h Hh. destruct (Hm h Hh) as [Hsub Hpost].
  split; [done|]. intros a Ha. by apply Himp, Hpost.
Qed.

Lemma preserves_fmap {A B} (g : A → B) (m : M A) (post : A → Prop) :
  preserves h0 m post → preserves h0 (g <$> m) (λ _, True).
Proof.
  intros Hm. unfold fmap, M_fmap.
  eapply preserves_bind; [exact Hm|]. intros a _. by apply preserves_ret.
Qed.

Lemma preserves_liftThrow {A} (o : option A) :
  preserves h0 (liftThrow o) (λ _, True).
Proof. intros h Hh. unfold liftThrow. by destruct o. Qed.

(** A read leaves the heap as it is. *)
Lemma preserves_getStop l : preserves h0 (getStop l) (λ _, True).
Proof. intros h Hh. unfold getStop. by destruct (h !! l) as [[]|]. Qed.

Lemma preserves_getNearby l : preserves h0 (getNearby l) (λ _, True).
Proof. intros h Hh. unfold getNearby. by destruct (h !! l) as [[? []| |]|]. Qed.

Lemma preserves_getStops l : preserves h0 (getStops l) (λ _, True).
Proof. intros h Hh. unfold getStops. by destruct (h !! l) as [[]|]. Qed.

Lemma preserves_getRoutes l : preserves h0 (getRoutes l) (λ _, True).
Proof. intros h Hh. unfold getRoutes. by destruct (h !! l) as [[]|]. Qed.

(** An allocation returns a location that [h0] does not have. *)
Lemma preserves_alloc o : preserves h0 (alloc o) (λ l, l ∉ dom h0).
Proof.
  intros h Hh. unfold alloc. simpl.
  assert (fresh (dom h) ∉ dom h) as Hfresh by apply is_fresh.
  split.
  - etrans; [exact Hh|]. apply insert_subseteq. by apply not_elem_of_dom.
  - intros l [= <-]. intros Hin. apply Hfresh.
    by apply (subseteq_dom h0 h Hh).
Qed.

(** A write in place is harmless on a location that [h0] does not have. *)
Lemma preserves_setStops l ls :
  l ∉ dom h0 → preserves h0 (setStops l ls) (λ _, True).
Proof.
  intros Hl h Hh. unfold setStops.
  destruct (h !! l) as [[]|]; simpl; try done.
  split; [|done]. apply insert_subseteq_r; [|done]. by apply not_elem_of_dom.
Qed.

Lemma preserves_setRoutes l rs :
  l ∉ dom h0 → preserves h0 (setRoutes l rs) (λ _, True).
Proof.
  intros Hl h Hh. unfold setRoutes.
  destruct (h !! l) as [[]|]; simpl; try done.
  split; [|done]. apply insert_subseteq_r; [|done]. by apply not_elem_of_dom.
Qed.

Lemma preserves_try_catch {A} (m handler : M A) (post : A → Prop) :
  preserves h0 m post → preserves h0 handler post →
  preserves h0 (try_catch m handler) post.
Proof.
  intros Hm Hhandler h Hh. destruct (Hm h Hh) as [Hsub Hpost].
  unfold try_catch. destruct (m h) as [[a| |] h1]; simpl in *; [done| |done].
  by apply Hhandler.
Qed.

(** The array methods, for a callback that preserves [h0]. *)
Lemma preserves_mapM {A B} (f : A → M B) (l : list A) (post : B → Prop) :
  (∀ x, preserves h0 (f x) post) →
  preserves h0 (mapM f l) (Forall post).
Proof.
  intros Hf. induction l as [|x l IH]; simpl.
  - by apply preserves_ret.
  - eapply preserves_bind; [apply Hf|]. intros y Hy.
    eapply preserves_bind; [apply IH|]. intros k Hk.
    apply preserves_ret. by constructor.
Qed.

Lemma preserves_js_filter {A} (p : A → M bool) (l : list A) :
  (∀ x, preserves h0 (p x) (λ _, True)) →
  preserves h0 (js_filter p l) (λ _, True).
Proof.
  intros Hp. induction l as [|x l IH]; simpl.
  - by apply preserves_ret.
  - eapply preserves_bind; [apply Hp|]. intros b _.
    eapply preserves_bind; [apply IH|]. intros r _. by apply preserves_ret.
Qed.

Lemma preserves_sort_insert {A} (cmp : A → A → M comparison) x (l : list A) :
  (∀ a b, preserves h0 (cmp a b) (λ _, True)) →
  preserves h0 (sort_insert cmp x l) (λ _, True).
Proof.
  intros Hc. induction l as [|y l IH]; simpl.
  - by apply preserves_ret.
  - eapply preserves_bind; [apply Hc|]. intros c _.
    destruct c; try by apply preserves_ret.
    by eapply preserves_fmap.
Qed.

Lemma preserves_js_sort {A} (cmp : A → A → M comparison) (l : list A) :
  (∀ a b, preserves h0 (cmp a b) (λ _, True)) →
  preserves h0 (js_sort cmp l) (λ _, True).
Proof.
  intros Hc. induction l as [|x l IH]; simpl.
  - by apply preserves_ret.
  - eapply preserves_bind; [apply IH|]. intros s _.
    by apply preserves_sort_insert.
Qed.
End store_frame.

(** Stepping through a sequence of binds: the head is discharged by the rule
    for its primitive, the continuation is left to go on with. *)
Ltac frame_read :=
  first [ apply preserves_getStop | apply preserves_getNearby
        | apply preserves_getStops | apply preserves_getRoutes
        | apply preserves_liftThrow ].

Tactic Notation "frame_bind" "as" simple_intropattern(x) :=
  eapply preserves_bind; [frame_read|]; intros x _.

Section store_functions.
Import Store.
Context (haversine : coord → coord → Q) (h0 : heap).

Lemma findNearbyStops_preserves point busStops maxDistance limit :
  preserves h0 (findNearbyStops haversine point busStops maxDistance limit)
    (λ r, r ∉ dom h0).
Proof.
  unfold findNearbyStops.
  frame_bind as stops.
  eapply preserves_bind.
  { apply (preserves_mapM h0 _ _ (λ l, l ∉ dom h0)). intros stop.
    frame_bind as s. frame_bind as d. apply preserves_alloc. }
  intros mapped Hmapped.
  eapply preserves_bind; [apply preserves_alloc|]. intros mappedArr _.
  frame_bind as candidates.
  eapply preserves_bind.
  { apply preserves_js_filter. intros stop. frame_bind as n.
    by apply preserves_ret. }
  intros kept _.
  eapply preserves_bind; [apply preserves_alloc|]. intros filteredArr Hfresh.
  frame_bind as unsorted.
  eapply preserves_bind.
  { apply preserves_js_sort. intros a b. frame_bind as na. frame_bind as nb.
    by apply preserves_ret. }
  intros sorted _.
  eapply preserves_bind; [by apply preserves_setStops|]. intros _ _.
  frame_bind as all. apply preserves_alloc.
Qed.

Lemma findConnectingLines_preserves originStop destinationStop :
  preserves h0 (Store.findConnectingLines originStop destinationStop) (λ _, True).
Proof.
  unfold Store.findConnectingLines.
  frame_bind as os. frame_bind as ds. frame_read.
Qed.

Context (originLocation destinationLocation : Location).

Lemma directInner_preserves originStop dests :
  preserves h0 (directInner haversine originLocation destinationLocation
                  originStop dests) (λ _, True).
Proof.
  induction dests as [|destinationStop rest IH]; simpl.
  - by apply preserves_ret.
  - eapply preserves_bind; [apply findConnectingLines_preserves|].
    intros [|line0 ?] _; [done|].
    frame_bind as os. frame_bind as ds. eapply preserves_fmap. frame_read.
Qed.

Lemma directOuter_preserves origins dests :
  preserves h0 (directOuter haversine originLocation destinationLocation
                  origins dests) (λ _, True).
Proof.
  induction origins as [|originStop rest IH]; simpl.
  - by apply preserves_ret.
  - eapply preserves_bind; [apply directInner_preserves|]. intros [r|] _; [|done].
    by apply preserves_ret.
Qed.

Lemma calculateDirectRoute_preserves busStops :
  preserves h0 (calculateDirectRoute haversine originLocation destinationLocation
                  busStops) (λ _, True).
Proof.
  unfold calculateDirectRoute.
  eapply preserves_bind; [apply findNearbyStops_preserves|]. intros no _.
  eapply preserves_bind; [apply findNearbyStops_preserves|]. intros nd _.
  frame_bind as origins. frame_bind as dests. apply directOuter_preserves.
Qed.

Lemma terminalStops_preserves busStops :
  preserves h0 (terminalStops busStops) (λ r, r ∉ dom h0).
Proof.
  unfold terminalStops. frame_bind as stops.
  eapply preserves_bind; [|intros kept _; apply preserves_alloc].
  apply preserves_js_filter. intros stop. frame_bind as s.
  case_decide; [|by apply preserves_ret].
  frame_bind as ls. by apply preserves_ret.
Qed.

Lemma transferTerminals_preserves originStop destinationStop terminals :
  preserves h0 (transferTerminals haversine originLocation destinationLocation
                  originStop destinationStop terminals) (λ _, True).
Proof.
  induction terminals as [|terminalStop rest IH]; simpl.
  - by apply preserves_ret.
  - eapply preserves_bind; [apply findConnectingLines_preserves|].
    intros firstLeg _.
    eapply preserves_bind; [apply findConnectingLines_preserves|].
    intros secondLeg _.
    destruct firstLeg as [|f0 ?]; [done|]. destruct secondLeg as [|s0 ?]; [done|].
    frame_bind as os. frame_bind as ts. frame_bind as ds.
    eapply preserves_fmap. frame_read.
Qed.

Lemma transferInner_preserves originStop dests terminals :
  preserves h0 (transferInner haversine originLocation destinationLocation
                  originStop dests terminals) (λ _, True).
Proof.
  induction dests as [|destinationStop rest IH]; simpl.
  - by apply preserves_ret.
  - eapply preserves_bind; [apply transferTerminals_preserves|].
    intros [r|] _; [|done]. by apply preserves_ret.
Qed.

Lemma transferOuter_preserves origins dests terminals :
  preserves h0 (transferOuter haversine originLocation destinationLocation
                  origins dests terminals) (λ _, True).
Proof.
  induction origins as [|originStop rest IH]; simpl.
  - by apply preserves_ret.
  - eapply preserves_bind; [apply transferInner_preserves|].
    intros [r|] _; [|done]. by apply preserves_ret.
Qed.

Lemma calculateRouteWithTransfer_preserves busStops :
  preserves h0 (calculateRouteWithTransfer haversine originLocation
                  destinationLocation busStops) (λ _, True).
Proof.
  unfold calculateRouteWithTransfer.
  eapply preserves_bind; [apply findNearbyStops_preserves|]. intros no _.
  eapply preserves_bind; [apply findNearbyStops_preserves|]. intros nd _.
  eapply preserves_bind; [apply terminalStops_preserves|]. intros ts _.
  frame_bind as origins. frame_bind as dests. frame_bind as terminals.
  apply transferOuter_preserves.
Qed.

Lemma createExampleRoute_preserves busStops :
  preserves h0 (Store.createExampleRoute haversine originLocation
                  destinationLocation busStops) (λ _, True).
Proof. apply preserves_liftThrow. Qed.

Lemma calculateRoutes_preserves busStops :
  preserves h0 (calculateRoutes haversine originLocation destinationLocation
                  busStops) (λ r, r ∉ dom h0).
Proof.
  unfold calculateRoutes. apply preserves_try_catch.
  - eapply preserves_bind; [apply createExampleRoute_preserves|]. intros ex _.
    eapply preserves_bind; [apply preserves_alloc|]. intros routes Hroutes.
    eapply preserves_bind; [apply calculateDirectRoute_preserves|]. intros dr _.
    eapply preserves_bind.
    { instantiate (1 := λ _, True). destruct dr as [r|].
      - frame_bind as rs. by apply preserves_setRoutes.
      - by apply preserves_ret. }
    intros _ _. frame_bind as rs. frame_bind as sorted.
    eapply preserves_bind; [by apply preserves_setRoutes|]. intros _ _.
    by apply preserves_ret.
  - eapply preserves_bind; [apply createExampleRoute_preserves|]. intros ex _.
    apply preserves_alloc.
Qed.
End store_functions.

(** ** The store: the runs compute what the functions on values compute *)

Section store_runs.
Import Store(heap, loc, obj, OStop, OStops, ORoutes, outcome, Ok, Throw, Fault, M,
             liftThrow, try_catch, alloc, getStop, getNearby, getStops, getRoutes,
             setStops, setRoutes, unchanged, preserves, is_stop, is_copy,
             holds_catalog, holds_nearby, M_bind, M_ret, M_fmap).

Lemma bind_run {A B} (m : M A) (f : A → M B) h a h1 :
  m h = (Ok a, h1) → (m ≫= f) h = f a h1.
Proof. intros Hm. unfold mbind, M_bind. by rewrite Hm. Qed.

Lemma bind_throw {A B} (m : M A) (f : A → M B) h h1 :
  m h = (Throw, h1) → (m ≫= f) h = (Throw, h1).
Proof. intros Hm. unfold mbind, M_bind. by rewrite Hm. Qed.

Lemma fmap_run {A B} (g : A → B) (m : M A) h a h1 :
  m h = (Ok a, h1) → (g <$> m) h = (Ok (g a), h1).
Proof. intros Hm. unfold fmap, M_fmap. by rewrite (bind_run _ _ _ _ _ Hm). Qed.

Lemma fmap_throw {A B} (g : A → B) (m : M A) h h1 :
  m h = (Throw, h1) → (g <$> m) h = (Throw, h1).
Proof. intros Hm. unfold fmap, M_fmap. by rewrite (bind_throw _ _ _ _ Hm). Qed.

Lemma getStops_run h l ls : h !! l = Some (OStops ls) → getStops l h = (Ok ls, h).
Proof. intros Hl. unfold getStops. by rewrite Hl. Qed.

Lemma getStop_run h l s d : h !! l = Some (OStop s d) → getStop l h = (Ok s, h).
Proof. intros Hl. unfold getStop. by rewrite Hl. Qed.

Lemma getRoutes_run h l rs : h !! l = Some (ORoutes rs) → getRoutes l h = (Ok rs, h).
Proof. intros Hl. unfold getRoutes. by rewrite Hl. Qed.

Lemma getNearby_run h l n : is_copy h l n → getNearby l h = (Ok n, h).
Proof. intros Hl. unfold getNearby. rewrite Hl. by destruct n. Qed.

Lemma is_copy_weaken h h' l n : is_copy h l n → h ⊆ h' → is_copy h' l n.
Proof. unfold is_copy. intros Hl Hsub. by eapply lookup_weaken. Qed.

Lemma copies_weaken h h' ls ns :
  Forall2 (is_copy h) ls ns → h ⊆ h' → Forall2 (is_copy h') ls ns.
Proof.
  intros Hc Hsub. eapply Forall2_impl; [exact Hc|].
  intros l n Hl. by eapply is_copy_weaken.
Qed.

Context (haversine : coord → coord → Q).

Local Abbreviation annotateStop point :=
  (λ stop : Stop,
     d ← calculateDistance haversine point (coordinates stop);
     Some (mkNearby stop d)).
Local Abbreviation copyStop point :=
  (λ stop : loc,
     s ← getStop stop;
     d ← liftThrow (calculateDistance haversine point (coordinates s));
     alloc (OStop s (Some d))).

(** [busStops.map(stop => ({...stop, distance: ...}))]: one new cell for
    each stop, unless a stop has no coordinates. *)
Lemma map_copies_run point ls stops h :
  Forall2 (is_stop h) ls stops →
  ∃ h',
    h ⊆ h' ∧
    match mapM (annotateStop point) stops with
    | None => mapM (copyStop point) ls h = (Throw, h')
    | Some ns =>
        ∃ ls', mapM (copyStop point) ls h = (Ok ls', h')
               ∧ Forall2 (is_copy h') ls' ns
               ∧ Forall (λ l, l ∉ dom h) ls'
    end.
Proof.
  revert stops h. induction ls as [|l ls IH]; intros stops h Hls.
  { apply Forall2_nil_inv_l in Hls as ->. exists h. split; [done|].
    exists []. by repeat split. }
  apply Forall2_cons_inv_l in Hls as (s & stops' & [d0 Hl] & Hrest & ->).
  cbn [mapM].
  destruct (calculateDistance haversine point (coordinates s)) as [d|] eqn:Hd.
  - set (l' := fresh (dom h)). set (h1 := <[l' := OStop s (Some d)]> h).
    assert (h !! l' = None) as Hfresh by apply not_elem_of_dom, is_fresh.
    assert (h ⊆ h1) as Hsub by by apply insert_subseteq.
    assert (copyStop point l h = (Ok l', h1)) as Hcopy.
    { erewrite bind_run by by eapply getStop_run.
      unfold liftThrow at 1. rewrite Hd.
      erewrite bind_run by reflexivity. reflexivity. }
    destruct (IH stops' h1) as (h2 & Hsub2 & Hrun).
    { eapply Forall2_impl; [exact Hrest|]. intros l0 s0 [d1 Hl0].
      exists d1. by eapply lookup_weaken. }
    exists h2. split; [by etrans|].
    cbn [mbind option_bind].
    destruct (mapM (annotateStop point) stops') as [ns|]; cbn [mbind option_bind mret option_ret].
    + destruct Hrun as (ls' & Hrun & Hcopies & Hnew).
      exists (l' :: ls'). split; [|split].
      * erewrite bind_run by exact Hcopy. erewrite bind_run by exact Hrun. reflexivity.
      * constructor; [|done]. eapply is_copy_weaken; [|exact Hsub2].
        unfold is_copy, h1. simpl. by rewrite lookup_insert_eq.
      * constructor; [by apply not_elem_of_dom|].
        eapply Forall_impl; [exact Hnew|]. intros l0 Hl0 Hin. apply Hl0.
        by apply (subseteq_dom h h1 Hsub).
    + erewrite bind_run by exact Hcopy. by erewrite bind_throw by exact Hrun.
  - exists h. split; [done|]. cbn [mbind option_bind].
    erewrite bind_throw; [done|].
    erewrite bind_run by by eapply getStop_run.
    unfold liftThrow at 1. by rewrite Hd.
Qed.
Local Abbreviation withinOf maxDistance :=
  (λ stop : NearbyStop, Qle_bool (distance stop) maxDistance).
Local Abbreviation withinAt maxDistance :=
  (λ stop : loc, n ← getNearby stop; mret (Qle_bool (distance n) maxDistance)).
Local Abbreviation byDistanceOf :=
  (λ a b : NearbyStop, Some (distance a - distance b ?= 0)%Q).
Local Abbreviation byDistanceAt :=
  (λ a b : loc, na ← getNearby a; nb ← getNearby b;
                mret (distance na - distance nb ?= 0)%Q).

(** [.filter(stop => stop.distance <= maxDistance)] reads the copies. *)
Lemma filter_copies_run maxDistance ls ns (h : heap) :
  Forall2 (is_copy h) ls ns →
  ∃ kept, js_filter (withinAt maxDistance) ls h = (Ok kept, h)
          ∧ Forall2 (is_copy h) kept (List.filter (withinOf maxDistance) ns)
          ∧ kept ⊆ ls.
Proof.
  induction 1 as [|l n ls ns Hl Hrest (kept & Hrun & Hkept & Hsub)]; simpl.
  - by exists [].
  - exists (if Qle_bool (distance n) maxDistance then l :: kept else kept).
    split; [|split].
    + erewrite bind_run.
      2:{ erewrite bind_run by by apply getNearby_run. reflexivity. }
      erewrite bind_run by exact Hrun. reflexivity.
    + destruct (Qle_bool (distance n) maxDistance); [by constructor|done].
    + destruct (Qle_bool (distance n) maxDistance);
        [by apply list_subseteq_skip|by apply list_subseteq_cons].
Qed.

Lemma sort_insert_copies_run x n ls ns (h : heap) :
  is_copy h x n → Forall2 (is_copy h) ls ns →
  ∃ r rn, sort_insert byDistanceOf n ns = Some rn
          ∧ sort_insert byDistanceAt x ls h = (Ok r, h)
          ∧ Forall2 (is_copy h) r rn
          ∧ r ⊆ x :: ls.
Proof.
  intros Hx.
  induction 1 as [|l m ls ns Hl Hrest (r & rn & Hpure & Hrun & Hr & Hsub)]; simpl.
  - exists [x], [n]. repeat split; [|done]. by constructor.
  - assert (byDistanceAt x l h = (Ok (distance n - distance m ?= 0)%Q, h)) as Hcmp.
    { erewrite bind_run by by apply getNearby_run.
      erewrite bind_run by by apply getNearby_run. reflexivity. }
    erewrite bind_run by exact Hcmp.
    destruct (distance n - distance m ?= 0)%Q.
    + exists (x :: l :: ls), (n :: m :: ns). repeat split; [|done].
      by repeat constructor.
    + exists (x :: l :: ls), (n :: m :: ns). repeat split; [|done].
      by repeat constructor.
    + exists (l :: r), (m :: rn). rewrite Hpure. split; [done|].
      split; [by erewrite fmap_run by exact Hrun|].
      split; [by constructor|].
      intros y [->|Hy]%elem_of_cons; [right; by left|].
      apply Hsub in Hy as [->|Hy]%elem_of_cons; [by left|]. right. by right.
Qed.

Lemma sort_copies_run ls ns (h : heap) :
  Forall2 (is_copy h) ls ns →
  ∃ sorted sorted_ns, js_sort byDistanceOf ns = Some sorted_ns
                      ∧ js_sort byDistanceAt ls h = (Ok sorted, h)
                      ∧ Forall2 (is_copy h) sorted sorted_ns
                      ∧ sorted ⊆ ls.
Proof.
  induction 1 as [|l n ls ns Hl Hrest (s & sn & Hpure & Hrun & Hs & Hsub)]; simpl.
  - by exists [], [].
  - destruct (sort_insert_copies_run l n s sn h Hl Hs)
      as (r & rn & Hp & Hr & Hc & Hsub').
    exists r, rn. rewrite Hpure. simpl. split; [done|].
    split; [by erewrite bind_run by exact Hrun|]. split; [done|].
    etrans; [exact Hsub'|]. by apply list_subseteq_skip.
Qed.

Lemma setStops_run (h : heap) l old ls :
  h !! l = Some (OStops old) → setStops l ls h = (Ok (), <[l := OStops ls]> h).
Proof. intros Hl. unfold setStops. by rewrite Hl. Qed.

Lemma setRoutes_run (h : heap) l old rs :
  h !! l = Some (ORoutes old) → setRoutes l rs h = (Ok (), <[l := ORoutes rs]> h).
Proof. intros Hl. unfold setRoutes. by rewrite Hl. Qed.

(** Overwriting an array cell does not touch the stop cells. *)
Lemma copies_overwrite_array (h : heap) arr old new ls ns :
  h !! arr = Some (OStops old) →
  Forall2 (is_copy h) ls ns →
  Forall2 (is_copy (<[arr := OStops new]> h)) ls ns.
Proof.
  intros Harr Hc. eapply Forall2_impl; [exact Hc|].
  intros l n Hl. unfold is_copy in *.
  rewrite lookup_insert_ne; [done|]. intros ->. congruence.
Qed.

Lemma Forall2_js_slice0 {A B} (R : A → B → Prop) l k e :
  Forall2 R l k → Forall2 R (js_slice0 l e) (js_slice0 k e).
Proof.
  intros H. unfold js_slice0. rewrite (Forall2_length _ _ _ H).
  destruct (e <? 0); by apply Forall2_take.
Qed.

Lemma js_slice0_subseteq {A} (l : list A) e : js_slice0 l e ⊆ l.
Proof.
  unfold js_slice0.
  destruct (e <? 0); apply sublist_subseteq, sublist_take.
Qed.

(** [findNearbyStops] on a heap that holds the catalog: it throws when the
    function on values throws, and otherwise returns a new array of new
    cells that hold what the function on values returns. *)
Lemma findNearbyStops_run point busStops stops maxDistance limit (h : heap) :
  holds_catalog h busStops stops →
  ∃ h',
    h ⊆ h' ∧
    match findNearbyStops haversine point stops maxDistance limit with
    | None =>
        Store.findNearbyStops haversine point busStops maxDistance limit h = (Throw, h')
    | Some ns =>
        ∃ r, Store.findNearbyStops haversine point busStops maxDistance limit h = (Ok r, h')
             ∧ (r ∉ dom h) ∧ holds_nearby h h' r ns
    end.
Proof.
  intros (ls & Hcat & Hstops).
  pose proof (findNearbyStops_preserves haversine h point busStops maxDistance limit
                h (reflexivity h)) as [Hframe Hfresh].
  destruct (map_copies_run point ls stops h Hstops) as (h2 & Hsub2 & Hmap).
  unfold findNearbyStops.
  destruct (mapM (annotateStop point) stops) as [mapped|]; cbn [mbind option_bind].
  2:{ exists h2. split; [done|]. unfold Store.findNearbyStops.
      erewrite bind_run by by apply getStops_run.
      by erewrite bind_throw by exact Hmap. }
  destruct Hmap as (ls' & Hrun & Hcopies & Hnew).
  set (mappedArr := fresh (dom h2)).
  set (h3 := <[mappedArr := OStops ls']> h2).
  assert (h2 ⊆ h3) as Hsub3 by apply insert_subseteq, not_elem_of_dom, is_fresh.
  destruct (filter_copies_run maxDistance ls' mapped h3) as (kept & Hf & Hkept & Hkept_sub);
    [by eapply copies_weaken|].
  set (filteredArr := fresh (dom h3)).
  set (h4 := <[filteredArr := OStops kept]> h3).
  assert (h3 ⊆ h4) as Hsub4 by apply insert_subseteq, not_elem_of_dom, is_fresh.
  destruct (sort_copies_run kept (List.filter (withinOf maxDistance) mapped) h4) as (sorted & sorted_ns & Hps & Hs & Hsorted & Hsorted_sub);
    [by eapply copies_weaken|].
  set (h5 := <[filteredArr := OStops sorted]> h4).
  set (r := fresh (dom h5)).
  set (h6 := <[r := OStops (js_slice0 sorted limit)]> h5).
  assert (h5 ⊆ h6) as Hsub6 by apply insert_subseteq, not_elem_of_dom, is_fresh.
  assert (Store.findNearbyStops haversine point busStops maxDistance limit h = (Ok r, h6))
    as Hfinal.
  { unfold Store.findNearbyStops.
    erewrite bind_run by by apply getStops_run.
    erewrite bind_run by exact Hrun.
    erewrite bind_run by reflexivity.
    erewrite bind_run by apply getStops_run, lookup_insert_eq.
    erewrite bind_run by exact Hf.
    erewrite bind_run by reflexivity.
    erewrite bind_run by apply getStops_run, lookup_insert_eq.
    erewrite bind_run by exact Hs.
    erewrite bind_run by (eapply setStops_run; apply lookup_insert_eq).
    erewrite bind_run by apply getStops_run, lookup_insert_eq.
    reflexivity. }
  rewrite Hfinal in Hframe, Hfresh. simpl in Hframe, Hfresh.
  exists h6. split; [done|]. rewrite Hps. cbn [mbind option_bind].
  exists r. split; [done|]. split; [by apply Hfresh|].
  exists (js_slice0 sorted limit). split; [apply lookup_insert_eq|]. split.
  - apply Forall2_js_slice0. eapply copies_weaken; [|exact Hsub6].
    eapply copies_overwrite_array; [apply lookup_insert_eq|done].
  - apply Forall_forall. intros l Hl.
    apply js_slice0_subseteq, Hsorted_sub, Hkept_sub in Hl.
    by apply (proj1 (Forall_forall _ _) Hnew l).
Qed.

Lemma holds_catalog_weaken (h h' : heap) busStops stops :
  holds_catalog h busStops stops → h ⊆ h' → holds_catalog h' busStops stops.
Proof.
  intros (ls & Hcat & Hstops) Hsub. exists ls. split; [by eapply lookup_weaken|].
  eapply Forall2_impl; [exact Hstops|]. intros l s [d Hl]. exists d.
  by eapply lookup_weaken.
Qed.

Lemma is_copy_is_stop (h : heap) l n : is_copy h l n → is_stop h l (ns_stop n).
Proof. intros Hl. by exists (Some (distance n)). Qed.

Lemma liftThrow_run {A} (o : option A) (h : heap) :
  liftThrow o h = (Store.outcome_of o, h).
Proof. by destruct o. Qed.

Lemma liftThrow_Some {A} (o : option A) a (h : heap) :
  o = Some a → liftThrow o h = (Ok a, h).
Proof. by intros ->. Qed.

Lemma liftThrow_None {A} (o : option A) (h : heap) :
  o = None → liftThrow o h = (Throw, h).
Proof. by intros ->. Qed.

Lemma findConnectingLines_run (h : heap) originStop os destinationStop ds :
  is_stop h originStop os → is_stop h destinationStop ds →
  Store.findConnectingLines originStop destinationStop h
  = (Store.outcome_of (findConnectingLines os ds), h).
Proof.
  intros [d1 Hos] [d2 Hds]. unfold Store.findConnectingLines.
  erewrite bind_run by by eapply getStop_run.
  erewrite bind_run by by eapply getStop_run.
  apply liftThrow_run.
Qed.

Context (originLocation destinationLocation : Location).

Lemma directInner_run (h : heap) originStop os dests nds :
  is_copy h originStop os → Forall2 (is_copy h) dests nds →
  Store.directInner haversine originLocation destinationLocation originStop dests h
  = (Store.outcome_of
       (directInner haversine originLocation destinationLocation os nds), h).
Proof.
  intros Hos. induction 1 as [|l ds dests nds Hds Hrest IH]; simpl; [done|].
  pose proof (findConnectingLines_run h originStop os l ds
                (is_copy_is_stop _ _ _ Hos) (is_copy_is_stop _ _ _ Hds)) as Hlines.
  destruct (findConnectingLines os ds) as [[|line0 ls]|] eqn:Hl; simpl in *.
  - by erewrite bind_run by exact Hlines.
  - erewrite bind_run by exact Hlines. cbn beta iota.
    erewrite bind_run by by apply getNearby_run.
    erewrite bind_run by by apply getNearby_run.
    destruct (buildDirectRoute _ _ _ _ _ _) as [r|] eqn:Hb; simpl.
    + by erewrite fmap_run by reflexivity.
    + by erewrite fmap_throw by reflexivity.
  - by erewrite bind_throw by exact Hlines.
Qed.

Lemma directOuter_run (h : heap) origins nos dests nds :
  Forall2 (is_copy h) origins nos → Forall2 (is_copy h) dests nds →
  Store.directOuter haversine originLocation destinationLocation origins dests h
  = (Store.outcome_of
       (directOuter haversine originLocation destinationLocation nos nds), h).
Proof.
  intros Hos Hds. induction Hos as [|l os origins nos Hl Hrest IH]; simpl; [done|].
  pose proof (directInner_run h l os dests nds Hl Hds) as Hin.
  destruct (directInner haversine _ _ os nds) as [[r|]|]; simpl in *.
  - by erewrite bind_run by exact Hin.
  - by erewrite bind_run by exact Hin.
  - by erewrite bind_throw by exact Hin.
Qed.

Lemma calculateDirectRoute_run (h : heap) busStops stops :
  holds_catalog h busStops stops →
  ∃ h', h ⊆ h' ∧
    Store.calculateDirectRoute haversine originLocation destinationLocation busStops h
    = (Store.outcome_of
         (calculateDirectRoute haversine originLocation destinationLocation stops), h').
Proof.
  intros Hcat. unfold calculateDirectRoute, Store.calculateDirectRoute.
  destruct (findNearbyStops_run (loc_coordinates originLocation) busStops stops
              3000 10 h Hcat) as (h1 & Hsub1 & Hrun1).
  destruct (findNearbyStops haversine (loc_coordinates originLocation) stops 3000 10)
    as [no|]; cbn [mbind option_bind].
  2:{ exists h1. split; [done|]. by erewrite bind_throw by exact Hrun1. }
  destruct Hrun1 as (r1 & Hrun1 & _ & (ls1 & Hr1 & Hcopies1 & _)).
  destruct (findNearbyStops_run (loc_coordinates destinationLocation) busStops stops
              3000 10 h1) as (h2 & Hsub2 & Hrun2); [by eapply holds_catalog_weaken|].
  destruct (findNearbyStops haversine (loc_coordinates destinationLocation) stops 3000 10)
    as [nd|]; cbn [mbind option_bind].
  2:{ exists h2. split; [by etrans|].
      erewrite bind_run by exact Hrun1. by erewrite bind_throw by exact Hrun2. }
  destruct Hrun2 as (r2 & Hrun2 & _ & (ls2 & Hr2 & Hcopies2 & _)).
  exists h2. split; [by etrans|].
  erewrite bind_run by exact Hrun1. erewrite bind_run by exact Hrun2.
  erewrite bind_run by (apply getStops_run; by eapply lookup_weaken).
  erewrite bind_run by by apply getStops_run.
  apply directOuter_run; [by eapply copies_weaken|done].
Qed.

Local Abbreviation isTerminalAt :=
  (λ stop : loc,
     s ← getStop stop;
     if decide (stop_type s = Some "main"%string)
     then ls ← liftThrow (lines s); mret (4 <=? length ls)%nat
     else mret false).

(** [filter] with a callback that reads the heap, against [filter] with the
    callback on values. *)
Lemma js_filter_run {A B} (R : A → B → Prop) (p : A → M bool) (q : B → option bool)
    (h : heap) ls xs :
  (∀ l x, R l x → p l h = (Store.outcome_of (q x), h)) →
  Forall2 R ls xs →
  match js_filter q xs with
  | None => js_filter p ls h = (Throw, h)
  | Some ts => ∃ lts, js_filter p ls h = (Ok lts, h) ∧ Forall2 R lts ts
  end.
Proof.
  intros Hpq. induction 1 as [|l x ls xs Hlx Hrest IH]; cbn [js_filter].
  { by exists []. }
  pose proof (Hpq l x Hlx) as Hp.
  destruct (q x) as [b|]; cbn [mbind option_bind Store.outcome_of] in *.
  2:{ by erewrite bind_throw by exact Hp. }
  destruct (js_filter q xs) as [ts|]; cbn [mbind option_bind mret option_ret].
  - destruct IH as (lts & Hrun & Hlts).
    exists (if b then l :: lts else lts). split.
    + erewrite bind_run by exact Hp. by erewrite bind_run by exact Hrun.
    + destruct b; [by constructor|done].
  - erewrite bind_run by exact Hp. by erewrite bind_throw by exact IH.
Qed.

(** The filter of [calculateRouteWithTransfer] reads the catalog stops. *)
Lemma filter_terminals_run (h : heap) ls stops :
  Forall2 (is_stop h) ls stops →
  match terminalStops stops with
  | None => js_filter isTerminalAt ls h = (Throw, h)
  | Some ts =>
      ∃ lts, js_filter isTerminalAt ls h = (Ok lts, h) ∧ Forall2 (is_stop h) lts ts
  end.
Proof.
  unfold terminalStops. apply js_filter_run.
  intros l s [d Hl]. erewrite bind_run by by eapply getStop_run.
  destruct (decide (stop_type s = Some "main"%string)); [|done].
  by destruct (lines s).
Qed.

Lemma transferTerminals_run (h : heap) originStop os destinationStop ds terminals ts :
  is_copy h originStop os → is_copy h destinationStop ds →
  Forall2 (is_stop h) terminals ts →
  Store.transferTerminals haversine originLocation destinationLocation
    originStop destinationStop terminals h
  = (Store.outcome_of
       (transferTerminals haversine originLocation destinationLocation os ds ts), h).
Proof.
  intros Hos Hds. induction 1 as [|l t terminals ts Ht Hrest IH]; simpl; [done|].
  pose proof (findConnectingLines_run h originStop os l t
                (is_copy_is_stop _ _ _ Hos) Ht) as Hfirst.
  pose proof (findConnectingLines_run h l t destinationStop ds
                Ht (is_copy_is_stop _ _ _ Hds)) as Hsecond.
  destruct Ht as [dt Ht].
  destruct (findConnectingLines os t) as [firstLeg|]; simpl in *.
  2:{ by erewrite bind_throw by exact Hfirst. }
  erewrite bind_run by exact Hfirst.
  destruct (findConnectingLines t ds) as [secondLeg|]; simpl in *.
  2:{ by erewrite bind_throw by exact Hsecond. }
  erewrite bind_run by exact Hsecond.
  destruct firstLeg as [|f0 ?]; [done|]. destruct secondLeg as [|s0 ?]; [done|].
  erewrite bind_run by by apply getNearby_run.
  erewrite bind_run by by eapply getStop_run.
  erewrite bind_run by by apply getNearby_run.
  destruct (buildTransferRoute _ _ _ _ _ _ _ _) as [r|] eqn:Hb; simpl.
  - by erewrite fmap_run by reflexivity.
  - by erewrite fmap_throw by reflexivity.
Qed.

Lemma transferInner_run (h : heap) originStop os dests nds terminals ts :
  is_copy h originStop os → Forall2 (is_copy h) dests nds →
  Forall2 (is_stop h) terminals ts →
  Store.transferInner haversine originLocation destinationLocation
    originStop dests terminals h
  = (Store.outcome_of
       (transferInner haversine originLocation destinationLocation os nds ts), h).
Proof.
  intros Hos Hds Hts. induction Hds as [|l ds dests nds Hl Hrest IH]; simpl; [done|].
  pose proof (transferTerminals_run h originStop os l ds terminals ts Hos Hl Hts) as Hin.
  destruct (transferTerminals haversine _ _ os ds ts) as [[r|]|]; simpl in *.
  - by erewrite bind_run by exact Hin.
  - by erewrite bind_run by exact Hin.
  - by erewrite bind_throw by exact Hin.
Qed.

Lemma transferOuter_run (h : heap) origins nos dests nds terminals ts :
  Forall2 (is_copy h) origins nos → Forall2 (is_copy h) dests nds →
  Forall2 (is_stop h) terminals ts →
  Store.transferOuter haversine originLocation destinationLocation
    origins dests terminals h
  = (Store.outcome_of
       (transferOuter haversine originLocation destinationLocation nos nds ts), h).
Proof.
  intros Hos Hds Hts. induction Hos as [|l os origins nos Hl Hrest IH]; simpl; [done|].
  pose proof (transferInner_run h l os dests nds terminals ts Hl Hds Hts) as Hin.
  destruct (transferInner haversine _ _ os nds ts) as [[r|]|]; simpl in *.
  - by erewrite bind_run by exact Hin.
  - by erewrite bind_run by exact Hin.
  - by erewrite bind_throw by exact Hin.
Qed.

Lemma stops_weaken (h h' : heap) ls stops :
  Forall2 (is_stop h) ls stops → h ⊆ h' → Forall2 (is_stop h') ls stops.
Proof.
  intros Hs Hsub. eapply Forall2_impl; [exact Hs|].
  intros l s [d Hl]. exists d. by eapply lookup_weaken.
Qed.

(** [calculateRouteWithTransfer] on a heap that holds the catalog ends as the
    function on values does. *)
Lemma calculateRouteWithTransfer_run (h : heap) busStops stops :
  holds_catalog h busStops stops →
  ∃ h', h ⊆ h' ∧
    Store.calculateRouteWithTransfer haversine originLocation destinationLocation
      busStops h
    = (Store.outcome_of
         (calculateRouteWithTransfer haversine originLocation destinationLocation
            stops), h').
Proof.
  intros Hcat. unfold calculateRouteWithTransfer, Store.calculateRouteWithTransfer.
  destruct (findNearbyStops_run (loc_coordinates originLocation) busStops stops
              3000 10 h Hcat) as (h1 & Hsub1 & Hrun1).
  destruct (findNearbyStops haversine (loc_coordinates originLocation) stops 3000 10)
    as [no|]; cbn [mbind option_bind].
  2:{ exists h1. split; [done|]. by erewrite bind_throw by exact Hrun1. }
  destruct Hrun1 as (r1 & Hrun1 & _ & (ls1 & Hr1 & Hcopies1 & _)).
  destruct (findNearbyStops_run (loc_coordinates destinationLocation) busStops stops
              3000 10 h1) as (h2 & Hsub2 & Hrun2); [by eapply holds_catalog_weaken|].
  destruct (findNearbyStops haversine (loc_coordinates destinationLocation) stops 3000 10)
    as [nd|]; cbn [mbind option_bind].
  2:{ exists h2. split; [by etrans|].
      erewrite bind_run by exact Hrun1. by erewrite bind_throw by exact Hrun2. }
  destruct Hrun2 as (r2 & Hrun2 & _ & (ls2 & Hr2 & Hcopies2 & _)).
  destruct Hcat as (ls & Hcat & Hstops).
  assert (h ⊆ h2) as Hsub by by etrans.
  pose proof (filter_terminals_run h2 ls stops (stops_weaken _ _ _ _ Hstops Hsub))
    as Hfilter.
  unfold Store.terminalStops.
  destruct (terminalStops stops) as [ts|]; cbn [mbind option_bind].
  2:{ exists h2. split; [done|].
      erewrite bind_run by exact Hrun1. erewrite bind_run by exact Hrun2.
      erewrite bind_throw; [done|].
      erewrite bind_run by (apply getStops_run; by eapply lookup_weaken).
      by erewrite bind_throw by exact Hfilter. }
  destruct Hfilter as (lts & Hfilter & Hlts).
  set (terminalArr := fresh (dom h2)).
  set (h3 := <[terminalArr := OStops lts]> h2).
  assert (h2 ⊆ h3) as Hsub3 by apply insert_subseteq, not_elem_of_dom, is_fresh.
  exists h3. split; [by etrans|].
  erewrite bind_run by exact Hrun1. erewrite bind_run by exact Hrun2.
  erewrite bind_run.
  2:{ erewrite bind_run by (apply getStops_run; by eapply lookup_weaken).
      erewrite bind_run by exact Hfilter. reflexivity. }
  erewrite bind_run
    by (apply getStops_run; eapply lookup_weaken; [exact Hr1|by etrans]).
  erewrite bind_run
    by (apply getStops_run; eapply lookup_weaken; [exact Hr2|exact Hsub3]).
  erewrite bind_run by apply getStops_run, lookup_insert_eq.
  apply transferOuter_run.
  - eapply copies_weaken; [exact Hcopies1|by etrans].
  - by eapply copies_weaken.
  - by eapply stops_weaken.
Qed.

Lemma createExampleRoute_any_catalog (stops stops' : list Stop) :
  createExampleRoute haversine originLocation destinationLocation stops
  = createExampleRoute haversine originLocation destinationLocation stops'.
Proof. reflexivity. Qed.

(** [calculateRoutes] on a heap that holds the catalog returns a new array
    that holds what the function on values returns. *)
Lemma calculateRoutes_run (h : heap) busStops stops :
  holds_catalog h busStops stops →
  ∃ h' r rs,
    Store.calculateRoutes haversine originLocation destinationLocation busStops h
      = (Ok r, h')
    ∧ h ⊆ h' ∧ (r ∉ dom h)
    ∧ h' !! r = Some (ORoutes rs)
    ∧ calculateRoutes haversine originLocation destinationLocation stops = Some rs.
Proof.
  intros Hcat.
  pose proof (calculateRoutes_preserves haversine h originLocation destinationLocation
                busStops h (reflexivity h)) as [Hframe Hfresh].
  cut (∃ h' r rs,
         Store.calculateRoutes haversine originLocation destinationLocation busStops h
           = (Ok r, h')
         ∧ h' !! r = Some (ORoutes rs)
         ∧ calculateRoutes haversine originLocation destinationLocation stops = Some rs).
  { intros (h' & r & rs & Hrun & Hr & Hpure). exists h', r, rs.
    rewrite Hrun in Hframe, Hfresh. simpl in *. repeat split; auto. }
  destruct (createExampleRoute_no_throw haversine originLocation destinationLocation stops)
    as [ex Hex].
  assert (∀ h1 : heap,
            Store.createExampleRoute haversine originLocation destinationLocation
              busStops h1 = (Ok ex, h1)) as Hexample.
  { intros h1. unfold Store.createExampleRoute.
    by rewrite liftThrow_run, (createExampleRoute_any_catalog [] stops), Hex. }
  (* the catch block, run from any heap *)
  assert (∀ h1 : heap, ∃ h' r,
            (fallbackRoute ← Store.createExampleRoute haversine originLocation
                               destinationLocation busStops;
             alloc (ORoutes (match fallbackRoute with
                             | Some r => [Some r] | None => [] end))) h1 = (Ok r, h')
            ∧ h' !! r = Some (ORoutes (match ex with
                                       | Some r => [Some r] | None => [] end)))
    as Hcatch.
  { intros h1. eexists _, _. erewrite bind_run by apply Hexample.
    split; [reflexivity|]. apply lookup_insert_eq. }
  set (routes := fresh (dom h)).
  set (h1 := <[routes := ORoutes [ex]]> h).
  assert (h ⊆ h1) as Hsub1 by apply insert_subseteq, not_elem_of_dom, is_fresh.
  destruct (calculateDirectRoute_run h1 busStops stops) as (h2 & Hsub2 & Hdirect);
    [by eapply holds_catalog_weaken|].
  assert (h2 !! routes = Some (ORoutes [ex])) as Hroutes2.
  { eapply lookup_weaken; [|exact Hsub2]. apply lookup_insert_eq. }
  unfold calculateRoutes, calculateRoutes_try, calculateRoutes_catch.
  rewrite Hex. cbn [mbind option_bind].
  unfold Store.calculateRoutes, try_catch.
  destruct (calculateDirectRoute haversine originLocation destinationLocation stops)
    as [[dr|]|]; cbn [mbind option_bind Store.outcome_of] in *.
  - (* a direct route: push, then sort *)
    change ([ex] ++ [Some dr]) with [ex; Some dr].
    set (h3 := <[routes := ORoutes [ex; Some dr]]> h2).
    destruct (js_sort compareRoutes [ex; Some dr]) as [sorted|] eqn:Hsort.
    + exists (<[routes := ORoutes sorted]> h3), routes, sorted.
      erewrite bind_run by apply Hexample.
      erewrite bind_run by reflexivity.
      erewrite bind_run by exact Hdirect.
      erewrite bind_run.
      2:{ erewrite bind_run by by apply getRoutes_run.
          by eapply setRoutes_run. }
      erewrite bind_run by (apply getRoutes_run, lookup_insert_eq).
      erewrite bind_run by (apply liftThrow_Some; exact Hsort).
      erewrite bind_run by (eapply setRoutes_run, lookup_insert_eq).
      split; [reflexivity|]. split; [apply lookup_insert_eq|done].
    + destruct (Hcatch h3) as (h' & r & Hrun & Hr).
      exists h', r, (match ex with Some r => [Some r] | None => [] end).
      erewrite bind_run by apply Hexample.
      erewrite bind_run by reflexivity.
      erewrite bind_run by exact Hdirect.
      erewrite bind_run.
      2:{ erewrite bind_run by by apply getRoutes_run.
          by eapply setRoutes_run. }
      erewrite bind_run by (apply getRoutes_run, lookup_insert_eq).
      erewrite bind_throw by (apply liftThrow_None; exact Hsort).
      done.
  - (* no direct route: the example route alone is sorted *)
    exists (<[routes := ORoutes [ex]]> h2), routes, [ex].
    erewrite bind_run by apply Hexample.
    erewrite bind_run by reflexivity.
    erewrite bind_run by exact Hdirect.
    erewrite bind_run by reflexivity.
    erewrite bind_run by by apply getRoutes_run.
    erewrite bind_run by reflexivity.
    erewrite bind_run by by eapply setRoutes_run.
    split; [reflexivity|]. split; [apply lookup_insert_eq|done].
  - (* the direct search throws *)
    destruct (Hcatch h2) as (h' & r & Hrun & Hr).
    exists h', r, (match ex with Some r => [Some r] | None => [] end).
    erewrite bind_run by apply Hexample.
    erewrite bind_run by reflexivity.
    erewrite bind_throw by exact Hdirect.
    done.
Qed.
End store_runs.

(** ** Line connectivity *)

(** C3 (as stated, refuted): for the catalog stops stop-022 and stop-023, which
    share no line, [findConnectingLines] returns the line code 0.999 that
    neither stop serves instead of the empty list; and for two stops that
    share the lines 0.140 and 0.111 it returns them in the order of the
    origin stop's array, which is not ascending. *)
Lemma findConnectingLines_placeholder_and_order :
  findConnectingLines stop022 stop023 = Some ["0.999"%string]
  ∧ lines stop022 = Some ["0.350"; "0.352"]%string
  ∧ lines stop023 = Some ["0.351"; "0.360"; "METRO"]%string
  ∧ findConnectingLines stopDesc1 stopDesc2 = Some ["0.140"; "0.111"]%string
  ∧ String.ltb "0.111" "0.140" = true.
Proof. repeat split. Qed.

(** C3 (amended): when both stops carry a [lines] array, [findConnectingLines]
    returns the codes of the origin stop's array that also occur in the
    destination stop's array, in the order (and with the repetitions) of the
    origin stop's array; when there is no such code it returns the one-element
    list holding the placeholder code 0.999. *)
Theorem findConnectingLines_common (a b : Stop) (la lb : list string) :
  lines a = Some la → lines b = Some lb →
  ∃ common : list string,
    sublist common la
    ∧ (∀ l, l ∈ common ↔ l ∈ la ∧ l ∈ lb)
    ∧ (∀ l, l ∈ lb → List.filter (String.eqb l) common = List.filter (String.eqb l) la)
    ∧ findConnectingLines a b
      = Some (match common with [] => ["0.999"%string] | _ => common end).
Proof.
  intros Ha Hb.
  exists (List.filter (λ l, existsb (String.eqb l) lb) la).
  split; [apply List_filter_sublist|]. split; [|split].
  - intros l. rewrite elem_of_List_filter. by rewrite existsb_eqb_elem_of.
  - intros l Hl. induction la as [|x la IH] in |- *; simpl; [done|].
    destruct (existsb (String.eqb x) lb) eqn:Hx; simpl; [by rewrite IH|].
    destruct (String.eqb l x) eqn:Hlx; [|done].
    apply String.eqb_eq in Hlx. subst x.
    apply existsb_eqb_elem_of in Hl. congruence.
  - unfold findConnectingLines. rewrite Ha. simpl.
    rewrite (js_filter_pure _ (λ l, existsb (String.eqb l) lb)).
    + simpl. by destruct (List.filter _ la).
    + intros x _. by rewrite Hb.
Qed.

Lemma findConnectingLines_common_witness :
  ∃ common : list string,
    sublist common ["0.350"; "0.352"]%string
    ∧ (∀ l, l ∈ common ↔ l ∈ ["0.350"; "0.352"]%string
                          ∧ l ∈ ["0.351"; "0.360"; "METRO"]%string)
    ∧ (∀ l, l ∈ ["0.351"; "0.360"; "METRO"]%string →
         List.filter (String.eqb l) common
         = List.filter (String.eqb l) ["0.350"; "0.352"]%string)
    ∧ findConnectingLines stop022 stop023
      = Some (match common with [] => ["0.999"%string] | _ => common end).
Proof.
  apply (findConnectingLines_common stop022 stop023); reflexivity.
Defined.

(** ** Transfer terminals *)

(** C6 (as stated, refuted): the catalog stop stop-002 serves four lines, yet
    it is not a transfer terminal, because its type is 'regular'. *)
Lemma terminalStops_excludes_regular_stop :
  (∃ ls, lines stop002 = Some ls ∧ (4 ≤ length ls)%nat)
  ∧ terminalStops [stop001; stop002] = Some [stop001].
Proof. split; [|reflexivity]. eexists. split; [reflexivity|]. simpl. lia. Qed.

(** C6 (amended): in [calculateRouteWithTransfer] the candidate terminals are
    exactly the catalog stops whose type is 'main' and whose [lines] array has
    at least four entries, in catalog order; every route the function returns
    changes buses at one of them. *)
Theorem terminalStops_main_and_four_lines (haversine : coord → coord → Q)
    (originLocation destinationLocation : Location) (busStops : list Stop) :
  (∀ s, s ∈ busStops → is_Some (lines s)) →
  ∃ ts, terminalStops busStops = Some ts
    ∧ sublist ts busStops
    ∧ (∀ s, s ∈ ts ↔ s ∈ busStops ∧ stop_type s = Some "main"%string
                      ∧ ∃ ls, lines s = Some ls ∧ (4 ≤ length ls)%nat)
    ∧ (∀ r, calculateRouteWithTransfer haversine originLocation destinationLocation
              busStops = Some (Some r) →
         ∃ os ds t f0 s0, t ∈ ts
           ∧ buildTransferRoute haversine originLocation destinationLocation
               os ds t f0 s0 = Some r).
Proof.
  intros Hwf. exists (List.filter isTerminal busStops).
  assert (terminalStops busStops = Some (List.filter isTerminal busStops)) as Hts.
  { apply terminalStops_filter. intros s Hs _. by apply Hwf. }
  split; [done|]. split; [apply List_filter_sublist|]. split.
  - intros s. by rewrite elem_of_List_filter, isTerminal_true.
  - intros r. unfold calculateRouteWithTransfer.
    intros H.
    apply bind_Some in H as (no & _ & H). apply bind_Some in H as (nd & _ & H).
    rewrite Hts in H. simpl in H.
    apply transferOuter_Some in H as (os & ds & t & f & s & _ & _ & Ht & Hb).
    by exists os, ds, t, f, s.
Qed.

Lemma terminalStops_main_and_four_lines_witness :
  ∃ ts, terminalStops [stop001; stop002] = Some ts
    ∧ sublist ts [stop001; stop002]
    ∧ (∀ s, s ∈ ts ↔ s ∈ [stop001; stop002] ∧ stop_type s = Some "main"%string
                      ∧ ∃ ls, lines s = Some ls ∧ (4 ≤ length ls)%nat)
    ∧ (∀ r, calculateRouteWithTransfer meridianDistance tieOrigin tieDestination
              [stop001; stop002] = Some (Some r) →
         ∃ os ds t f0 s0, t ∈ ts
           ∧ buildTransferRoute meridianDistance tieOrigin tieDestination
               os ds t f0 s0 = Some r).
Proof.
  apply (terminalStops_main_and_four_lines meridianDistance tieOrigin tieDestination
           [stop001; stop002]).
  intros s Hs. apply list_elem_of_In in Hs. simpl in Hs.
  destruct Hs as [<-|[<-|[]]]; by eexists.
Defined.

(** The transfer builder at work in the "transfer" scenario: the one stop near
    the origin and the nearest stop to the destination are joined through the
    hub, in two segments, for 18 + 7 + 15 + 9 + 3 + 12 = 64 minutes. *)
Example calculateRouteWithTransfer_via_hub :
  ∃ r s1 s2,
    calculateRouteWithTransfer meridianDistance tieOrigin tieDestination transferCatalog
      = Some (Some r)
    ∧ segmentos r = [s1; s2]
    ∧ paradaDestino s1 = Plain hubStop ∧ paradaOrigem s2 = Plain hubStop
    ∧ linha s1 = "0.111"%string ∧ linha s2 = "0.300"%string
    ∧ transferencias r = 1 ∧ tempo_total r = 64.
Proof. do 3 eexists. split; [by vm_compute|]. by repeat split. Qed.

(** ** The orchestrator *)

(** C1: when both locations carry coordinates, [calculateRoutes] returns, for
    every catalog (the empty one too), a list with at least one entry, none of
    its entries is [null], and the route built by [createExampleRoute] is one
    of them. *)
Theorem calculateRoutes_includes_example (haversine : coord → coord → Q)
    (originLocation destinationLocation : Location) (busStops : list Stop)
    (co cd : coord) :
  loc_coordinates originLocation = Some co →
  loc_coordinates destinationLocation = Some cd →
  ∃ ex rs,
    createExampleRoute haversine originLocation destinationLocation busStops
      = Some (Some ex)
    ∧ calculateRoutes haversine originLocation destinationLocation busStops = Some rs
    ∧ Some ex ∈ rs
    ∧ (1 ≤ length rs)%nat
    ∧ (∀ x, x ∈ rs → x ≠ None).
Proof.
  intros Ho Hd.
  destruct (createExampleRoute_with_coordinates haversine _ _ busStops _ _ Ho Hd)
    as [ex Hex].
  destruct (calculateRoutes_never_throws haversine originLocation destinationLocation
              busStops) as [rs Hrs].
  exists ex, rs. split; [done|]. split; [done|].
  apply calculateRoutes_shape in Hrs as (ex' & Hex' & Hshape).
  rewrite Hex in Hex'. injection Hex' as <-.
  destruct Hshape as [_ ->|e dr [= <-] _ ->|_ ->].
  - split; [by left|]. split; [simpl; lia|]. by intros x ->%list_elem_of_singleton.
  - case_decide; (split; [by repeat constructor|]); (split; [simpl; lia|]);
      intros x Hx; apply list_elem_of_In in Hx; simpl in Hx;
      by destruct Hx as [<-|[<-|[]]].
  - split; [by left|]. split; [simpl; lia|]. by intros x ->%list_elem_of_singleton.
Qed.

Lemma calculateRoutes_includes_example_witness :
  ∃ ex rs,
    createExampleRoute meridianDistance tieOrigin tieDestination [] = Some (Some ex)
    ∧ calculateRoutes meridianDistance tieOrigin tieDestination [] = Some rs
    ∧ Some ex ∈ rs
    ∧ (1 ≤ length rs)%nat
    ∧ (∀ x, x ∈ rs → x ≠ None).
Proof.
  apply (calculateRoutes_includes_example meridianDistance tieOrigin tieDestination []
           (onMeridian (-158000 # 10000)) (onMeridian (-157460 # 10000)));
    reflexivity.
Defined.

(** C2 (as stated, refuted): in the "cross" scenario both catalog stops are
    near both ends, so the cross product has four stop pairs, and the direct
    builder yields a route for the pair (second origin stop, second
    destination stop); that route is not among the two routes returned. *)
Lemma calculateRoutes_keeps_one_direct_route :
  ∃ rs (no nd : list NearbyStop) (os ds : NearbyStop) line0 r,
    calculateRoutes meridianDistance crossOrigin crossDestination crossCatalog = Some rs
    ∧ findNearbyStops meridianDistance (loc_coordinates crossOrigin) crossCatalog 3000 10
      = Some no
    ∧ findNearbyStops meridianDistance (loc_coordinates crossDestination) crossCatalog 3000 10
      = Some nd
    ∧ no !! 1%nat = Some os ∧ nd !! 1%nat = Some ds
    ∧ findConnectingLines os ds = Some [line0]
    ∧ buildDirectRoute meridianDistance crossOrigin crossDestination os ds line0 = Some r
    ∧ length rs = 2%nat
    ∧ Some r ∉ rs.
Proof.
  do 7 eexists.
  split; [by vm_compute|]. split; [by vm_compute|]. split; [by vm_compute|].
  split; [reflexivity|]. split; [reflexivity|].
  split; [by vm_compute|]. split; [by vm_compute|]. split; [reflexivity|].
  intros Hin. apply list_elem_of_In in Hin.
  destruct Hin as [H|[H|[]]]; apply (f_equal (fmap tempo_total)) in H;
    vm_compute in H; discriminate.
Qed.

(** C2 (amended): [calculateRoutes] calls [calculateDirectRoute] once and never
    calls [calculateRouteWithTransfer].  The list it returns has at most two
    entries, and every route in it has one segment and no transfer.  The
    routes in it are exactly these: the example route, whenever
    [createExampleRoute] returns one, and the direct route built for the first
    pair of the cross product, the nearest origin stop and the nearest
    destination stop, whenever that route can be built. *)
Theorem calculateRoutes_example_and_first_direct (haversine : coord → coord → Q)
    (originLocation destinationLocation : Location) (busStops : list Stop)
    (rs : list (option Route)) :
  calculateRoutes haversine originLocation destinationLocation busStops = Some rs →
  (length rs ≤ 2)%nat
  ∧ (∀ r, Some r ∈ rs → transferencias r = 0 ∧ length (segmentos r) = 1%nat)
  ∧ ∀ r, Some r ∈ rs ↔
      createExampleRoute haversine originLocation destinationLocation busStops
        = Some (Some r)
      ∨ ∃ os no ds nd line0 ls,
          findNearbyStops haversine (loc_coordinates originLocation) busStops 3000 10
            = Some (os :: no)
          ∧ findNearbyStops haversine (loc_coordinates destinationLocation) busStops 3000 10
            = Some (ds :: nd)
          ∧ findConnectingLines os ds = Some (line0 :: ls)
          ∧ buildDirectRoute haversine originLocation destinationLocation os ds line0
            = Some r.
Proof.
  intros Hrs.
  set (first_direct := λ r,
         ∃ os no ds nd line0 ls,
           findNearbyStops haversine (loc_coordinates originLocation) busStops 3000 10
             = Some (os :: no)
           ∧ findNearbyStops haversine (loc_coordinates destinationLocation)
               busStops 3000 10 = Some (ds :: nd)
           ∧ findConnectingLines os ds = Some (line0 :: ls)
           ∧ buildDirectRoute haversine originLocation destinationLocation
               os ds line0 = Some r).
  cut ((length rs ≤ 2)%nat
       ∧ ∀ r, Some r ∈ rs ↔
           createExampleRoute haversine originLocation destinationLocation busStops
             = Some (Some r)
           ∨ first_direct r).
  { intros [Hlen Hroutes]. split; [done|]. split; [|done].
    intros r Hr.
    destruct (proj1 (Hroutes r) Hr)
      as [He|(os & no & ds & nd & l0 & ls & _ & _ & _ & Hb)].
    - by eapply createExampleRoute_no_transfer.
    - by eapply buildDirectRoute_no_transfer. }
  assert (∀ dr, calculateDirectRoute haversine originLocation destinationLocation
                  busStops = Some (Some dr) ↔ first_direct dr) as Hdirect.
  { intros dr. split.
    - intros Hdr. unfold calculateDirectRoute in Hdr.
      apply bind_Some in Hdr as (no' & Hno & Hdr).
      apply bind_Some in Hdr as (nd' & Hnd & Hdr).
      apply directOuter_Some in Hdr as (os & no & ds & nd & line0 & ls & -> & -> & ? & ?).
      by exists os, no, ds, nd, line0, ls.
    - intros (os & no & ds & nd & line0 & ls & Hno & Hnd & Hl & Hb).
      unfold calculateDirectRoute. rewrite Hno, Hnd. simpl.
      rewrite Hl. simpl. rewrite Hb. reflexivity. }
  assert (∀ dr, first_direct dr →
            ∃ e, createExampleRoute haversine originLocation destinationLocation
                   busStops = Some (Some e)) as Hboth.
  { intros dr (os & no & ds & nd & line0 & ls & Hno & Hnd & _ & _).
    destruct busStops as [|stop l].
    { unfold findNearbyStops in Hno. simpl in Hno. discriminate Hno. }
    destruct (loc_coordinates originLocation) as [co|] eqn:Ho;
      [|by rewrite findNearbyStops_no_point in Hno].
    destruct (loc_coordinates destinationLocation) as [cd|] eqn:Hd;
      [|by rewrite findNearbyStops_no_point in Hnd].
    by eapply createExampleRoute_with_coordinates. }
  apply calculateRoutes_shape in Hrs as (ex & Hex & Hshape).
  destruct Hshape as [Hnone ->|e dr -> Hdr ->|Hthrows ->].
  - split; [simpl; lia|]. intros r. rewrite list_elem_of_singleton. split.
    + intros <-. by left.
    + intros [He|Hd]; [congruence|].
      apply Hdirect in Hd. congruence.
  - split; [by case_decide|]. intros r.
    assert (Some r ∈ (if decide (tempo_total dr < tempo_total e)
                      then [Some dr; Some e] else [Some e; Some dr])
            ↔ r = e ∨ r = dr) as ->.
    { case_decide; rewrite !elem_of_cons, elem_of_nil; split;
        intros Hor; destruct_or?; simplify_eq; auto. }
    split.
    + intros [-> | ->]; [by left|]. right. by apply Hdirect.
    + intros [He|Hd]; [left; congruence|].
      apply Hdirect in Hd. right. congruence.
  - assert (∀ r, ¬ first_direct r) as Hno_direct.
    { intros r Hr. destruct (Hboth r Hr) as [e He].
      apply Hdirect in Hr. unfold calculateRoutes_try in Hthrows.
      rewrite He, Hr in Hthrows.
      change (js_sort compareRoutes [Some e; Some r] = None) in Hthrows.
      by rewrite sort_two_routes in Hthrows. }
    destruct ex as [e|].
    + split; [simpl; lia|]. intros r. rewrite list_elem_of_singleton. split.
      * intros [= ->]. by left.
      * intros [He|Hd]; [congruence|]. by apply Hno_direct in Hd.
    + split; [simpl; lia|]. intros r. split.
      * intros Hr. by apply not_elem_of_nil in Hr.
      * intros [He|Hd]; [congruence|]. by apply Hno_direct in Hd.
Qed.

Lemma calculateRoutes_example_and_first_direct_witness :
  ∃ rs,
    calculateRoutes meridianDistance crossOrigin crossDestination crossCatalog = Some rs
    ∧ (length rs ≤ 2)%nat
    ∧ (∀ r, Some r ∈ rs → transferencias r = 0 ∧ length (segmentos r) = 1%nat)
    ∧ ∀ r, Some r ∈ rs ↔
        createExampleRoute meridianDistance crossOrigin crossDestination crossCatalog
          = Some (Some r)
        ∨ ∃ os no ds nd line0 ls,
            findNearbyStops meridianDistance (loc_coordinates crossOrigin) crossCatalog 3000 10
              = Some (os :: no)
            ∧ findNearbyStops meridianDistance (loc_coordinates crossDestination) crossCatalog
                3000 10 = Some (ds :: nd)
            ∧ findConnectingLines os ds = Some (line0 :: ls)
            ∧ buildDirectRoute meridianDistance crossOrigin crossDestination os ds line0
              = Some r.
Proof.
  eexists. split; [by vm_compute|].
  apply (calculateRoutes_example_and_first_direct meridianDistance
           crossOrigin crossDestination crossCatalog).
  by vm_compute.
Defined.

(** C4 (as stated, refuted): in the "tie" scenario the example route and the
    direct route both take 48 minutes and the direct route is the shorter of
    the two, yet the example route comes first in the returned list. *)
Lemma calculateRoutes_tie_ignores_distance :
  ∃ ex dr,
    calculateRoutes meridianDistance tieOrigin tieDestination tieCatalog
      = Some [Some ex; Some dr]
    ∧ createExampleRoute meridianDistance tieOrigin tieDestination tieCatalog
      = Some (Some ex)
    ∧ calculateDirectRoute meridianDistance tieOrigin tieDestination tieCatalog
      = Some (Some dr)
    ∧ tempo_total ex = 48 ∧ tempo_total dr = 48
    ∧ (distancia_total dr < distancia_total ex)%Q.
Proof.
  do 2 eexists. split; [by vm_compute|]. split; [by vm_compute|].
  split; [by vm_compute|]. split; [reflexivity|]. split; [reflexivity|].
  by vm_compute.
Qed.

(** C4 (amended): the list returned by [calculateRoutes] is sorted by
    [tempo_total] alone, ascending and stable: of two neighbouring routes the
    first has the smaller or equal [tempo_total], and when the example route
    and the direct route have equal [tempo_total] they stay in the order in
    which they were collected (example route first), whatever their
    [distancia_total] and [transferencias]. *)
Theorem calculateRoutes_sorted_by_time (haversine : coord → coord → Q)
    (originLocation destinationLocation : Location) (busStops : list Stop)
    (rs : list (option Route)) :
  calculateRoutes haversine originLocation destinationLocation busStops = Some rs →
  (∀ (i : nat) a b, rs !! i = Some (Some a) → rs !! S i = Some (Some b) →
     tempo_total a ≤ tempo_total b)
  ∧ (∀ ex dr,
       createExampleRoute haversine originLocation destinationLocation busStops
         = Some (Some ex) →
       calculateDirectRoute haversine originLocation destinationLocation busStops
         = Some (Some dr) →
       tempo_total ex = tempo_total dr →
       rs = [Some ex; Some dr]).
Proof.
  intros Hrs. apply calculateRoutes_shape in Hrs as (ex & Hex & Hshape).
  destruct Hshape as [Hd ->|e dr -> Hdr ->|Htry ->].
  - split; [by intros [|[|i]] a b|]. intros e dr _ Hdr. congruence.
  - split.
    + intros [|[|i]] a b; case_decide; simpl; intros [= <-] [= <-] || done; lia.
    + intros e' dr' He' Hdr' Heq.
      assert (e' = e) as -> by congruence. assert (dr' = dr) as -> by congruence.
      case_decide; [lia|done].
  - split; [destruct ex; by intros [|[|i]] a b|].
    intros e dr He Hdr Heq. exfalso.
    unfold calculateRoutes_try in Htry. rewrite He, Hdr in Htry.
    cbv zeta in Htry. cbn [mbind option_bind] in Htry.
    change ([Some e] ++ [Some dr]) with [Some e; Some dr] in Htry.
    by rewrite sort_two_routes in Htry.
Qed.

Lemma calculateRoutes_sorted_by_time_witness :
  ∃ rs,
    calculateRoutes meridianDistance tieOrigin tieDestination tieCatalog = Some rs
    ∧ (∀ (i : nat) a b, rs !! i = Some (Some a) → rs !! S i = Some (Some b) →
         tempo_total a ≤ tempo_total b)
    ∧ (∀ ex dr,
         createExampleRoute meridianDistance tieOrigin tieDestination tieCatalog
           = Some (Some ex) →
         calculateDirectRoute meridianDistance tieOrigin tieDestination tieCatalog
           = Some (Some dr) →
         tempo_total ex = tempo_total dr →
         rs = [Some ex; Some dr]).
Proof.
  eexists. split; [by vm_compute|].
  apply (calculateRoutes_sorted_by_time meridianDistance
           tieOrigin tieDestination tieCatalog).
  by vm_compute.
Defined.

(** ** The example route *)

(** C7: for two locations with coordinates at distance [d], the route of
    [createExampleRoute] has one segment whose time is max(25, n), where [n]
    is d / 300 rounded to the nearest integer (n - 1/2 <= d / 300 < n + 1/2,
    a half going up); walks of 8 and 5 minutes (400 m and 200 m) are
    recorded on the segment; its [tempo_total] is 8 + max(25, n) + 5 + 10 and
    its [distancia_total] is d + 600; the result is the same for every
    catalog; and at d = 0 the segment time is 25. *)
Theorem createExampleRoute_formula (haversine : coord → coord → Q)
    (originLocation destinationLocation : Location) (busStops : list Stop)
    (co cd : coord) :
  loc_coordinates originLocation = Some co →
  loc_coordinates destinationLocation = Some cd →
  ∃ r s (n : Z),
    createExampleRoute haversine originLocation destinationLocation busStops
      = Some (Some r)
    ∧ segmentos r = [s]
    ∧ (inject_Z n - (1 # 2) <= haversine co cd / 300)%Q
    ∧ (haversine co cd / 300 < inject_Z n + (1 # 2))%Q
    ∧ tempo s = Z.max 25 n
    ∧ caminhadaInicial s = Some {| w_distancia := 400; w_tempo := 8 |}
    ∧ caminhadaFinal s = Some {| w_distancia := 200; w_tempo := 5 |}
    ∧ tempo_total r = 8 + Z.max 25 n + 5 + 10
    ∧ distancia_total r = (haversine co cd + 600)%Q
    ∧ (∀ busStops',
         createExampleRoute haversine originLocation destinationLocation busStops'
         = Some (Some r))
    ∧ ((haversine co cd == 0)%Q → tempo s = 25 ∧ tempo_total r = 48).
Proof.
  intros Ho Hd.
  pose proof (Qfloor_le (haversine co cd / 300 + (1 # 2))) as Hle.
  pose proof (Qlt_floor (haversine co cd / 300 + (1 # 2))) as Hlt.
  rewrite inject_Z_plus in Hlt.
  fold (Math_round (haversine co cd / 300)) in Hle, Hlt.
  unfold createExampleRoute. rewrite Ho, Hd. simpl.
  eexists _, _, (Math_round (haversine co cd / 300)).
  split; [reflexivity|]. split; [reflexivity|].
  split; [|split]; [| |simpl; do 6 (split; [reflexivity|])].
  - set (q := inject_Z _) in *. clearbody q.
    set (x := (haversine co cd / 300)%Q) in *. clearbody x. lra.
  - set (q := inject_Z _) in *. clearbody q.
    set (x := (haversine co cd / 300)%Q) in *. clearbody x.
    change (inject_Z 1) with 1%Q in Hlt. lra.
  - intros Hz. assert (Math_round (haversine co cd / 300) = 0) as ->; [|done].
    unfold Math_round. rewrite Hz. reflexivity.
Qed.

Lemma createExampleRoute_formula_witness :
  ∃ r s (n : Z),
    createExampleRoute meridianDistance tieOrigin longRideDestination tieCatalog
      = Some (Some r)
    ∧ segmentos r = [s]
    ∧ (inject_Z n - (1 # 2)
       <= meridianDistance (onMeridian (-158000 # 10000))
                           (onMeridian (-157190 # 10000)) / 300)%Q
    ∧ (meridianDistance (onMeridian (-158000 # 10000))
                        (onMeridian (-157190 # 10000)) / 300
       < inject_Z n + (1 # 2))%Q
    ∧ tempo s = Z.max 25 n
    ∧ caminhadaInicial s = Some {| w_distancia := 400; w_tempo := 8 |}
    ∧ caminhadaFinal s = Some {| w_distancia := 200; w_tempo := 5 |}
    ∧ tempo_total r = 8 + Z.max 25 n + 5 + 10
    ∧ distancia_total r
      = (meridianDistance (onMeridian (-158000 # 10000))
                          (onMeridian (-157190 # 10000)) + 600)%Q
    ∧ (∀ busStops',
         createExampleRoute meridianDistance tieOrigin longRideDestination busStops'
         = Some (Some r))
    ∧ ((meridianDistance (onMeridian (-158000 # 10000))
                         (onMeridian (-157190 # 10000)) == 0)%Q
       → tempo s = 25 ∧ tempo_total r = 48).
Proof.
  apply (createExampleRoute_formula meridianDistance tieOrigin longRideDestination
           tieCatalog);
    reflexivity.
Defined.

(** The formula at work: nine kilometres (9006.795 m) give a ride of
    round(30.02) = 30 minutes and 53 minutes in all; six kilometres
    (6004.53 m, round(20.02) = 20) and no distance at all give the floor of
    25 minutes and 48 minutes in all. *)
Example createExampleRoute_rides :
  (∃ r, createExampleRoute meridianDistance tieOrigin longRideDestination []
          = Some (Some r)
        ∧ tempo <$> segmentos r = [30] ∧ tempo_total r = 53
        ∧ (distancia_total r == 1921359 # 200)%Q)
  ∧ (∃ r, createExampleRoute meridianDistance tieOrigin tieDestination []
            = Some (Some r)
          ∧ tempo <$> segmentos r = [25] ∧ tempo_total r = 48)
  ∧ (∃ r, createExampleRoute meridianDistance tieOrigin tieOrigin []
            = Some (Some r)
          ∧ tempo <$> segmentos r = [25] ∧ tempo_total r = 48
          ∧ (distancia_total r == 600)%Q).
Proof.
  split; [|split]; eexists; (split; [by vm_compute|]); repeat split; by vm_compute.
Qed.

(** C10 (the code at the failing input): with an empty catalog nothing in the
    [try] block throws, so for an origin without [coordinates] the list
    returned holds the [null] that [createExampleRoute] returned. *)
Theorem calculateRoutes_returns_null_entry (haversine : coord → coord → Q)
    (name : string) (destinationLocation : Location) :
  calculateRoutes haversine {| loc_name := name; loc_coordinates := None |}
    destinationLocation [] = Some [None].
Proof. reflexivity. Qed.

(** ** Totals of a route *)

(** C5 (as stated, refuted): in the "short walk" scenario the origin stop is
    44 m from the origin; the direct route counts one minute and 44 m for that
    walk in its totals, but records no initial walk on its segment, so the
    totals are not the sums over the segment plus the 12-minute wait. *)
Lemma direct_route_totals_exceed_segments :
  ∃ r sd,
    calculateDirectRoute meridianDistance tieOrigin tieDestination shortWalkCatalog
      = Some (Some r)
    ∧ (∃ s, segmentos r = [s] ∧ caminhadaInicial s = None)
    ∧ fixedOverhead r = 12
    ∧ tempo_total r = 36 ∧ segments_time r + fixedOverhead r = 35
    ∧ segments_distance meridianDistance r = Some sd
    ∧ ¬ (distancia_total r == sd)%Q.
Proof.
  do 2 eexists. split; [by vm_compute|]. split; [by eexists|].
  do 3 (split; [reflexivity|]). split; [by vm_compute|]. by vm_compute.
Qed.

(** C5 (amended): for every route that [calculateDirectRoute],
    [calculateRouteWithTransfer] or [createExampleRoute] returns,
    [tempo_total] is the minutes recorded on the segments (rides and recorded
    walks) plus the fixed overhead of the builder plus the walking time of the
    walk legs that are not recorded, and [distancia_total] is the metres of
    the segments plus the metres of the unrecorded walk legs.  A walk leg is
    unrecorded only when it is at most 50 m long; when every walk leg is
    recorded the totals are the segment sums plus the overhead. *)
Theorem route_totals (haversine : coord → coord → Q)
    (originLocation destinationLocation : Location) (busStops : list Stop)
    (r : Route) :
  calculateDirectRoute haversine originLocation destinationLocation busStops
    = Some (Some r)
  ∨ calculateRouteWithTransfer haversine originLocation destinationLocation busStops
    = Some (Some r)
  ∨ createExampleRoute haversine originLocation destinationLocation busStops
    = Some (Some r) →
  tempo_total r = segments_time r + fixedOverhead r + unrecorded_walk_time r
  ∧ (∃ sd, segments_distance haversine r = Some sd
           ∧ (distancia_total r == sd + unrecorded_walk_distance r)%Q)
  ∧ Forall (λ n, (distance n <= 50)%Q) (unrecorded_walks r)
  ∧ (unrecorded_walks r = [] →
       tempo_total r = segments_time r + fixedOverhead r
       ∧ ∃ sd, segments_distance haversine r = Some sd
               ∧ (distancia_total r == sd)%Q).
Proof.
  intros Hbuilt.
  assert (tempo_total r = segments_time r + fixedOverhead r + unrecorded_walk_time r
          ∧ (∃ sd, segments_distance haversine r = Some sd
                   ∧ (distancia_total r == sd + unrecorded_walk_distance r)%Q)
          ∧ Forall (λ n, (distance n <= 50)%Q) (unrecorded_walks r)) as (Ht & Hd & Hw).
  { destruct Hbuilt as [H|[H|H]].
    - unfold calculateDirectRoute in H.
      apply bind_Some in H as (no' & _ & H). apply bind_Some in H as (nd' & _ & H).
      apply directOuter_Some in H as (os & no & ds & nd & line0 & ls & _ & _ & _ & H).
      by apply buildDirectRoute_totals in H.
    - unfold calculateRouteWithTransfer in H.
      apply bind_Some in H as (no' & _ & H). apply bind_Some in H as (nd' & _ & H).
      apply bind_Some in H as (ts & _ & H).
      apply transferOuter_Some in H as (os & ds & t & f0 & s0 & _ & _ & _ & H).
      by apply buildTransferRoute_totals in H.
    - by apply createExampleRoute_totals in H. }
  split; [done|]. split; [done|]. split; [done|].
  intros Hnil. unfold unrecorded_walk_time in Ht.
  unfold unrecorded_walk_distance in Hd. rewrite Hnil in Ht, Hd. simpl in Ht, Hd.
  split; [lia|]. destruct Hd as (sd & Hsd & Heq). exists sd. split; [done|].
  rewrite Heq. ring.
Qed.

Lemma route_totals_witness :
  ∃ r,
    calculateDirectRoute meridianDistance tieOrigin tieDestination shortWalkCatalog
      = Some (Some r)
    ∧ tempo_total r = segments_time r + fixedOverhead r + unrecorded_walk_time r
    ∧ (∃ sd, segments_distance meridianDistance r = Some sd
             ∧ (distancia_total r == sd + unrecorded_walk_distance r)%Q)
    ∧ Forall (λ n, (distance n <= 50)%Q) (unrecorded_walks r)
    ∧ (unrecorded_walks r = [] →
         tempo_total r = segments_time r + fixedOverhead r
         ∧ ∃ sd, segments_distance meridianDistance r = Some sd
                 ∧ (distancia_total r == sd)%Q).
Proof.
  eexists. split; [by vm_compute|].
  apply (route_totals meridianDistance tieOrigin tieDestination shortWalkCatalog).
  left. by vm_compute.
Defined.

(** ** Nearby stops *)

(** C8 (as stated, refuted): both stops of the "cross" scenario lie within
    3000 m of the origin, and with a limit of -1 [findNearbyStops] returns
    one of them, which is more than the limit ([slice(0, -1)] drops the last
    entry); and on a catalog whose only entry has no coordinates, where no
    stop qualifies, the call throws instead of returning the empty list. *)
Lemma findNearbyStops_negative_limit_missing_coordinates :
  (∃ res,
     findNearbyStops meridianDistance (loc_coordinates crossOrigin) crossCatalog
       3000 (-1) = Some res
     ∧ (λ n : NearbyStop, stop_id n) <$> res = ["cross-a"%string]
     ∧ ¬ Z.of_nat (length res) ≤ -1)
  ∧ findNearbyStops meridianDistance (loc_coordinates crossOrigin) [unlocatedStop]
      3000 10 = None.
Proof.
  split; [|by vm_compute].
  eexists. split; [by vm_compute|]. split; [reflexivity|]. simpl. lia.
Qed.

(** C8 (amended): for a point and a catalog whose stops all have coordinates,
    [findNearbyStops] returns without throwing, for every maximal distance
    and limit.  The stops it returns are copies of distinct catalog entries,
    each annotated with its distance to the point, and none is farther than
    the maximal distance; they are in ascending order of distance; and the
    result is the empty list when no stop is within the maximal distance.
    For a limit that is not negative there are at most [limit] of them, and a
    catalog stop within the maximal distance is left out only when the result
    is full and holds no stop farther than it. *)
Theorem findNearbyStops_nearest (haversine : coord → coord → Q) (point : coord)
    (busStops : list Stop) (maxDistance : Q) (limit : Z) :
  (∀ s, s ∈ busStops → is_Some (coordinates s)) →
  ∃ res,
    findNearbyStops haversine (Some point) busStops maxDistance limit = Some res
    ∧ ns_stop <$> res ⊆+ busStops
    ∧ (∀ n : NearbyStop, n ∈ res →
         ∃ c, coordinates n = Some c ∧ distance n = haversine point c
              ∧ (distance n <= maxDistance)%Q)
    ∧ StronglySorted nearer res
    ∧ ((∀ s c, s ∈ busStops → coordinates s = Some c →
          ¬ (haversine point c <= maxDistance)%Q) →
       res = [])
    ∧ (0 ≤ limit →
       (length res ≤ Z.to_nat limit)%nat
       ∧ ∀ s c, s ∈ busStops → coordinates s = Some c →
           (haversine point c <= maxDistance)%Q →
           mkNearby s (haversine point c) ∈ res
           ∨ (length res = Z.to_nat limit
              ∧ ∀ n : NearbyStop, n ∈ res → (distance n <= haversine point c)%Q)).
Proof.
  intros Hcoords.
  destruct (findNearbyStops_sorted_prefix haversine point busStops maxDistance limit
              Hcoords) as (sorted & k & Hres & Hk & Hperm & Hsorted).
  set (within := λ stop : NearbyStop, Qle_bool (distance stop) maxDistance) in *.
  exists (take k sorted). split; [done|].
  assert (∀ n : NearbyStop, n ∈ sorted ↔
               ∃ s, s ∈ busStops ∧ n = annotate haversine point s
                    ∧ (distance n <= maxDistance)%Q) as Hmem.
  { intros n. rewrite Hperm, elem_of_List_filter, list_elem_of_fmap.
    unfold within. rewrite Qle_bool_iff. split.
    - intros [(s & -> & Hs) Hle]. by exists s.
    - intros (s & Hs & -> & Hle). split; [by exists s|done]. }
  assert (∀ n : NearbyStop, n ∈ take k sorted →
            ∃ c, coordinates n = Some c ∧ distance n = haversine point c
                 ∧ (distance n <= maxDistance)%Q) as Hsound.
  { intros n Hn. eapply elem_of_submseteq in Hn;
      [|apply sublist_submseteq, sublist_take].
    apply Hmem in Hn as (s & Hs & -> & Hle).
    destruct (Hcoords s Hs) as [c Hc]. exists c.
    unfold annotate in *. simpl in *. by rewrite Hc in *. }
  split; [|split; [done|]]; [|split; [|split]].
  - transitivity (ns_stop <$> sorted).
    { apply fmap_submseteq, sublist_submseteq, sublist_take. }
    rewrite Hperm.
    transitivity (ns_stop <$> (annotate haversine point <$> busStops)).
    { apply fmap_submseteq, sublist_submseteq, List_filter_sublist. }
    by rewrite fmap_ns_stop_annotate.
  - rewrite <- (take_drop k sorted) in Hsorted.
    by apply StronglySorted_app_1_l in Hsorted.
  - intros Hnone. destruct (take k sorted) as [|n l] eqn:Htake; [done|]. exfalso.
    destruct (Hsound n) as (c & Hc & Hd & Hle); [by left|].
    assert (n ∈ sorted) as Hn.
    { eapply elem_of_submseteq; [|apply sublist_submseteq, (sublist_take _ k)].
      rewrite Htake. by left. }
    apply Hmem in Hn as (s & Hs & -> & _).
    apply (Hnone s c Hs Hc). by rewrite <- Hd.
  - intros Hlimit. rewrite (Hk Hlimit) in *. clear Hk.
    set (k' := Z.to_nat limit) in *. split; [rewrite length_take; lia|].
    intros s c Hs Hc Hle.
    assert (mkNearby s (haversine point c) ∈ sorted) as Hin.
    { apply Hmem. exists s. split; [done|]. unfold annotate. by rewrite Hc. }
    rewrite <- (take_drop k' sorted) in Hin, Hsorted.
    apply elem_of_app in Hin as [Hin|Hin]; [by left|right]. split.
    + apply length_take_le.
      destruct (decide (k' ≤ length sorted)%nat) as [|Hgt]; [done|].
      rewrite drop_ge in Hin by lia. by apply not_elem_of_nil in Hin.
    + intros n Hn.
      by apply (StronglySorted_app_1_elem_of nearer _ _ n _ Hsorted Hn Hin).
Qed.

Lemma findNearbyStops_nearest_witness :
  ∃ res,
    findNearbyStops meridianDistance (Some (onMeridian (-158000 # 10000)))
      crossCatalog 500 1 = Some res
    ∧ ns_stop <$> res ⊆+ crossCatalog
    ∧ (∀ n : NearbyStop, n ∈ res →
         ∃ c, coordinates n = Some c
              ∧ distance n = meridianDistance (onMeridian (-158000 # 10000)) c
              ∧ (distance n <= 500)%Q)
    ∧ StronglySorted nearer res
    ∧ ((∀ s c, s ∈ crossCatalog → coordinates s = Some c →
          ¬ (meridianDistance (onMeridian (-158000 # 10000)) c <= 500)%Q) →
       res = [])
    ∧ (0 ≤ 1 →
       (length res ≤ Z.to_nat 1)%nat
       ∧ ∀ s c, s ∈ crossCatalog → coordinates s = Some c →
           (meridianDistance (onMeridian (-158000 # 10000)) c <= 500)%Q →
           mkNearby s (meridianDistance (onMeridian (-158000 # 10000)) c) ∈ res
           ∨ (length res = Z.to_nat 1
              ∧ ∀ n : NearbyStop, n ∈ res →
                  (distance n <= meridianDistance (onMeridian (-158000 # 10000)) c)%Q)).
Proof.
  apply (findNearbyStops_nearest meridianDistance (onMeridian (-158000 # 10000))
           crossCatalog 500 1).
  intros s Hs. apply list_elem_of_In in Hs. simpl in Hs.
  destruct Hs as [<-|[<-|[]]]; by eexists.
Defined.

(** The function at work in the "cross" scenario: of the two stops within
    3000 m of the origin the nearer comes first, a limit of 1 keeps only
    that one, and no stop is within 100 m. *)
Example findNearbyStops_cross :
  option_map (map (λ n : NearbyStop, stop_id n))
      (findNearbyStops meridianDistance (loc_coordinates crossOrigin)
                       crossCatalog 3000 10)
    = Some ["cross-a"; "cross-b"]%string
  ∧ option_map (map (λ n : NearbyStop, stop_id n))
      (findNearbyStops meridianDistance (loc_coordinates crossDestination)
                         crossCatalog 3000 10)
    = Some ["cross-b"; "cross-a"]%string
  ∧ option_map (map (λ n : NearbyStop, stop_id n))
      (findNearbyStops meridianDistance (loc_coordinates crossOrigin)
                         crossCatalog 3000 1)
    = Some ["cross-a"]%string
  ∧ findNearbyStops meridianDistance (loc_coordinates crossOrigin) crossCatalog 100 10
    = Some [].
Proof. repeat split; by vm_compute. Qed.

(** ** The catalog is left as it was *)

(** C9: run on any heap, [calculateRoutes], [calculateDirectRoute],
    [calculateRouteWithTransfer], [createExampleRoute], [findNearbyStops] and
    [findConnectingLines] leave every cell of that heap as it was, whether
    they return or throw: no stop object is written and the catalog array
    keeps its elements and their order.  When the heap holds a catalog,
    [findNearbyStops] returns a new array whose elements are new stop objects
    carrying the distance annotation, [calculateRoutes] returns a new array
    holding the routes that the function on values computes, and the two
    builders end as the functions on values do. *)
Theorem catalog_unchanged (haversine : coord → coord → Q) (h : Store.heap)
    (originLocation destinationLocation : Location) (busStops : Store.loc)
    (point : option coord) (maxDistance : Q) (limit : Z)
    (originStop destinationStop : Store.loc) :
  Store.unchanged h
    (Store.calculateRoutes haversine originLocation destinationLocation busStops h).2
  ∧ Store.unchanged h
      (Store.calculateDirectRoute haversine originLocation destinationLocation busStops h).2
  ∧ Store.unchanged h
      (Store.calculateRouteWithTransfer haversine originLocation destinationLocation
         busStops h).2
  ∧ Store.unchanged h
      (Store.createExampleRoute haversine originLocation destinationLocation busStops h).2
  ∧ Store.unchanged h
      (Store.findNearbyStops haversine point busStops maxDistance limit h).2
  ∧ Store.unchanged h (Store.findConnectingLines originStop destinationStop h).2
  ∧ ∀ stops, Store.holds_catalog h busStops stops →
      (∀ ns, findNearbyStops haversine point stops maxDistance limit = Some ns →
         ∃ r, (Store.findNearbyStops haversine point busStops maxDistance limit h).1
                = Store.Ok r
              ∧ (r ∉ dom h)
              ∧ Store.holds_nearby h
                  (Store.findNearbyStops haversine point busStops maxDistance limit h).2
                  r ns)
      ∧ (∃ r rs,
          (Store.calculateRoutes haversine originLocation destinationLocation busStops h).1
            = Store.Ok r
          ∧ (r ∉ dom h)
          ∧ (Store.calculateRoutes haversine originLocation destinationLocation
               busStops h).2 !! r = Some (Store.ORoutes rs)
          ∧ calculateRoutes haversine originLocation destinationLocation stops = Some rs)
      ∧ (Store.calculateDirectRoute haversine originLocation destinationLocation
           busStops h).1
        = Store.outcome_of
            (calculateDirectRoute haversine originLocation destinationLocation stops)
      ∧ (Store.calculateRouteWithTransfer haversine originLocation destinationLocation
           busStops h).1
        = Store.outcome_of
            (calculateRouteWithTransfer haversine originLocation destinationLocation
               stops).
Proof.
  assert (∀ h' : Store.heap, h ⊆ h' → Store.unchanged h h') as Hunchanged.
  { intros h' Hsub l o Hl. by eapply lookup_weaken. }
  split; [apply Hunchanged, (calculateRoutes_preserves haversine h); done|].
  split; [apply Hunchanged, (calculateDirectRoute_preserves haversine h); done|].
  split; [apply Hunchanged, (calculateRouteWithTransfer_preserves haversine h); done|].
  split; [apply Hunchanged, (createExampleRoute_preserves haversine h); done|].
  split; [apply Hunchanged, (findNearbyStops_preserves haversine h); done|].
  split; [apply Hunchanged, (findConnectingLines_preserves h); done|].
  intros stops Hcat. split; [|split; [|split]].
  - intros ns Hns.
    destruct (findNearbyStops_run haversine point busStops stops maxDistance limit h Hcat)
      as (h' & _ & Hrun).
    rewrite Hns in Hrun. destruct Hrun as (r & Hrun & Hfresh & Hnear).
    exists r. rewrite Hrun. by simpl.
  - destruct (calculateRoutes_run haversine originLocation destinationLocation
                h busStops stops Hcat) as (h' & r & rs & Hrun & _ & Hfresh & Hr & Hpure).
    exists r, rs. rewrite Hrun. by simpl.
  - destruct (calculateDirectRoute_run haversine originLocation destinationLocation
                h busStops stops Hcat) as (h' & _ & Hrun).
    by rewrite Hrun.
  - destruct (calculateRouteWithTransfer_run haversine originLocation destinationLocation
                h busStops stops Hcat) as (h' & _ & Hrun).
    by rewrite Hrun.
Qed.

(** The "cross" scenario on a heap: the run returns the array at 4, which
    holds the two routes; the catalog array at 3 and the stop objects at 1
    and 2 are as before, and the array that was sorted in place is the new
    one at 13. *)
Example calculateRoutes_on_crossHeap :
  Store.holds_catalog crossHeap 3%positive crossCatalog
  ∧ ∃ h' rs,
      Store.calculateRoutes meridianDistance crossOrigin crossDestination
        3%positive crossHeap = (Store.Ok 4%positive, h')
      ∧ h' !! 4%positive = Some (Store.ORoutes rs)
      ∧ calculateRoutes meridianDistance crossOrigin crossDestination crossCatalog
        = Some rs
      ∧ h' !! 3%positive = Some (Store.OStops [1%positive; 2%positive])
      ∧ h' !! 1%positive = Some (Store.OStop crossA None)
      ∧ h' !! 2%positive = Some (Store.OStop crossB None)
      ∧ h' !! 12%positive = Some (Store.OStops [10%positive; 11%positive])
      ∧ h' !! 13%positive = Some (Store.OStops [11%positive; 10%positive]).
Proof.
  split.
  - exists [1%positive; 2%positive]. split; [reflexivity|].
    repeat constructor; by exists None.
  - do 2 eexists. split; [by vm_compute|]. repeat split; by vm_compute.
Qed.

(** * Further properties of the route service and of its callers *)

(** ** Nearby stops: when the search throws, and what a result is made of *)

Lemma calculateDistance_None haversine (point c : option coord) :
  calculateDistance haversine point c = None ↔ point = None ∨ c = None.
Proof.
  unfold calculateDistance. destruct point, c; simpl;
    (split; [intros H; first [discriminate H | by left | by right]
            |intros [H|H]; first [discriminate H | reflexivity]]).
Qed.

Lemma byDistance_total (l : list NearbyStop) :
  is_Some (js_sort (λ a b : NearbyStop, Some (distance a - distance b ?= 0)%Q) l).
Proof. apply js_sort_total. by eexists. Qed.

Lemma findNearbyStops_None haversine point busStops maxDistance limit :
  findNearbyStops haversine point busStops maxDistance limit = None
  ↔ ∃ s, s ∈ busStops ∧ (point = None ∨ coordinates s = None).
Proof.
  unfold findNearbyStops.
  destruct (mapM _ busStops) as [mapped|] eqn:Hm; simpl.
  - destruct (byDistance_total
                (List.filter (λ stop : NearbyStop, Qle_bool (distance stop) maxDistance)
                   mapped)) as [sorted ->]. simpl.
    split; [done|]. intros (s & Hs & Hnone). exfalso.
    assert (is_Some (mapM (λ stop : Stop,
                             d ← calculateDistance haversine point (coordinates stop);
                             Some (mkNearby stop d)) busStops)) as Hsome
      by (rewrite Hm; by eexists).
    apply mapM_is_Some_1 in Hsome. rewrite Forall_forall in Hsome.
    destruct (Hsome s Hs) as [n Hn]. simpl in Hn.
    pose proof (proj2 (calculateDistance_None haversine _ _) Hnone) as Hd.
    by rewrite Hd in Hn.
  - split; [|done]. intros _. apply mapM_None_1, Exists_exists in Hm as (s & Hs & Hnone).
    exists s. split; [done|].
    apply (calculateDistance_None haversine).
    by destruct (calculateDistance haversine point (coordinates s)).
Qed.

Section nearby_results.
Context (haversine : coord → coord → Q).
Context (busStops : list Stop) (maxDistance : Q) (limit : Z).

Local Abbreviation within :=
  (λ stop : NearbyStop, Qle_bool (distance stop) maxDistance).

(** A search that returns has either nothing to search in, or a point to
    search from and coordinates on every catalog entry. *)
Lemma findNearbyStops_Some point res :
  findNearbyStops haversine point busStops maxDistance limit = Some res →
  (busStops = [] ∧ res = [])
  ∨ ∃ p, point = Some p ∧ ∀ s, s ∈ busStops → is_Some (coordinates s).
Proof.
  intros Hres. destruct busStops as [|s0 l] eqn:Hstops.
  - left. split; [done|]. unfold findNearbyStops in Hres. simpl in Hres.
    injection Hres as <-. unfold js_slice0. destruct (limit <? 0); by rewrite take_nil.
  - right. rewrite <- Hstops in *.
    assert (∀ s, s ∈ busStops → point ≠ None ∧ coordinates s ≠ None) as Hall.
    { intros s Hs. split; intros Hnone;
        (assert (findNearbyStops haversine point busStops maxDistance limit = None)
           as Hthrow by (apply findNearbyStops_None; exists s; auto));
        by rewrite Hthrow in Hres. }
    destruct point as [p|].
    + exists p. split; [done|]. intros s Hs.
      destruct (Hall s Hs) as [_ Hc]. by destruct (coordinates s); [eexists|].
    + destruct (Hall s0) as [Hp _]; [rewrite Hstops; by left|done].
Qed.

Lemma findNearbyStops_elem point res (n : NearbyStop) :
  findNearbyStops haversine point busStops maxDistance limit = Some res →
  n ∈ res →
  ∃ p s c, point = Some p ∧ s ∈ busStops ∧ coordinates s = Some c
           ∧ n = mkNearby s (haversine p c)
           ∧ (haversine p c <= maxDistance)%Q.
Proof.
  intros Hres Hn. destruct (findNearbyStops_Some _ _ Hres) as [[_ ->]|(p & -> & Hcoords)].
  { by apply not_elem_of_nil in Hn. }
  destruct (findNearbyStops_sorted_prefix haversine p busStops maxDistance limit Hcoords)
    as (sorted & k & Hres' & _ & Hperm & _).
  rewrite Hres in Hres'. injection Hres' as ->.
  eapply elem_of_submseteq in Hn; [|apply sublist_submseteq, sublist_take].
  rewrite Hperm in Hn. apply elem_of_List_filter in Hn as [Hn Hle].
  apply list_elem_of_fmap in Hn as (s & -> & Hs).
  destruct (Hcoords s Hs) as [c Hc]. exists p, s, c.
  unfold annotate in *. rewrite Hc in *. simpl in *.
  apply Qle_bool_iff in Hle. done.
Qed.

(** The first stop of a result is nearer to the point than every entry of
    the catalog, whatever the maximal distance and the limit are. *)
Lemma findNearbyStops_head point (n : NearbyStop) rest :
  findNearbyStops haversine point busStops maxDistance limit = Some (n :: rest) →
  ∃ p, point = Some p ∧ nearest haversine p busStops n
       ∧ (distance n <= maxDistance)%Q.
Proof.
  intros Hres.
  destruct (findNearbyStops_elem _ _ n Hres) as (p & s & c & -> & Hs & Hc & -> & Hle);
    [by left|].
  exists p. split; [done|]. split; [|done].
  split; [done|]. split; [by exists c|]. simpl.
  intros s' c' Hs' Hc'.
  destruct (findNearbyStops_Some _ _ Hres) as [[_ [=]]|(p' & [= <-] & Hcoords)].
  destruct (findNearbyStops_sorted_prefix haversine p busStops maxDistance limit Hcoords)
    as (sorted & k & Hres' & _ & Hperm & Hsorted).
  rewrite Hres in Hres'. injection Hres' as Htake.
  destruct (Qlt_le_dec maxDistance (haversine p c')) as [Hfar|Hnear]; [lra|].
  assert (mkNearby s' (haversine p c') ∈ sorted) as Hin.
  { rewrite Hperm. apply elem_of_List_filter. split.
    - apply list_elem_of_fmap. exists s'. split; [|done].
      unfold annotate. by rewrite Hc'.
    - by apply Qle_bool_iff. }
  destruct sorted as [|m sorted']; [by apply not_elem_of_nil in Hin|].
  destruct k as [|k]; [done|]. simpl in Htake. injection Htake as Hm _. subst m.
  apply StronglySorted_inv in Hsorted as [_ Hfirst].
  apply elem_of_cons in Hin as [Heq|Hin].
  - injection Heq as _ Heq. simpl. rewrite Heq. apply Qle_refl.
  - rewrite Forall_forall in Hfirst. apply (Hfirst _ Hin).
Qed.

(** No stop within the maximal distance: the result is empty; and with a
    limit of at least one that is the only way to an empty result. *)
Lemma findNearbyStops_nil point p :
  point = Some p →
  (∀ s, s ∈ busStops → is_Some (coordinates s)) →
  0 < limit →
  findNearbyStops haversine point busStops maxDistance limit = Some []
  ↔ ¬ ∃ s, reachable haversine p maxDistance busStops s.
Proof.
  intros -> Hcoords Hlimit.
  destruct (findNearbyStops_sorted_prefix haversine p busStops maxDistance limit Hcoords)
    as (sorted & k & Hres & Hk & Hperm & _).
  rewrite Hres, (Hk ltac:(lia)). clear Hk Hres. split.
  - intros [= Htake] (s & Hs & c & Hc & Hle).
    assert (mkNearby s (haversine p c) ∈ sorted) as Hin.
    { rewrite Hperm. apply elem_of_List_filter. split.
      - apply list_elem_of_fmap. exists s. split; [|done].
        unfold annotate. by rewrite Hc.
      - by apply Qle_bool_iff. }
    destruct sorted as [|m sorted']; [by apply not_elem_of_nil in Hin|].
    destruct (Z.to_nat limit) eqn:Hl; [lia|done].
  - intros Hnone. destruct sorted as [|m sorted']; [by rewrite take_nil|].
    exfalso. apply Hnone.
    assert (m ∈ List.filter within (annotate haversine p <$> busStops)) as Hm
      by (rewrite <- Hperm; by left).
    apply elem_of_List_filter in Hm as [Hm Hle].
    apply list_elem_of_fmap in Hm as (s & -> & Hs).
    destruct (Hcoords s Hs) as [c Hc]. exists s. split; [done|]. exists c.
    split; [done|]. unfold annotate in Hle. rewrite Hc in Hle. simpl in Hle.
    by apply Qle_bool_iff in Hle.
Qed.
End nearby_results.

(** ** Sorting by distance, filtering and cutting *)

Lemma List_filter_sublist_mono {A} (P : A → bool) l1 l2 :
  sublist l1 l2 → sublist (List.filter P l1) (List.filter P l2).
Proof.
  induction 1 as [|x l1 l2 _ IH|x l1 l2 _ IH]; simpl; [constructor| |].
  - destruct (P x); [by constructor|done].
  - destruct (P x); [by constructor|done].
Qed.

Lemma List_filter_none {A} (P : A → bool) l :
  Forall (λ x, P x = false) l → List.filter P l = [].
Proof.
  induction 1 as [|x l Hx _ IH]; simpl; [done|]. by rewrite Hx.
Qed.

Lemma List_filter_filter_impl {A} (P Q : A → bool) l :
  (∀ x, P x = true → Q x = true) →
  List.filter P (List.filter Q l) = List.filter P l.
Proof.
  intros HPQ. induction l as [|x l IH]; simpl; [done|].
  destruct (Q x) eqn:HQ; simpl; rewrite IH; [done|].
  destruct (P x) eqn:HP; [|done]. apply HPQ in HP. congruence.
Qed.

Section by_distance.

Local Abbreviation byDistance :=
  (λ a b : NearbyStop, Some (distance a - distance b ?= 0)%Q).

Lemma byDistance_sorted l sorted :
  js_sort byDistance l = Some sorted → StronglySorted nearer sorted.
Proof.
  apply (js_sort_sorted byDistance nearer).
  - intros a b c [= <-] Hc. unfold nearer. apply Qle_alt in Hc. lra.
  - intros a b [= Hc]. unfold nearer. apply Qgt_alt in Hc. lra.
Qed.

Lemma sort_insert_byDistance_head x l :
  Forall (nearer x) l → sort_insert byDistance x l = Some (x :: l).
Proof.
  destruct l as [|y l]; [done|]. intros [Hxy _]%Forall_cons. simpl.
  destruct (distance x - distance y ?= 0)%Q eqn:Hc; try done.
  apply Qgt_alt in Hc. unfold nearer in Hxy. lra.
Qed.

(** Inserting into a sorted list and then filtering is filtering and then
    inserting. *)
Lemma sort_insert_filter (P : NearbyStop → bool) x l r :
  StronglySorted nearer l →
  sort_insert byDistance x l = Some r →
  (P x = true → sort_insert byDistance x (List.filter P l) = Some (List.filter P r))
  ∧ (P x = false → List.filter P r = List.filter P l).
Proof.
  revert r. induction l as [|y l IH]; intros r Hsorted Hins; simpl in Hins.
  - injection Hins as <-. simpl. split; intros ->; done.
  - apply StronglySorted_inv in Hsorted as [Hsorted Hy].
    assert ((distance x <= distance y)%Q →
            Forall (nearer x) (List.filter P (y :: l))) as Hhead.
    { intros Hxy. apply Forall_forall. intros z Hz.
      apply elem_of_List_filter in Hz as [Hz _].
      assert (nearer y z) as Hyz.
      { apply elem_of_cons in Hz as [->|Hz]; [unfold nearer; apply Qle_refl|].
        rewrite Forall_forall in Hy. by apply Hy. }
      unfold nearer in *. lra. }
    assert (List.filter P (x :: y :: l)
            = if P x then x :: List.filter P (y :: l) else List.filter P (y :: l))
      as Hcons by done.
    destruct (distance x - distance y ?= 0)%Q eqn:Hc; simpl in Hins.
    + injection Hins as <-. rewrite Hcons. apply Qeq_alt in Hc.
      split; intros ->; [|done].
      apply sort_insert_byDistance_head, Hhead. lra.
    + injection Hins as <-. rewrite Hcons. apply Qlt_alt in Hc.
      split; intros ->; [|done].
      apply sort_insert_byDistance_head, Hhead. lra.
    + destruct (sort_insert byDistance x l) as [r0|] eqn:Hins0; simpl in Hins; [|done].
      injection Hins as <-. destruct (IH r0 Hsorted eq_refl) as [IHt IHf].
      split; intros Hx; simpl; destruct (P y); simpl.
      * rewrite Hc. simpl. by rewrite (IHt Hx).
      * by apply IHt.
      * by rewrite (IHf Hx).
      * by apply IHf.
Qed.

(** Sorting commutes with filtering: the sort is stable and the order is
    total. *)
Lemma js_sort_filter (P : NearbyStop → bool) l r :
  js_sort byDistance l = Some r →
  js_sort byDistance (List.filter P l) = Some (List.filter P r).
Proof.
  revert r. induction l as [|x l IH]; intros r; simpl.
  - by intros [= <-].
  - destruct (js_sort byDistance l) as [s|] eqn:Hs; simpl; [|done].
    intros Hins.
    destruct (sort_insert_filter P x s r (byDistance_sorted _ _ Hs) Hins) as [Ht Hf].
    destruct (P x) eqn:Hx; simpl.
    + rewrite (IH s eq_refl). simpl. by apply Ht.
    + rewrite (IH s eq_refl). by rewrite Hf.
Qed.

(** In a list sorted by distance the stops within a radius are a prefix,
    and cutting the list commutes with selecting them. *)
Lemma within_take_sorted (r : Q) l k :
  StronglySorted nearer l →
  List.filter (λ n : NearbyStop, Qle_bool (distance n) r) (take k l)
  = take k (List.filter (λ n : NearbyStop, Qle_bool (distance n) r) l).
Proof.
  revert k. induction l as [|y l IH]; intros k Hsorted.
  - by destruct k.
  - apply StronglySorted_inv in Hsorted as [Hsorted Hy].
    destruct k as [|k]; [simpl; by rewrite take_0|]. simpl.
    destruct (Qle_bool (distance y) r) eqn:Hw; simpl; [by rewrite IH|].
    assert (Forall (λ n : NearbyStop, Qle_bool (distance n) r = false) l) as Hfar.
    { eapply Forall_impl; [exact Hy|]. intros z Hyz. unfold nearer in Hyz.
      destruct (Qle_bool (distance z) r) eqn:Hz; [|done].
      apply Qle_bool_iff in Hz.
      assert (distance y <= r)%Q as Hle by lra.
      apply Qle_bool_iff in Hle. congruence. }
    rewrite (List_filter_none _ l Hfar), take_nil.
    by apply List_filter_none, Forall_take.
Qed.
End by_distance.

Lemma within_prefix_sorted (r : Q) l :
  StronglySorted nearer l →
  List.filter (λ n : NearbyStop, Qle_bool (distance n) r) l `prefix_of` l.
Proof.
  induction l as [|y l IH]; intros Hsorted; [done|].
  apply StronglySorted_inv in Hsorted as [Hsorted Hy]. simpl.
  destruct (Qle_bool (distance y) r) eqn:Hw.
  - by apply (prefix_app [y]), IH.
  - rewrite List_filter_none; [apply prefix_nil|].
    eapply Forall_impl; [exact Hy|]. intros z Hyz. unfold nearer in Hyz.
    destruct (Qle_bool (distance z) r) eqn:Hz; [|done].
    apply Qle_bool_iff in Hz.
    assert (distance y <= r)%Q as Hle by lra.
    apply Qle_bool_iff in Hle. congruence.
Qed.

Lemma findNearbyStops_sorted haversine point busStops maxDistance limit res :
  findNearbyStops haversine point busStops maxDistance limit = Some res →
  StronglySorted nearer res.
Proof.
  unfold findNearbyStops. intros H.
  apply bind_Some in H as (mapped & _ & H). apply bind_Some in H as (sorted & Hs & H).
  injection H as <-. apply byDistance_sorted in Hs.
  assert (∀ k, StronglySorted nearer (take k sorted)) as Htake.
  { intros k. rewrite <- (take_drop k sorted) in Hs.
    by apply StronglySorted_app_1_l in Hs. }
  unfold js_slice0. destruct (limit <? 0); apply Htake.
Qed.

(** Searching with a smaller radius gives the stops of the wider search
    that lie within the smaller radius. *)
Lemma findNearbyStops_smaller_radius haversine point busStops (r1 r2 : Q) limit :
  (r1 <= r2)%Q → 0 ≤ limit →
  findNearbyStops haversine point busStops r1 limit
  = List.filter (λ n : NearbyStop, Qle_bool (distance n) r1)
      <$> findNearbyStops haversine point busStops r2 limit.
Proof.
  intros Hr Hlimit. unfold findNearbyStops.
  destruct (mapM _ busStops) as [mapped|]; simpl; [|done].
  rewrite <- (List_filter_filter_impl
                (λ n : NearbyStop, Qle_bool (distance n) r1)
                (λ n : NearbyStop, Qle_bool (distance n) r2) mapped).
  2: { intros n Hn. apply Qle_bool_iff in Hn. apply Qle_bool_iff. lra. }
  destruct (byDistance_total
              (List.filter (λ n : NearbyStop, Qle_bool (distance n) r2) mapped))
    as [sorted Hs].
  rewrite (js_sort_filter _ _ _ Hs), Hs. simpl. f_equal.
  unfold js_slice0. destruct (Z.ltb_spec limit 0); [lia|].
  symmetry. apply within_take_sorted. by eapply byDistance_sorted.
Qed.

(** ** Connecting lines, terminals *)

Lemma js_filter_None {A} (p : A → option bool) l :
  js_filter p l = None ↔ ∃ x, x ∈ l ∧ p x = None.
Proof.
  induction l as [|x l IH]; simpl.
  - split; [done|]. intros (x & Hx & _). by apply not_elem_of_nil in Hx.
  - destruct (p x) as [b|] eqn:Hpx; simpl.
    + destruct (js_filter p l) as [r|]; simpl.
      * split; [done|]. intros (y & Hy & Hpy).
        apply elem_of_cons in Hy as [->|Hy]; [congruence|].
        assert (Some r = None) as Hnone by (apply IH; by exists y).
        done.
      * split; [|done]. intros _.
        destruct (proj1 IH eq_refl) as (y & Hy & Hpy). exists y. split; [by right|done].
    + split; [|done]. intros _. exists x. split; [by left|done].
Qed.

Lemma findConnectingLines_Some (a b : Stop) (la lb : list string) :
  lines a = Some la → lines b = Some lb →
  findConnectingLines a b
  = Some (let commonLines := List.filter (λ line, existsb (String.eqb line) lb) la in
          if (length commonLines =? 0)%nat then ["0.999"%string] else commonLines).
Proof.
  intros Ha Hb. unfold findConnectingLines. rewrite Ha. simpl.
  rewrite (js_filter_pure _ (λ line, existsb (String.eqb line) lb)).
  2: { intros line _. by rewrite Hb. }
  simpl. by destruct (length _ =? 0)%nat.
Qed.

Lemma findConnectingLines_None (a b : Stop) :
  findConnectingLines a b = None
  ↔ lines a = None ∨ ∃ line la, lines a = Some (line :: la) ∧ lines b = None.
Proof.
  destruct (lines a) as [[|line la]|] eqn:Ha.
  - unfold findConnectingLines. rewrite Ha. simpl. split; [done|].
    intros [?|(? & ? & ? & _)]; done.
  - destruct (lines b) as [lb|] eqn:Hb.
    + rewrite (findConnectingLines_Some a b _ lb Ha Hb). split; [done|].
      intros [?|(? & ? & _ & ?)]; done.
    + split; [|intros _; unfold findConnectingLines; rewrite Ha; simpl; by rewrite Hb].
      intros _. right. by exists line, la.
  - split; [by left|]. intros _. unfold findConnectingLines. by rewrite Ha.
Qed.

(** The line a builder takes, [connectingLines[0]], is a line of both stops,
    unless they share none: then it is the placeholder. *)
Lemma findConnectingLines_head (a b : Stop) (line0 : string) (ls : list string) :
  findConnectingLines a b = Some (line0 :: ls) →
  commonLine a b line0
  ∨ (line0 = "0.999"%string ∧ ls = [] ∧ ∀ line, ¬ commonLine a b line).
Proof.
  intros H.
  destruct (lines a) as [la|] eqn:Ha.
  2: { unfold findConnectingLines in H. by rewrite Ha in H. }
  destruct (lines b) as [lb|] eqn:Hb.
  - rewrite (findConnectingLines_Some a b la lb Ha Hb) in H. cbv zeta in H.
    destruct (List.filter _ la) as [|c cl] eqn:Hf; simpl in H; injection H as <- <-.
    + right. split; [done|]. split; [done|].
      intros line (la' & lb' & Ha' & Hb' & Hla & Hlb).
      assert (line ∈ List.filter (λ line, existsb (String.eqb line) lb) la) as Hin.
      { apply elem_of_List_filter. split; [congruence|].
        apply existsb_eqb_elem_of. congruence. }
      rewrite Hf in Hin. by apply not_elem_of_nil in Hin.
    + left. exists la, lb.
      assert (c ∈ List.filter (λ line, existsb (String.eqb line) lb) la) as Hin
        by (rewrite Hf; by left).
      apply elem_of_List_filter in Hin as [Hla Hlb].
      by apply existsb_eqb_elem_of in Hlb.
  - destruct la as [|x la].
    + unfold findConnectingLines in H. rewrite Ha in H. simpl in H.
      injection H as <- <-. right. split; [done|]. split; [done|].
      intros line (la' & lb' & _ & Hb' & _). congruence.
    + assert (findConnectingLines a b = None) as Hnone.
      { apply findConnectingLines_None. right. by exists x, la. }
      congruence.
Qed.

Lemma terminalStops_None busStops :
  terminalStops busStops = None
  ↔ ∃ s, s ∈ busStops ∧ stop_type s = Some "main"%string ∧ lines s = None.
Proof.
  unfold terminalStops. rewrite js_filter_None. split.
  - intros (s & Hs & Hp). exists s. split; [done|].
    destruct (decide _) as [Hm|]; [|done]. split; [done|].
    by destruct (lines s).
  - intros (s & Hs & Hm & Hl). exists s. split; [done|].
    rewrite decide_True by done. by rewrite Hl.
Qed.

Lemma terminalStops_Some busStops ts :
  terminalStops busStops = Some ts → ts = List.filter isTerminal busStops.
Proof.
  intros H. rewrite terminalStops_filter in H; [congruence|].
  intros s Hs Hm. destruct (lines s) as [l|] eqn:Hl; [by eexists|].
  assert (terminalStops busStops = None) as Hnone
    by (apply terminalStops_None; by exists s).
  congruence.
Qed.

(** ** The loops of the builders, on stops that carry coordinates and lines *)

Section builders.
Context (haversine : coord → coord → Q).
Context (originLocation destinationLocation : Location).

Lemma estimateStopCount_is_Some (a b : Stop) :
  is_Some (coordinates a) → is_Some (coordinates b) →
  is_Some (estimateStopCount haversine a b).
Proof. intros [ca Ha] [cb Hb]. unfold estimateStopCount. rewrite Ha, Hb. by eexists. Qed.

Lemma buildDirectRoute_is_Some (originStop destinationStop : NearbyStop) line0 :
  is_Some (coordinates originStop) → is_Some (coordinates destinationStop) →
  is_Some (buildDirectRoute haversine originLocation destinationLocation
             originStop destinationStop line0).
Proof.
  intros [ca Ha] [cb Hb]. unfold buildDirectRoute, estimateStopCount.
  rewrite Ha, Hb. by eexists.
Qed.

Lemma buildTransferRoute_is_Some (originStop destinationStop : NearbyStop)
    (terminalStop : Stop) f0 s0 :
  is_Some (coordinates originStop) → is_Some (coordinates destinationStop) →
  is_Some (coordinates terminalStop) →
  is_Some (buildTransferRoute haversine originLocation destinationLocation
             originStop destinationStop terminalStop f0 s0).
Proof.
  intros [ca Ha] [cb Hb] [ct Ht]. unfold buildTransferRoute, estimateStopCount.
  rewrite Ha, Hb, Ht. by eexists.
Qed.

Lemma findConnectingLines_complete (a b : Stop) :
  complete a → complete b →
  ∃ line0 ls, findConnectingLines a b = Some (line0 :: ls).
Proof.
  intros [_ [la Ha]] [_ [lb Hb]].
  rewrite (findConnectingLines_Some a b la lb Ha Hb). cbv zeta.
  destruct (List.filter _ la) as [|c cl]; simpl; by eexists _, _.
Qed.

Lemma directOuter_complete (os : NearbyStop) no (ds : NearbyStop) nd :
  complete os → complete ds →
  ∃ r, directOuter haversine originLocation destinationLocation (os :: no) (ds :: nd)
       = Some (Some r).
Proof.
  intros Hos Hds. simpl.
  destruct (findConnectingLines_complete os ds Hos Hds) as (line0 & ls & ->). simpl.
  destruct (buildDirectRoute_is_Some os ds line0) as [r ->];
    [apply Hos|apply Hds|]. simpl. by exists r.
Qed.

Lemma transferInner_no_terminals originStop dests :
  transferInner haversine originLocation destinationLocation originStop dests []
  = Some None.
Proof. induction dests as [|ds dests IH]; simpl; done. Qed.

Lemma transferOuter_no_terminals origins dests :
  transferOuter haversine originLocation destinationLocation origins dests []
  = Some None.
Proof.
  induction origins as [|os origins IH]; simpl; [done|].
  by rewrite transferInner_no_terminals.
Qed.

Lemma transferOuter_no_dests origins terminals :
  transferOuter haversine originLocation destinationLocation origins [] terminals
  = Some None.
Proof. induction origins as [|os origins IH]; simpl; done. Qed.

(** A route with a transfer is always built for the first triple of the
    three loops. *)
Lemma transferOuter_first origins dests terminals r :
  transferOuter haversine originLocation destinationLocation origins dests terminals
    = Some (Some r) →
  ∃ os no ds nd t ts f0 fl s0 sl,
    origins = os :: no ∧ dests = ds :: nd ∧ terminals = t :: ts
    ∧ findConnectingLines os t = Some (f0 :: fl)
    ∧ findConnectingLines t ds = Some (s0 :: sl)
    ∧ buildTransferRoute haversine originLocation destinationLocation
        os ds t f0 s0 = Some r.
Proof.
  destruct terminals as [|t ts]; [by rewrite transferOuter_no_terminals|].
  destruct dests as [|ds nd]; [by rewrite transferOuter_no_dests|].
  destruct origins as [|os no]; [done|]. simpl.
  destruct (findConnectingLines os t) as [[|f0 fl]|] eqn:Hf; simpl; [| |done].
  { by destruct (findConnectingLines_nonempty _ _ _ Hf). }
  destruct (findConnectingLines t ds) as [[|s0 sl]|] eqn:Hs; simpl; [| |done].
  { by destruct (findConnectingLines_nonempty _ _ _ Hs). }
  destruct (buildTransferRoute _ _ _ _ _ _ _ _) as [r'|] eqn:Hb; simpl; [|done].
  intros [= <-]. by exists os, no, ds, nd, t, ts, f0, fl, s0, sl.
Qed.

Lemma transferOuter_complete (os : NearbyStop) no (ds : NearbyStop) nd (t : Stop) ts :
  complete os → complete ds → complete t →
  ∃ r, transferOuter haversine originLocation destinationLocation
         (os :: no) (ds :: nd) (t :: ts) = Some (Some r).
Proof.
  intros Hos Hds Ht. simpl.
  destruct (findConnectingLines_complete os t Hos Ht) as (f0 & fl & ->). simpl.
  destruct (findConnectingLines_complete t ds Ht Hds) as (s0 & sl & ->). simpl.
  destruct (buildTransferRoute_is_Some os ds t f0 s0) as [r ->];
    [apply Hos|apply Hds|apply Ht|]. simpl. by exists r.
Qed.
End builders.

Lemma findNearbyStops_is_Some haversine (p : coord) busStops maxDistance limit :
  (∀ s, s ∈ busStops → is_Some (coordinates s)) →
  is_Some (findNearbyStops haversine (Some p) busStops maxDistance limit).
Proof.
  intros Hcoords.
  destruct (findNearbyStops_sorted_prefix haversine p busStops maxDistance limit Hcoords)
    as (sorted & k & -> & _). by eexists.
Qed.

Lemma findNearbyStops_complete haversine point busStops maxDistance limit res
    (n : NearbyStop) :
  Forall complete busStops →
  findNearbyStops haversine point busStops maxDistance limit = Some res →
  n ∈ res → complete n.
Proof.
  intros Hok Hres Hn.
  destruct (findNearbyStops_elem _ _ _ _ _ _ _ Hres Hn)
    as (p & s & c & _ & Hs & _ & -> & _).
  rewrite Forall_forall in Hok. by apply Hok.
Qed.

(** A stop within reach gives a non-empty result, and the other way round. *)
Lemma findNearbyStops_cons_iff haversine (p : coord) busStops maxDistance limit res :
  0 < limit →
  findNearbyStops haversine (Some p) busStops maxDistance limit = Some res →
  res ≠ [] ↔ ∃ s, reachable haversine p maxDistance busStops s.
Proof.
  intros Hlimit Hres. split.
  - destruct res as [|n rest]; [done|]. intros _.
    destruct (findNearbyStops_elem _ _ _ _ _ _ n Hres)
      as (p' & s & c & [= <-] & Hs & Hc & _ & Hle); [by left|].
    exists s. split; [done|]. by exists c.
  - intros Hreach ->.
    destruct (findNearbyStops_Some _ _ _ _ _ _ Hres) as [[-> _]|(p' & _ & Hcoords)].
    + destruct Hreach as (s & Hs & _). by apply not_elem_of_nil in Hs.
    + by apply (findNearbyStops_nil haversine busStops maxDistance limit
                  (Some p) p eq_refl Hcoords Hlimit) in Hres.
Qed.

(** ** The scenarios *)

Lemma complete_meridianStop id lat ty ls : complete (meridianStop id lat ty ls).
Proof. split; by eexists. Qed.

Lemma crossCatalog_complete : Forall complete crossCatalog.
Proof. repeat (constructor; [apply complete_meridianStop|]). constructor. Qed.

Lemma transferCatalog_complete : Forall complete transferCatalog.
Proof. repeat (constructor; [apply complete_meridianStop|]). constructor. Qed.

Lemma meridianDistance_nonneg a b : (0 <= meridianDistance a b)%Q.
Proof.
  unfold meridianDistance. apply Qmult_le_0_compat; [done|apply Qabs_nonneg].
Qed.

Lemma meridianDistance_triangle a b c :
  (meridianDistance a c <= meridianDistance a b + meridianDistance b c)%Q.
Proof.
  unfold meridianDistance. rewrite <- Qmult_plus_distr_r.
  apply Qmult_le_l; [done|].
  assert (fst c - fst a == (fst b - fst a) + (fst c - fst b))%Q as Heq by ring.
  rewrite Heq. apply Qabs_triangle.
Qed.

(** ** Rounding *)

Ltac opaque_inject :=
  repeat match goal with
         | |- context [inject_Z ?z] =>
             let q := fresh "q" in set (q := inject_Z z) in *; clearbody q
         | H : context [inject_Z ?z] |- _ =>
             let q := fresh "q" in set (q := inject_Z z) in *; clearbody q
         end.

Lemma Math_ceil_ge x : (x <= inject_Z (Math_ceil x))%Q.
Proof. apply Qle_ceiling. Qed.

Lemma Math_ceil_nonneg x : (0 <= x)%Q → 0 ≤ Math_ceil x.
Proof. intros Hx. apply (Qceiling_resp_le 0 x Hx). Qed.

Lemma Math_ceil_pos x : (0 < x)%Q → 1 ≤ Math_ceil x.
Proof.
  intros Hx. pose proof (Math_ceil_ge x) as Hge.
  destruct (Z_lt_le_dec (Math_ceil x) 1) as [Hlt|]; [|done].
  assert (inject_Z (Math_ceil x) <= inject_Z 0)%Q as Hle by (rewrite <- Zle_Qle; lia).
  change (inject_Z 0) with 0%Q in Hle. opaque_inject. lra.
Qed.

Lemma Math_ceil_add x y z :
  (x <= y + z)%Q → Math_ceil x ≤ Math_ceil y + Math_ceil z.
Proof.
  intros Hx. rewrite <- (Qceiling_Z (Math_ceil y + Math_ceil z)).
  apply Qceiling_resp_le. rewrite inject_Z_plus.
  pose proof (Math_ceil_ge y). pose proof (Math_ceil_ge z). opaque_inject. lra.
Qed.

Lemma Math_round_ge x : (x - (1 # 2) <= inject_Z (Math_round x))%Q.
Proof.
  unfold Math_round. pose proof (Qlt_floor (x + (1 # 2))) as Hlt.
  rewrite inject_Z_plus in Hlt. change (inject_Z 1) with 1%Q in Hlt.
  opaque_inject. lra.
Qed.

Lemma calculateWalkingTime_nonneg d : (0 <= d)%Q → 0 ≤ calculateWalkingTime d.
Proof.
  intros Hd. apply Math_ceil_nonneg. unfold Qdiv. change (/ 80)%Q with (1 # 80)%Q. lra.
Qed.

Lemma calculateBusTime_nonneg d : (0 <= d)%Q → 0 ≤ calculateBusTime d.
Proof.
  intros Hd. apply Math_ceil_nonneg. unfold Qdiv. change (/ 300)%Q with (1 # 300)%Q. lra.
Qed.

Lemma calculateWalkingTime_ge d : (d <= 80 * inject_Z (calculateWalkingTime d))%Q.
Proof.
  pose proof (Math_ceil_ge (d / 80)) as H. unfold calculateWalkingTime, Qdiv in *.
  change (/ 80)%Q with (1 # 80)%Q in *. opaque_inject. lra.
Qed.

Lemma calculateBusTime_ge d : (d <= 300 * inject_Z (calculateBusTime d))%Q.
Proof.
  pose proof (Math_ceil_ge (d / 300)) as H. unfold calculateBusTime, Qdiv in *.
  change (/ 300)%Q with (1 # 300)%Q in *. opaque_inject. lra.
Qed.

Lemma calculateWalkingTime_pos d : (50 < d)%Q → 1 ≤ calculateWalkingTime d.
Proof.
  intros Hd. apply Math_ceil_pos. unfold Qdiv. change (/ 80)%Q with (1 # 80)%Q. lra.
Qed.

(** Two bus legs through a third point take at least as long as the bus leg
    they replace, when the way through the third point is not shorter. *)
Lemma calculateBusTime_legs d l1 l2 :
  (d <= l1 + l2)%Q → calculateBusTime d ≤ calculateBusTime l1 + calculateBusTime l2.
Proof.
  intros Hd. apply Math_ceil_add. unfold Qdiv. change (/ 300)%Q with (1 # 300)%Q. lra.
Qed.

(** ** What the builders were given *)

Section built_from.
Context (haversine : coord → coord → Q).
Context (originLocation destinationLocation : Location) (busStops : list Stop).

Lemma calculateDirectRoute_built r :
  calculateDirectRoute haversine originLocation destinationLocation busStops
    = Some (Some r) →
  ∃ p q (so sd : Stop) co cd line0,
    loc_coordinates originLocation = Some p
    ∧ loc_coordinates destinationLocation = Some q
    ∧ so ∈ busStops ∧ sd ∈ busStops
    ∧ coordinates so = Some co ∧ coordinates sd = Some cd
    ∧ buildDirectRoute haversine originLocation destinationLocation
        (mkNearby so (haversine p co)) (mkNearby sd (haversine q cd)) line0 = Some r.
Proof.
  unfold calculateDirectRoute. intros H.
  apply bind_Some in H as (origins & Horigins & H).
  apply bind_Some in H as (dests & Hdests & H).
  apply directOuter_Some in H as (os & no & ds & nd & line0 & ls & -> & -> & _ & Hb).
  destruct (findNearbyStops_elem _ _ _ _ _ _ os Horigins)
    as (p & so & co & Hp & Hso & Hco & -> & _); [by left|].
  destruct (findNearbyStops_elem _ _ _ _ _ _ ds Hdests)
    as (q & sd & cd & Hq & Hsd & Hcd & -> & _); [by left|].
  by exists p, q, so, sd, co, cd, line0.
Qed.

Lemma calculateRouteWithTransfer_built r :
  calculateRouteWithTransfer haversine originLocation destinationLocation busStops
    = Some (Some r) →
  ∃ p q (so sd t : Stop) co cd ct f0 s0,
    loc_coordinates originLocation = Some p
    ∧ loc_coordinates destinationLocation = Some q
    ∧ so ∈ busStops ∧ sd ∈ busStops ∧ t ∈ busStops
    ∧ coordinates so = Some co ∧ coordinates sd = Some cd ∧ coordinates t = Some ct
    ∧ buildTransferRoute haversine originLocation destinationLocation
        (mkNearby so (haversine p co)) (mkNearby sd (haversine q cd)) t f0 s0 = Some r.
Proof.
  unfold calculateRouteWithTransfer. intros H.
  apply bind_Some in H as (origins & Horigins & H).
  apply bind_Some in H as (dests & Hdests & H).
  apply bind_Some in H as (terminals & Hterminals & H).
  apply transferOuter_first in H
    as (os & no & ds & nd & t & ts & f0 & fl & s0 & sl & -> & -> & -> & _ & _ & Hb).
  destruct (findNearbyStops_elem _ _ _ _ _ _ os Horigins)
    as (p & so & co & Hp & Hso & Hco & -> & _); [by left|].
  destruct (findNearbyStops_elem _ _ _ _ _ _ ds Hdests)
    as (q & sd & cd & Hq & Hsd & Hcd & -> & _); [by left|].
  apply terminalStops_Some in Hterminals.
  assert (t ∈ busStops) as Ht.
  { assert (t ∈ List.filter isTerminal busStops) as Hin
      by (rewrite <- Hterminals; by left).
    by apply elem_of_List_filter in Hin as [? _]. }
  destruct (coordinates t) as [ct|] eqn:Hct.
  - by exists p, q, so, sd, t, co, cd, ct, f0, s0.
  - unfold buildTransferRoute in Hb. simpl in Hb. rewrite Hco, Hct in Hb. done.
Qed.
End built_from.

(** The three ways a route is [built], each with the route written out. *)
Ltac built_cases H originLocation destinationLocation :=
  let p := fresh "p" in let q := fresh "q" in
  let so := fresh "so" in let sd := fresh "sd" in let t := fresh "t" in
  let co := fresh "co" in let cd := fresh "cd" in let ct := fresh "ct" in
  let line0 := fresh "line0" in let f0 := fresh "f0" in let s0 := fresh "s0" in
  let Hp := fresh "Hp" in let Hq := fresh "Hq" in
  let Hso := fresh "Hso" in let Hsd := fresh "Hsd" in let Ht := fresh "Ht" in
  let Hco := fresh "Hco" in let Hcd := fresh "Hcd" in let Hct := fresh "Hct" in
  let Hb := fresh "Hb" in
  destruct H as [H|[H|H]];
  [ apply calculateDirectRoute_built in H
      as (p & q & so & sd & co & cd & line0 & Hp & Hq & Hso & Hsd & Hco & Hcd & Hb);
    unfold buildDirectRoute, estimateStopCount in Hb;
    cbn [ns_stop distance] in Hb; rewrite Hco, Hcd in Hb;
    cbn [calculateDistance mbind option_bind] in Hb; injection Hb as <-
  | apply calculateRouteWithTransfer_built in H
      as (p & q & so & sd & t & co & cd & ct & f0 & s0
          & Hp & Hq & Hso & Hsd & Ht & Hco & Hcd & Hct & Hb);
    unfold buildTransferRoute, estimateStopCount in Hb;
    cbn [ns_stop distance] in Hb; rewrite Hco, Hcd, Hct in Hb;
    cbn [calculateDistance mbind option_bind] in Hb; injection Hb as <-
  | unfold createExampleRoute in H;
    destruct (loc_coordinates originLocation) as [p|] eqn:Hp; [|done];
    destruct (loc_coordinates destinationLocation) as [q|] eqn:Hq; [|done];
    cbn [calculateDistance mbind option_bind] in H; injection H as <- ].

(** ** The direct builder and the orchestrator on a complete catalog *)

Lemma calculateDirectRoute_complete (haversine : coord → coord → Q)
    (originLocation destinationLocation : Location) (busStops : list Stop)
    (co cd : coord) :
  Forall complete busStops →
  loc_coordinates originLocation = Some co →
  loc_coordinates destinationLocation = Some cd →
  ∃ res,
    calculateDirectRoute haversine originLocation destinationLocation busStops = Some res
    ∧ (is_Some res ↔
       (∃ s, reachable haversine co 3000 busStops s)
       ∧ (∃ s, reachable haversine cd 3000 busStops s)).
Proof.
  intros Hok Ho Hd.
  assert (∀ s, s ∈ busStops → is_Some (coordinates s)) as Hcoords.
  { intros s Hs. rewrite Forall_forall in Hok. by apply Hok. }
  unfold calculateDirectRoute. rewrite Ho, Hd.
  destruct (findNearbyStops_is_Some haversine co busStops 3000 10 Hcoords)
    as [origins Horigins].
  destruct (findNearbyStops_is_Some haversine cd busStops 3000 10 Hcoords)
    as [dests Hdests].
  rewrite Horigins, Hdests. simpl.
  pose proof (findNearbyStops_cons_iff haversine co busStops 3000 10 origins
                ltac:(lia) Horigins) as HO.
  pose proof (findNearbyStops_cons_iff haversine cd busStops 3000 10 dests
                ltac:(lia) Hdests) as HD.
  destruct dests as [|ds nd].
  { rewrite directOuter_no_dests. exists None. split; [done|].
    split; [by intros [? [=]]|]. intros [_ Hr]. by apply HD in Hr. }
  destruct origins as [|os no].
  { exists None. split; [done|].
    split; [by intros [? [=]]|]. intros [Hr _]. by apply HO in Hr. }
  destruct (directOuter_complete haversine originLocation destinationLocation
              os no ds nd) as [r Hr].
  - eapply findNearbyStops_complete; [exact Hok|exact Horigins|by left].
  - eapply findNearbyStops_complete; [exact Hok|exact Hdests|by left].
  - exists (Some r). split; [done|]. split; [|by eexists].
    intros _. split; [by apply HO|by apply HD].
Qed.


Lemma calculateRoutes_complete (haversine : coord → coord → Q)
    (originLocation destinationLocation : Location) (busStops : list Stop)
    (co cd : coord) :
  Forall complete busStops →
  loc_coordinates originLocation = Some co →
  loc_coordinates destinationLocation = Some cd →
  ∃ e res rs,
    createExampleRoute haversine originLocation destinationLocation busStops
      = Some (Some e)
    ∧ calculateDirectRoute haversine originLocation destinationLocation busStops
      = Some res
    ∧ calculateRoutes_try haversine originLocation destinationLocation busStops
      = Some rs
    ∧ calculateRoutes haversine originLocation destinationLocation busStops = Some rs
    ∧ rs ≡ₚ Some e :: match res with Some dr => [Some dr] | None => [] end.
Proof.
  intros Hok Ho Hd.
  destruct (createExampleRoute_with_coordinates haversine originLocation
              destinationLocation busStops co cd Ho Hd) as [e He].
  destruct (calculateDirectRoute_complete haversine originLocation destinationLocation
              busStops co cd Hok Ho Hd) as (res & Hres & _).
  assert (∃ rs, calculateRoutes_try haversine originLocation destinationLocation
                  busStops = Some rs
                ∧ rs ≡ₚ Some e :: match res with Some dr => [Some dr] | None => [] end)
    as (rs & Htry & Hperm).
  { unfold calculateRoutes_try. rewrite He, Hres. cbn [mbind option_bind].
    destruct res as [dr|].
    - change ([Some e] ++ [Some dr]) with [Some e; Some dr].
      rewrite sort_two_routes. eexists. split; [done|].
      case_decide; [apply perm_swap|done].
    - rewrite sort_one_route. by eexists. }
  exists e, res, rs. repeat (split; [done|]). split; [|done].
  unfold calculateRoutes. by rewrite Htry.
Qed.

(** ** The catalog of the service *)

Lemma mockBusStops_complete : Forall complete mockBusStops.
Proof.
  unfold mockBusStops.
  repeat (apply Forall_cons_2; [split; by eexists|]). apply Forall_nil_2.
Qed.

(** ** The results page *)

Lemma calculateRoutes_on_mockBusStops haversine (origem destino : Location) :
  (∃ co cd e res rs,
     loc_coordinates origem = Some co ∧ loc_coordinates destino = Some cd
     ∧ createExampleRoute haversine origem destino mockBusStops = Some (Some e)
     ∧ calculateDirectRoute haversine origem destino mockBusStops = Some res
     ∧ calculateRoutes haversine origem destino mockBusStops = Some rs
     ∧ rs ≡ₚ Some e :: match res with Some dr => [Some dr] | None => [] end)
  ∨ ((loc_coordinates origem = None ∨ loc_coordinates destino = None)
     ∧ calculateRoutes haversine origem destino mockBusStops = Some []).
Proof.
  destruct (loc_coordinates origem) as [co|] eqn:Ho;
    [destruct (loc_coordinates destino) as [cd|] eqn:Hd|].
  - left.
    destruct (calculateRoutes_complete haversine origem destino mockBusStops co cd
                mockBusStops_complete Ho Hd)
      as (e & res & rs & He & Hres & _ & Hrs & Hperm).
    by exists co, cd, e, res, rs.
  - right. split; [by right|].
    apply calculateRoutes_missing_coordinates. by right.
  - right. split; [by left|].
    apply calculateRoutes_missing_coordinates. by left.
Qed.

(** ** The list of results *)

Lemma createExampleRoute_id haversine originLocation destinationLocation busStops r :
  createExampleRoute haversine originLocation destinationLocation busStops
    = Some (Some r) →
  route_id r = Some "example-route-1"%string.
Proof.
  unfold createExampleRoute.
  destruct (loc_coordinates originLocation), (loc_coordinates destinationLocation);
    simpl; try done.
  by intros [= <-].
Qed.

Lemma calculateDirectRoute_id haversine originLocation destinationLocation busStops r :
  calculateDirectRoute haversine originLocation destinationLocation busStops
    = Some (Some r) →
  route_id r = None.
Proof.
  unfold calculateDirectRoute. intros H.
  apply bind_Some in H as (origins & _ & H). apply bind_Some in H as (dests & _ & H).
  apply directOuter_Some in H as (os & no & ds & nd & line0 & ls & _ & _ & _ & H).
  unfold buildDirectRoute in H.
  apply bind_Some in H as (busDistance & _ & H).
  apply bind_Some in H as (stopCount & _ & H). by injection H as <-.
Qed.

Lemma RouteResultList_None rotas : RouteResultList rotas = None ↔ None ∈ rotas.
Proof.
  unfold RouteResultList.
  assert (∀ from,
            mapM id (imap (λ index rota, r ← rota;
                                         Some (routeKey r (from + index), r)) rotas) = None
            ↔ None ∈ rotas) as Hmap.
  { induction rotas as [|rota rotas IH]; intros from.
    - simpl. split; [done|]. intros H. by apply not_elem_of_nil in H.
    - rewrite imap_cons. cbn [mapM]. destruct rota as [r|]; cbn.
      + setoid_rewrite elem_of_cons.
        rewrite <- (IH (S from)).
        erewrite imap_ext; [|intros i x _; cbn; by rewrite Nat.add_succ_r].
        destruct (mapM id _); cbn; split; intros H; try done.
        * by destruct H.
        * by right.
      + split; [by left|done]. }
  specialize (Hmap 0%nat). cbn in Hmap.
  destruct rotas as [|rota rotas]; cbn [length Nat.eqb].
  - split; [done|]. intros H. by apply not_elem_of_nil in H.
  - rewrite <- Hmap. by destruct (mapM id _).
Qed.

(** ** Order of first occurrence *)

Section first_before.
Context {A : Type}.
Implicit Types arr l : list A.

Lemma firstBefore_antisymm arr a b :
  firstBefore arr a b → firstBefore arr b a → a = b.
Proof.
  intros (p1 & s1 & H1 & Hb) (p2 & s2 & H2 & Ha).
  destruct (Nat.lt_total (length p1) (length p2)) as [Hlt|[Heq|Hlt]].
  - exfalso. apply Ha. apply (list_elem_of_lookup_2 _ (length p1)).
    rewrite <- (lookup_app_l p2 (b :: s2)) by done.
    rewrite <- H2, H1. apply list_lookup_middle. done.
  - assert (arr !! length p1 = Some a) as Hla
      by (rewrite H1; by apply list_lookup_middle).
    assert (arr !! length p1 = Some b) as Hlb
      by (rewrite H2; by apply list_lookup_middle).
    congruence.
  - exfalso. apply Hb. apply (list_elem_of_lookup_2 _ (length p2)).
    rewrite <- (lookup_app_l p1 (a :: s1)) by done.
    rewrite <- H1, H2. apply list_lookup_middle. done.
Qed.

(** A list without repetition is fixed by its members and their order of
    first occurrence in [arr]. *)
Lemma firstBefore_unique arr l1 l2 :
  NoDup l1 → NoDup l2 → (∀ x, x ∈ l1 ↔ x ∈ l2) →
  StronglySorted (firstBefore arr) l1 → StronglySorted (firstBefore arr) l2 →
  l1 = l2.
Proof.
  intros Hn1 Hn2 Hmem Hs1 Hs2.
  apply (StronglySorted_unique_strong (firstBefore arr)); [|done|done|].
  - intros a b _ _. apply firstBefore_antisymm.
  - by apply NoDup_Permutation.
Qed.

Lemma StronglySorted_impl_elem (R1 R2 : relation A) l :
  (∀ a b, a ∈ l → b ∈ l → R1 a b → R2 a b) →
  StronglySorted R1 l → StronglySorted R2 l.
Proof.
  intros Himpl Hs. induction Hs as [|x l Hs IH Hx]; constructor.
  - apply IH. intros a b Ha Hb. apply Himpl; by right.
  - rewrite Forall_forall in Hx |- *. intros y Hy.
    apply Himpl; [by left|by right|by apply Hx].
Qed.
End first_before.

Lemma firstBefore_filter_fmap {A B} (f : A → B) (P : B → bool) (l : list A) a b :
  P b = true →
  firstBefore (f <$> List.filter (λ x, P (f x)) l) a b →
  firstBefore (f <$> l) a b.
Proof.
  intros Hb (pre & suf & Heq & Hpre). revert pre Heq Hpre.
  induction l as [|x l IH]; intros pre Heq Hpre; simpl in Heq.
  - by destruct pre.
  - destruct (P (f x)) eqn:HP.
    + rewrite fmap_cons in Heq. destruct pre as [|y pre]; simpl in Heq.
      * injection Heq as Hx Heq. exists [], (f <$> l). split; [|done].
        rewrite fmap_cons. simpl. by rewrite Hx.
      * injection Heq as Hx Heq. apply not_elem_of_cons in Hpre as [Hby Hpre].
        destruct (IH pre Heq Hpre) as (p & s & Hl & Hp).
        exists (f x :: p), s. split.
        -- rewrite fmap_cons, Hl. done.
        -- apply not_elem_of_cons. split; [congruence|done].
    + destruct (IH pre Heq Hpre) as (p & s & Hl & Hp).
      exists (f x :: p), s. split.
      * rewrite fmap_cons, Hl. done.
      * apply not_elem_of_cons. split; [|done]. intros ->. congruence.
Qed.

(** ** The route card: each line code once *)

Lemma js_indexOf_from_first x pre suf from :
  x ∉ pre →
  js_indexOf_from x (pre ++ x :: suf) from = Some (from + length pre)%nat.
Proof.
  revert from. induction pre as [|y pre IH]; intros from Hx; simpl.
  - rewrite String.eqb_refl. f_equal. lia.
  - apply not_elem_of_cons in Hx as [Hxy Hx].
    destruct (String.eqb_spec y x) as [->|_]; [done|].
    rewrite IH by done. f_equal. lia.
Qed.

Lemma js_indexOf_from_earlier x pre suf from :
  x ∈ pre →
  ∃ k, js_indexOf_from x (pre ++ suf) from = Some k ∧ (k < from + length pre)%nat.
Proof.
  revert from. induction pre as [|y pre IH]; intros from Hx; simpl.
  - by apply not_elem_of_nil in Hx.
  - destruct (String.eqb_spec y x) as [->|Hne].
    + exists from. split; [done|lia].
    + apply elem_of_cons in Hx as [->|Hx]; [done|].
      destruct (IH (S from) Hx) as (k & -> & Hk). exists k. split; [done|lia].
Qed.

(** [arr.filter((x, index) => arr.indexOf(x) === index)] keeps the first
    occurrence of each element. *)
Lemma js_filter_index_first_from (pre suf : list string) :
  let res := js_filter_index_from
               (λ codigo index,
                  bool_decide (js_indexOf codigo (pre ++ suf) = Some index))
               suf (length pre) in
  NoDup res ∧ (∀ x, x ∈ res ↔ x ∈ suf ∧ x ∉ pre) ∧ sublist res suf.
Proof.
  revert pre. induction suf as [|y suf IH]; intros pre; cbn zeta.
  - simpl. split; [constructor|]. split; [|constructor].
    intros x. split; [by intros ?%not_elem_of_nil|by intros [?%not_elem_of_nil _]].
  - specialize (IH (pre ++ [y])). cbn zeta in IH.
    rewrite <- app_assoc, length_app, Nat.add_1_r in IH. simpl in IH.
    destruct IH as (Hnodup & Hmem & Hsub). simpl.
    destruct (decide (y ∈ pre)) as [Hy|Hy].
    + rewrite bool_decide_eq_false_2.
      2: { unfold js_indexOf.
           destruct (js_indexOf_from_earlier y pre (y :: suf) 0 Hy) as (k & -> & Hk).
           intros [= ->]. lia. }
      split; [done|]. split; [|by constructor].
      intros x. rewrite Hmem, elem_of_cons, not_elem_of_app, list_elem_of_singleton.
      split; [tauto|]. intros [[->|Hx] Hpre]; [done|]. split; [done|].
      split; [done|]. intros ->. done.
    + rewrite bool_decide_eq_true_2
        by (unfold js_indexOf; by rewrite js_indexOf_from_first).
      split; [|split; [|by constructor]].
      * constructor; [|done]. rewrite Hmem, not_elem_of_app, list_elem_of_singleton.
        tauto.
      * intros x. rewrite !elem_of_cons, Hmem, not_elem_of_app, list_elem_of_singleton.
        split.
        -- intros [->|(Hx & Hpre & Hne)]; [by split; [left|]|]. split; [by right|done].
        -- intros [[->|Hx] Hpre]; [by left|].
           destruct (decide (x = y)) as [->|Hne]; [by left|right]. done.
Qed.

Lemma js_filter_index_sorted_from (pre suf : list string) :
  StronglySorted (firstBefore (pre ++ suf))
    (js_filter_index_from
       (λ codigo index, bool_decide (js_indexOf codigo (pre ++ suf) = Some index))
       suf (length pre)).
Proof.
  revert pre. induction suf as [|y suf IH]; intros pre; [constructor|].
  pose proof (js_filter_index_first_from (pre ++ [y]) suf) as (_ & Hmem & _).
  specialize (IH (pre ++ [y])). cbn zeta in Hmem.
  rewrite <- app_assoc, length_app, Nat.add_1_r in IH, Hmem. simpl in IH, Hmem.
  simpl. destruct (decide (y ∈ pre)) as [Hy|Hy].
  - rewrite bool_decide_eq_false_2; [done|].
    unfold js_indexOf.
    destruct (js_indexOf_from_earlier y pre (y :: suf) 0 Hy) as (k & -> & Hk).
    intros [= ->]. lia.
  - rewrite bool_decide_eq_true_2
      by (unfold js_indexOf; by rewrite js_indexOf_from_first).
    constructor; [done|]. apply Forall_forall. intros x Hx.
    apply Hmem in Hx as [_ Hx]. apply not_elem_of_app in Hx as [Hx _].
    by exists pre, suf.
Qed.

Lemma js_filter_index_sorted (arr : list string) :
  StronglySorted (firstBefore arr)
    (js_filter_index
       (λ codigo index, bool_decide (js_indexOf codigo arr = Some index)) arr).
Proof. apply (js_filter_index_sorted_from [] arr). Qed.

Lemma js_filter_index_first (arr : list string) :
  let res := js_filter_index
               (λ codigo index, bool_decide (js_indexOf codigo arr = Some index)) arr in
  NoDup res ∧ (∀ x, x ∈ res ↔ x ∈ arr) ∧ sublist res arr.
Proof.
  destruct (js_filter_index_first_from [] arr) as (Hnodup & Hmem & Hsub).
  cbn zeta. split; [done|]. split; [|done].
  intros x. rewrite Hmem. split; [by intros [? _]|]. intros Hx. split; [done|].
  apply not_elem_of_nil.
Qed.

(** ** The route card: the details object *)

Section card_facts.
Context {Detalhes : Type} (buscarDetalhes : string → option Detalhes).

Lemma novosDetalhes_lookup (codigos : list string) (m : gmap string Detalhes) codigo :
  foldl (λ (novosDetalhes : gmap string Detalhes) resultado,
           match resultado.2 with
           | Some detalhes => <[resultado.1 := detalhes]> novosDetalhes
           | None => novosDetalhes
           end) m ((λ codigo, (codigo, buscarDetalhes codigo)) <$> codigos) !! codigo
  = match (if decide (codigo ∈ codigos) then buscarDetalhes codigo else None) with
    | Some detalhes => Some detalhes
    | None => m !! codigo
    end.
Proof.
  revert m. induction codigos as [|c codigos IH]; intros m.
  - cbn [fmap list_fmap foldl].
    destruct (decide (codigo ∈ [])) as [Hin|_]; [by apply not_elem_of_nil in Hin|done].
  - rewrite fmap_cons. cbn [foldl]. rewrite IH. cbn [fst snd].
    destruct (decide (codigo ∈ codigos)) as [Hin|Hout].
    + rewrite decide_True by (by right).
      destruct (buscarDetalhes codigo) as [d|] eqn:Hd; [done|].
      destruct (buscarDetalhes c) as [d'|] eqn:Hc; [|done].
      rewrite lookup_insert_ne; [done|]. intros ->. congruence.
    + destruct (decide (codigo = c)) as [->|Hne].
      * rewrite decide_True by (by left).
        destruct (buscarDetalhes c) as [d|]; [by rewrite lookup_insert_eq|done].
      * rewrite decide_False by (by intros [?|?]%elem_of_cons).
        destruct (buscarDetalhes c) as [d|]; [by rewrite lookup_insert_ne|done].
Qed.
End card_facts.

(** ** How a duration is written *)

Lemma pretty_N_char_digit x : is_digit (pretty_N_char x) = true.
Proof. unfold pretty_N_char. by repeat case_match. Qed.

Lemma pretty_N_go_digits x s : digits s = true → digits (pretty_N_go x s) = true.
Proof.
  revert s. induction (N.lt_wf_0 x) as [x _ IH]; intros s Hs.
  assert (x = 0 ∨ 0 < x)%N as [->|Hx] by lia.
  - by rewrite pretty_N_go_0.
  - rewrite pretty_N_go_step by done. apply IH.
    + by apply N.div_lt.
    + simpl. by rewrite pretty_N_char_digit.
Qed.

Lemma pretty_Z_digits z : 0 ≤ z → digits (pretty z) = true.
Proof.
  intros Hz. destruct z as [|p|p]; [done| |lia].
  unfold pretty, pretty_Z, pretty, pretty_positive, pretty, pretty_N.
  case_decide; [done|]. by apply pretty_N_go_digits.
Qed.

Lemma digits_split d1 d2 c1 c2 r1 r2 :
  digits d1 = true → digits d2 = true →
  is_digit c1 = false → is_digit c2 = false →
  d1 +:+ String c1 r1 = d2 +:+ String c2 r2 →
  d1 = d2 ∧ c1 = c2 ∧ r1 = r2.
Proof.
  revert d2. induction d1 as [|a d1 IH]; intros [|b d2]; simpl;
    intros H1 H2 Hc1 Hc2 Heq.
  - by injection Heq as -> ->.
  - injection Heq as -> _. apply andb_true_iff in H2 as [H2 _]. congruence.
  - injection Heq as -> _. apply andb_true_iff in H1 as [H1 _]. congruence.
  - injection Heq as -> Heq.
    apply andb_true_iff in H1 as [_ H1]. apply andb_true_iff in H2 as [_ H2].
    destruct (IH d2 H1 H2 Hc1 Hc2 Heq) as (-> & -> & ->). done.
Qed.

Lemma pretty_N_go_nonempty x c s : pretty_N_go x (String c s) ≠ ""%string.
Proof.
  revert c s. induction (N.lt_wf_0 x) as [x _ IH]; intros c s.
  assert (x = 0 ∨ 0 < x)%N as [->|Hx] by lia.
  - by rewrite pretty_N_go_0.
  - rewrite pretty_N_go_step by done. apply IH. by apply N.div_lt.
Qed.

Lemma pretty_Z_nonempty (z : Z) : pretty z ≠ ""%string.
Proof.
  assert (∀ p, pretty (N.pos p) ≠ ""%string) as Hpos.
  { intros p. unfold pretty, pretty_N. case_decide; [done|].
    rewrite pretty_N_go_step by lia. apply pretty_N_go_nonempty. }
  destruct z as [|p|p]; [done|apply Hpos|done].
Qed.

Lemma formatarTempo_inj m1 m2 :
  1 ≤ m1 → 1 ≤ m2 → formatarTempo m1 = formatarTempo m2 → m1 = m2.
Proof.
  intros H1 H2. unfold formatarTempo.
  rewrite (proj2 (Z.ltb_ge m1 1)), (proj2 (Z.ltb_ge m2 1)) by done.
  cbv zeta.
  pose proof (Z.div_mod m1 60 ltac:(lia)) as E1.
  pose proof (Z.div_mod m2 60 ltac:(lia)) as E2.
  pose proof (Z.mod_pos_bound m1 60 ltac:(lia)) as B1.
  pose proof (Z.mod_pos_bound m2 60 ltac:(lia)) as B2.
  assert (m1 < 60 ∨ 0 ≤ m1 `div` 60) as D1 by (right; apply Z.div_pos; lia).
  assert (0 ≤ m1 `div` 60) as P1 by (apply Z.div_pos; lia).
  assert (0 ≤ m2 `div` 60) as P2 by (apply Z.div_pos; lia).
  destruct (Z.ltb_spec m1 60), (Z.ltb_spec m2 60).
  - intros Heq.
    destruct (digits_split (pretty m1) (pretty m2) " " " " "min" "min")
      as (Hp & _); try done; try (apply pretty_Z_digits; lia).
    by apply (inj pretty) in Hp.
  - destruct (Z.ltb_spec 0 (m2 `mod` 60)); intros Heq.
    + destruct (digits_split (pretty m1) (pretty (m2 `div` 60)) " " "h" "min"
                  (" " +:+ pretty (m2 `mod` 60) +:+ "min"))
        as (_ & Hc & _); try done; try (apply pretty_Z_digits; lia).
    + destruct (digits_split (pretty m1) (pretty (m2 `div` 60)) " " "h" "min" "")
        as (_ & Hc & _); try done; try (apply pretty_Z_digits; lia).
  - destruct (Z.ltb_spec 0 (m1 `mod` 60)); intros Heq.
    + destruct (digits_split (pretty (m1 `div` 60)) (pretty m2) "h" " "
                  (" " +:+ pretty (m1 `mod` 60) +:+ "min") "min")
        as (_ & Hc & _); try done; try (apply pretty_Z_digits; lia).
    + destruct (digits_split (pretty (m1 `div` 60)) (pretty m2) "h" " " "" "min")
        as (_ & Hc & _); try done; try (apply pretty_Z_digits; lia).
  - destruct (Z.ltb_spec 0 (m1 `mod` 60)), (Z.ltb_spec 0 (m2 `mod` 60)); intros Heq.
    + destruct (digits_split (pretty (m1 `div` 60)) (pretty (m2 `div` 60)) "h" "h"
                  (" " +:+ pretty (m1 `mod` 60) +:+ "min")
                  (" " +:+ pretty (m2 `mod` 60) +:+ "min"))
        as (Hh & _ & Hr); try done; try (apply pretty_Z_digits; lia).
      injection Hr as Hr.
      destruct (digits_split (pretty (m1 `mod` 60)) (pretty (m2 `mod` 60)) "m" "m"
                  "in" "in") as (Hm & _); try done; try (apply pretty_Z_digits; lia).
      apply (inj pretty) in Hh, Hm. lia.
    + destruct (digits_split (pretty (m1 `div` 60)) (pretty (m2 `div` 60)) "h" "h"
                  (" " +:+ pretty (m1 `mod` 60) +:+ "min") "")
        as (_ & _ & Hr); try done; try (apply pretty_Z_digits; lia).
    + destruct (digits_split (pretty (m1 `div` 60)) (pretty (m2 `div` 60)) "h" "h"
                  "" (" " +:+ pretty (m2 `mod` 60) +:+ "min"))
        as (_ & _ & Hr); try done; try (apply pretty_Z_digits; lia).
    + destruct (digits_split (pretty (m1 `div` 60)) (pretty (m2 `div` 60)) "h" "h"
                  "" "") as (Hh & _); try done; try (apply pretty_Z_digits; lia).
      apply (inj pretty) in Hh. lia.
Qed.

Lemma formatarTempo_not_less m : 1 ≤ m → formatarTempo m ≠ "< 1 min"%string.
Proof.
  intros Hm. unfold formatarTempo.
  rewrite (proj2 (Z.ltb_ge m 1)) by done. cbv zeta.
  assert (∀ (z : Z) c r, 0 ≤ z → is_digit c = false →
            pretty z +:+ String c r ≠ "< 1 min"%string) as Hstart.
  { intros z c r Hz Hc Heq.
    destruct (digits_split (pretty z) "" c "<" r " 1 min")
      as (Hp & _); try done; [by apply pretty_Z_digits|].
    by apply pretty_Z_nonempty in Hp. }
  assert (0 ≤ m `div` 60) by (apply Z.div_pos; lia).
  destruct (m <? 60); [apply Hstart; [lia|done]|].
  destruct (0 <? m `mod` 60); by apply Hstart.
Qed.

(** ** Bounds on the routes of the builders *)

Lemma built_bounds (haversine : coord → coord → Q)
    (originLocation destinationLocation : Location) (busStops : list Stop)
    (r : Route) :
  (∀ a b, (0 <= haversine a b)%Q) →
  built haversine originLocation destinationLocation busStops r →
  (0 <= distancia_total r)%Q
  ∧ 8 ≤ tempo_total r
  ∧ Forall (λ s, 0 ≤ tempo s) (segmentos r)
  ∧ (distancia_total r <= 300 * inject_Z (tempo_total r))%Q.
Proof.
  intros Hnn H.
  assert (∀ d, (0 <= d)%Q → (0 <= inject_Z (calculateWalkingTime d))%Q) as Hwalk.
  { intros d Hd. change 0%Q with (inject_Z 0). rewrite <- Zle_Qle.
    by apply calculateWalkingTime_nonneg. }
  built_cases H originLocation destinationLocation;
    cbn [distancia_total tempo_total segmentos].
  - pose proof (Hnn p co) as H1. pose proof (Hnn co cd) as H2.
    pose proof (Hnn q cd) as H3.
    pose proof (calculateWalkingTime_nonneg _ H1) as T1.
    pose proof (calculateBusTime_nonneg _ H2) as T2.
    pose proof (calculateWalkingTime_nonneg _ H3) as T3.
    split; [lra|]. split; [case_decide; lia|].
    split; [apply Forall_cons_2; [done|apply Forall_nil_2]|].
    assert (8 <= inject_Z (if decide (stop_type so = Some "main"%string)
                           then 8 else 12))%Q as Hwait
      by (case_decide; done).
    rewrite !inject_Z_plus.
    pose proof (calculateWalkingTime_ge (haversine p co)).
    pose proof (calculateBusTime_ge (haversine co cd)).
    pose proof (calculateWalkingTime_ge (haversine q cd)).
    pose proof (Hwalk _ H1). pose proof (Hwalk _ H3).
    opaque_inject. lra.
  - pose proof (Hnn p co) as H1. pose proof (Hnn co ct) as H2.
    pose proof (Hnn ct cd) as H3. pose proof (Hnn q cd) as H4.
    pose proof (calculateWalkingTime_nonneg _ H1) as T1.
    pose proof (calculateBusTime_nonneg _ H2) as T2.
    pose proof (calculateBusTime_nonneg _ H3) as T3.
    pose proof (calculateWalkingTime_nonneg _ H4) as T4.
    split; [lra|]. split; [lia|].
    split; [repeat (apply Forall_cons_2; [done|]); apply Forall_nil_2|].
    rewrite !inject_Z_plus.
    change (inject_Z 15) with 15%Q. change (inject_Z 12) with 12%Q.
    pose proof (calculateWalkingTime_ge (haversine p co)).
    pose proof (calculateBusTime_ge (haversine co ct)).
    pose proof (calculateBusTime_ge (haversine ct cd)).
    pose proof (calculateWalkingTime_ge (haversine q cd)).
    pose proof (Hwalk _ H1). pose proof (Hwalk _ H4).
    opaque_inject. lra.
  - pose proof (Hnn p q) as H1.
    split; [lra|]. split; [lia|].
    split; [apply Forall_cons_2; [cbn; lia|apply Forall_nil_2]|].
    rewrite !inject_Z_plus.
    change (inject_Z 8) with 8%Q. change (inject_Z 5) with 5%Q.
    change (inject_Z 10) with 10%Q.
    assert (inject_Z (Math_round (haversine p q / 300))
            <= inject_Z (25 `max` Math_round (haversine p q / 300)))%Q as Hmax
      by (rewrite <- Zle_Qle; lia).
    pose proof (Math_round_ge (haversine p q / 300)) as Hround.
    unfold Qdiv in *. change (/ 300)%Q with (1 # 300)%Q in *.
    opaque_inject. lra.
Qed.


(** ** The lines of the visible stops, each once *)

Lemma js_Set_from_sorted (suf pre seen : list string) :
  (∀ c, c ∈ seen ↔ c ∈ pre) →
  StronglySorted (firstBefore (pre ++ suf)) (js_Set_from seen suf)
  ∧ ∀ x, x ∈ js_Set_from seen suf → x ∉ pre.
Proof.
  revert pre seen. induction suf as [|y suf IH]; intros pre seen Hseen.
  - split; [constructor|]. by intros x ?%not_elem_of_nil.
  - cbn [js_Set_from].
    assert (pre ++ y :: suf = (pre ++ [y]) ++ suf) as -> by by rewrite <- app_assoc.
    destruct (decide (y ∈ seen)) as [Hin|Hout].
    + rewrite bool_decide_eq_true_2 by done.
      destruct (IH (pre ++ [y]) seen) as [Hsorted Hnew].
      { intros c. rewrite Hseen, elem_of_app, list_elem_of_singleton.
        split; [by left|]. intros [?| ->]; [done|]. by apply Hseen. }
      split; [done|]. intros x Hx. apply Hnew in Hx.
      by apply not_elem_of_app in Hx as [Hx _].
    + rewrite bool_decide_eq_false_2 by done.
      destruct (IH (pre ++ [y]) (y :: seen)) as [Hsorted Hnew].
      { intros c. rewrite elem_of_cons, Hseen, elem_of_app, list_elem_of_singleton.
        tauto. }
      split.
      * constructor; [done|]. apply Forall_forall. intros x Hx.
        apply Hnew in Hx. apply not_elem_of_app in Hx as [Hx _].
        exists pre, suf. split; [by rewrite <- app_assoc|done].
      * intros x [-> |Hx]%elem_of_cons.
        -- intros Hy. by apply Hout, Hseen.
        -- apply Hnew in Hx. by apply not_elem_of_app in Hx as [Hx _].
Qed.

Section unicas.
Context {Linha : Type} (codigo : Linha → string).

Lemma find_codigos (all : list Linha) (cs : list string) (ls : list Linha) :
  (λ c, List.find (λ linha, String.eqb (codigo linha) c) all) <$> cs = Some <$> ls →
  codigo <$> ls = cs.
Proof.
  revert ls. induction cs as [|c cs IH]; intros [|l ls] Heq; try done.
  rewrite !fmap_cons in Heq. injection Heq as Hfind Heq.
  apply find_some in Hfind as [_ Hc]. apply String.eqb_eq in Hc.
  rewrite fmap_cons. f_equal; [done|by apply IH].
Qed.

Lemma find_codigo_first (pre suf : list Linha) (x : Linha) :
  (∀ y, y ∈ pre → codigo y ≠ codigo x) →
  List.find (λ linha, String.eqb (codigo linha) (codigo x)) (pre ++ x :: suf) = Some x.
Proof.
  induction pre as [|y pre IH]; intros Hpre; simpl.
  - by rewrite String.eqb_refl.
  - destruct (String.eqb_spec (codigo y) (codigo x)) as [Heq|_].
    + by destruct (Hpre y); [left|].
    + apply IH. intros z Hz. apply Hpre. by right.
Qed.

Lemma first_of_codigo_unique (all : list Linha) (l l' : Linha) :
  codigo l = codigo l' →
  (∃ p s, all = p ++ l :: s ∧ ∀ x, x ∈ p → codigo x ≠ codigo l) →
  (∃ p s, all = p ++ l' :: s ∧ ∀ x, x ∈ p → codigo x ≠ codigo l') →
  l = l'.
Proof.
  intros Heq (p & s & Hall & Hp) (p' & s' & Hall' & Hp').
  pose proof (find_codigo_first p s l Hp) as Hl.
  pose proof (find_codigo_first p' s' l' Hp') as Hl'.
  rewrite <- Hall in Hl. rewrite <- Hall', <- Heq in Hl'. congruence.
Qed.

Lemma linhasUnicas_from (suf pre : list Linha) (seen : list string) :
  (∀ c, c ∈ seen ↔ c ∈ codigo <$> pre) →
  ∃ ls,
    (λ c, List.find (λ linha, String.eqb (codigo linha) c) (pre ++ suf))
      <$> js_Set_from seen (codigo <$> suf) = Some <$> ls
    ∧ NoDup (codigo <$> ls)
    ∧ (∀ l', l' ∈ ls → codigo l' ∉ seen)
    ∧ sublist ls suf
    ∧ (∀ l, l ∈ suf → codigo l ∈ seen ∨ ∃ l', l' ∈ ls ∧ codigo l' = codigo l)
    ∧ (∀ l', l' ∈ ls →
         ∃ p s, pre ++ suf = p ++ l' :: s ∧ ∀ x, x ∈ p → codigo x ≠ codigo l').
Proof.
  revert pre seen. induction suf as [|x suf IH]; intros pre seen Hseen.
  - exists []. simpl. split; [done|]. split; [constructor|].
    split; [by intros ? ?%not_elem_of_nil|]. split; [constructor|].
    split; by intros ? ?%not_elem_of_nil.
  - rewrite fmap_cons. cbn [js_Set_from].
    assert (pre ++ x :: suf = (pre ++ [x]) ++ suf) as Happ by by rewrite <- app_assoc.
    destruct (decide (codigo x ∈ seen)) as [Hin|Hout].
    + rewrite bool_decide_eq_true_2 by done.
      destruct (IH (pre ++ [x]) seen) as (ls & Hls & Hnodup & Hnew & Hsub & Hcov & Hfirst).
      { intros c. rewrite Hseen, fmap_app, elem_of_app. simpl.
        rewrite list_elem_of_singleton. split; [by left|].
        intros [?| ->]; [done|]. by apply Hseen. }
      exists ls. rewrite Happ. split; [done|]. split; [done|]. split; [done|].
      split; [by constructor|]. split; [|done].
      intros l [-> |Hl]%elem_of_cons; [by left|by apply Hcov].
    + rewrite bool_decide_eq_false_2 by done.
      destruct (IH (pre ++ [x]) (codigo x :: seen))
        as (ls & Hls & Hnodup & Hnew & Hsub & Hcov & Hfirst).
      { intros c. rewrite elem_of_cons, Hseen, fmap_app, elem_of_app. simpl.
        rewrite list_elem_of_singleton. tauto. }
      assert (∀ y, y ∈ pre → codigo y ≠ codigo x) as Hpre.
      { intros y Hy Heq. apply Hout, Hseen. rewrite <- Heq.
        apply list_elem_of_fmap. by exists y. }
      exists (x :: ls). rewrite !fmap_cons. split; [|split; [|split; [|split; [|split]]]].
      * f_equal; [by apply find_codigo_first|]. by rewrite Happ.
      * constructor; [|done]. intros (l' & Heq & Hl')%list_elem_of_fmap.
        apply (Hnew l' Hl'). rewrite <- Heq. by left.
      * intros l' [-> |Hl']%elem_of_cons; [done|].
        intros Hl. apply (Hnew l' Hl'). by right.
      * by constructor.
      * intros l [-> |Hl]%elem_of_cons.
        -- right. exists x. split; [by left|done].
        -- destruct (Hcov l Hl) as [[Heq|Hs]%elem_of_cons|(l' & Hl' & Heq)].
           ++ right. exists x. split; [by left|done].
           ++ by left.
           ++ right. exists l'. split; [by right|done].
      * intros l' [-> |Hl']%elem_of_cons.
        -- by exists pre, suf.
        -- rewrite Happ. by apply Hfirst.
Qed.
End unicas.

(** ** Stops out of reach *)

Lemma findNearbyStops_far_stop haversine (p : coord) (l1 l2 : list Stop) (s : Stop)
    (c : coord) (maxDistance : Q) (limit : Z) :
  coordinates s = Some c →
  ¬ (haversine p c <= maxDistance)%Q →
  findNearbyStops haversine (Some p) (l1 ++ s :: l2) maxDistance limit
  = findNearbyStops haversine (Some p) (l1 ++ l2) maxDistance limit.
Proof.
  intros Hc Hfar.
  destruct (decide (Forall (λ s' : Stop, is_Some (coordinates s')) (l1 ++ l2)))
    as [Hall|Hsome].
  - rewrite Forall_forall in Hall.
    assert (∀ s', s' ∈ l1 ++ s :: l2 → is_Some (coordinates s')) as Hall'.
    { intros s' [Hs'|[->|Hs']%elem_of_cons]%elem_of_app.
      - apply Hall, elem_of_app. by left.
      - by eexists.
      - apply Hall, elem_of_app. by right. }
    unfold findNearbyStops.
    rewrite (findNearbyStops_mapped haversine p (l1 ++ l2) Hall).
    rewrite (findNearbyStops_mapped haversine p (l1 ++ s :: l2) Hall').
    cbn [mbind option_bind]. rewrite !fmap_app, fmap_cons, !List.filter_app.
    cbn [List.filter].
    assert (Qle_bool (distance (annotate haversine p s)) maxDistance = false) as ->;
      [|done].
    unfold annotate. rewrite Hc. simpl.
    destruct (Qle_bool (haversine p c) maxDistance) eqn:Hle; [|done].
    by apply Qle_bool_iff in Hle.
  - apply not_Forall_Exists in Hsome; [|apply _].
    apply Exists_exists in Hsome as (s' & Hs' & Hnone).
    assert (coordinates s' = None) as Hnone'.
    { destruct (coordinates s') as [c'|] eqn:Hc'; [|done].
      destruct Hnone. rewrite Hc'. by eexists. }
    transitivity (@None (list NearbyStop)); [|symmetry];
      apply findNearbyStops_None; exists s'; (split; [|by right]); [|done].
    apply elem_of_app in Hs' as [?|?]; apply elem_of_app; [by left|by right; right].
Qed.

(** * Further properties, beyond the design document *)

(** ** [findNearbyStops] and [findNearbyStopsForLocation] *)

(** X1: [findNearbyStops] throws in two cases only: the catalog is not empty
    and the point searched from is missing, or some entry of the catalog,
    wherever it lies, has no coordinates.  The maximal distance and the limit
    play no part in it; and on an empty catalog the empty list is returned,
    even without a point. *)
Theorem findNearbyStops_throws (haversine : coord → coord → Q)
    (point : option coord) (busStops : list Stop) (maxDistance : Q) (limit : Z) :
  (findNearbyStops haversine point busStops maxDistance limit = None
   ↔ (point = None ∧ busStops ≠ [])
     ∨ ∃ s, s ∈ busStops ∧ coordinates s = None)
  ∧ findNearbyStops haversine point [] maxDistance limit = Some [].
Proof.
  split.
  - rewrite findNearbyStops_None. split.
    + intros (s & Hs & [Hp|Hc]).
      * left. split; [done|]. intros ->. by apply not_elem_of_nil in Hs.
      * right. by exists s.
    + intros [[Hp Hne]|(s & Hs & Hc)].
      * destruct busStops as [|s l]; [done|]. exists s. split; [by left|by left].
      * exists s. split; [done|by right].
  - unfold findNearbyStops, js_slice0. simpl.
    by destruct (limit <? 0), (Z.to_nat _).
Qed.

(** X2: stops that lie at one and the same distance from the point are
    returned in the order the catalog has them: for every distance [d], the
    returned stops at distance [d] are, in order, a subsequence of the
    catalog. *)
Theorem findNearbyStops_ties_keep_catalog_order (haversine : coord → coord → Q)
    (point : option coord) (busStops : list Stop) (maxDistance : Q) (limit : Z)
    (res : list NearbyStop) (d : Q) :
  findNearbyStops haversine point busStops maxDistance limit = Some res →
  sublist (ns_stop <$> List.filter (λ n : NearbyStop, Qeq_bool (distance n) d) res)
          busStops.
Proof.
  intros Hres.
  destruct (findNearbyStops_Some _ _ _ _ _ _ Hres) as [[_ ->]|(p & -> & Hcoords)].
  { apply sublist_nil_l. }
  unfold findNearbyStops in Hres.
  rewrite (findNearbyStops_mapped haversine p busStops Hcoords) in Hres.
  simpl in Hres. apply bind_Some in Hres as (sorted & Hs & Hres). injection Hres as <-.
  apply (js_sort_stable _ (λ n : NearbyStop, Qeq_bool (distance n) d)) in Hs.
  2: { intros a b Ha Hb [= Hc]. apply Qeq_bool_iff in Ha, Hb.
       apply Qgt_alt in Hc. lra. }
  transitivity (ns_stop <$> List.filter (λ n : NearbyStop, Qeq_bool (distance n) d) sorted).
  { apply fmap_sublist, List_filter_sublist_mono.
    unfold js_slice0. destruct (limit <? 0); apply sublist_take. }
  rewrite Hs. rewrite <- (fmap_ns_stop_annotate haversine p busStops) at 2.
  apply fmap_sublist. etrans; apply List_filter_sublist.
Qed.

Lemma findNearbyStops_ties_keep_catalog_order_witness :
  ∃ res,
    findNearbyStops meridianDistance (loc_coordinates crossOrigin) mirrorCatalog 3000 10
      = Some res
    ∧ (stop_id <$> (ns_stop <$> res))
      = ["cross-a"; "mirror-south"; "mirror-north"]%string
    ∧ sublist (ns_stop <$> List.filter
                 (λ n : NearbyStop, Qeq_bool (distance n) (222390 # 1000)) res)
              mirrorCatalog.
Proof.
  eexists. split; [by vm_compute|]. split; [by vm_compute|].
  apply (findNearbyStops_ties_keep_catalog_order meridianDistance
           (loc_coordinates crossOrigin) mirrorCatalog 3000 10).
  by vm_compute.
Defined.

(** X3: searching with a smaller maximal distance returns the stops of the
    wider search that lie within the smaller distance (for a limit that is
    not negative); they are the first stops of the wider result.  Both
    searches throw on the same inputs. *)
Theorem findNearbyStops_smaller_radius_is_prefix (haversine : coord → coord → Q)
    (point : option coord) (busStops : list Stop) (r1 r2 : Q) (limit : Z) :
  (r1 <= r2)%Q → 0 ≤ limit →
  findNearbyStops haversine point busStops r1 limit
  = List.filter (λ n : NearbyStop, Qle_bool (distance n) r1)
      <$> findNearbyStops haversine point busStops r2 limit
  ∧ ∀ res1 res2,
      findNearbyStops haversine point busStops r1 limit = Some res1 →
      findNearbyStops haversine point busStops r2 limit = Some res2 →
      res1 `prefix_of` res2.
Proof.
  intros Hr Hlimit.
  pose proof (findNearbyStops_smaller_radius haversine point busStops r1 r2 limit
                Hr Hlimit) as Heq.
  split; [done|]. intros res1 res2 H1 H2.
  rewrite H1, H2 in Heq. injection Heq as ->.
  apply within_prefix_sorted. by eapply findNearbyStops_sorted.
Qed.

Lemma findNearbyStops_smaller_radius_is_prefix_witness :
  findNearbyStops meridianDistance (loc_coordinates crossOrigin) mirrorCatalog 200 10
  = List.filter (λ n : NearbyStop, Qle_bool (distance n) 200)
      <$> findNearbyStops meridianDistance (loc_coordinates crossOrigin) mirrorCatalog
            3000 10
  ∧ ∀ res1 res2,
      findNearbyStops meridianDistance (loc_coordinates crossOrigin) mirrorCatalog 200 10
        = Some res1 →
      findNearbyStops meridianDistance (loc_coordinates crossOrigin) mirrorCatalog 3000 10
        = Some res2 →
      res1 `prefix_of` res2.
Proof.
  apply (findNearbyStops_smaller_radius_is_prefix meridianDistance
           (loc_coordinates crossOrigin) mirrorCatalog 200 3000 10).
  - by vm_compute.
  - lia.
Defined.

(** X4: [findNearbyStopsForLocation] searches the catalog given, or
    [mockBusStops] when none is given, within the distance given, or 1200 m
    when none is given.  For a distance of at most 3000 m its result is made
    of the stops that the route builders consider for the same location (the
    ten nearest within 3000 m) and that lie within that distance; it has at
    most ten stops, and it throws exactly when the builders' search does. *)
Theorem findNearbyStopsForLocation_of_builders (haversine : coord → coord → Q)
    (location : Location) (busStops : option (list Stop)) (maxDistance : option Q) :
  (default 1200 maxDistance <= 3000)%Q →
  findNearbyStopsForLocation haversine location busStops maxDistance
  = List.filter (λ n : NearbyStop, Qle_bool (distance n) (default 1200%Q maxDistance))
      <$> findNearbyStops haversine (loc_coordinates location)
            (default mockBusStops busStops) 3000 10
  ∧ ∀ res, findNearbyStopsForLocation haversine location busStops maxDistance = Some res →
      (length res ≤ 10)%nat.
Proof.
  intros Hr. unfold findNearbyStopsForLocation. split.
  - by apply findNearbyStops_smaller_radius.
  - intros res Hres. unfold findNearbyStops in Hres.
    apply bind_Some in Hres as (mapped & _ & Hres).
    apply bind_Some in Hres as (sorted & _ & Hres). injection Hres as <-.
    unfold js_slice0. simpl. rewrite length_take. lia.
Qed.

Lemma findNearbyStopsForLocation_of_builders_witness :
  findNearbyStopsForLocation meridianDistance crossOrigin (Some mirrorCatalog) None
  = List.filter (λ n : NearbyStop, Qle_bool (distance n) 1200)
      <$> findNearbyStops meridianDistance (loc_coordinates crossOrigin)
            mirrorCatalog 3000 10
  ∧ ∀ res, findNearbyStopsForLocation meridianDistance crossOrigin
             (Some mirrorCatalog) None = Some res →
      (length res ≤ 10)%nat.
Proof.
  apply (findNearbyStopsForLocation_of_builders meridianDistance crossOrigin
           (Some mirrorCatalog) None).
  by vm_compute.
Defined.

(** ** The direct builder *)

(** X5: on a catalog whose entries all carry coordinates and lines, and for
    two locations that carry coordinates, [calculateDirectRoute] does not
    throw, and it returns a route exactly when some stop lies within 3000 m
    of the origin and some stop lies within 3000 m of the destination;
    whether a bus line joins the two plays no part in it. *)
Theorem calculateDirectRoute_offered (haversine : coord → coord → Q)
    (originLocation destinationLocation : Location) (busStops : list Stop)
    (co cd : coord) :
  Forall complete busStops →
  loc_coordinates originLocation = Some co →
  loc_coordinates destinationLocation = Some cd →
  ∃ res,
    calculateDirectRoute haversine originLocation destinationLocation busStops = Some res
    ∧ (is_Some res ↔
       (∃ s, reachable haversine co 3000 busStops s)
       ∧ (∃ s, reachable haversine cd 3000 busStops s)).
Proof. apply calculateDirectRoute_complete. Qed.

Lemma calculateDirectRoute_offered_witness :
  ∃ res,
    calculateDirectRoute meridianDistance crossOrigin crossDestination crossCatalog
      = Some res
    ∧ (is_Some res ↔
       (∃ s, reachable meridianDistance (onMeridian (-158000 # 10000)) 3000 crossCatalog s)
       ∧ (∃ s, reachable meridianDistance (onMeridian (-157910 # 10000)) 3000
                 crossCatalog s)).
Proof.
  apply (calculateDirectRoute_offered meridianDistance crossOrigin crossDestination
           crossCatalog).
  - apply crossCatalog_complete.
  - reflexivity.
  - reflexivity.
Defined.

(** X6: a route that [calculateDirectRoute] returns has one segment, from
    the catalog stop nearest to the origin to the catalog stop nearest to
    the destination (each nearer than every other entry of the catalog, and
    within 3000 m).  The line of the segment is a line that both stops
    have, or, when they have no line in common, the placeholder 0.999: the
    builder never goes on to a second pair of stops. *)
Theorem calculateDirectRoute_boards_nearest (haversine : coord → coord → Q)
    (originLocation destinationLocation : Location) (busStops : list Stop)
    (r : Route) :
  calculateDirectRoute haversine originLocation destinationLocation busStops
    = Some (Some r) →
  ∃ co cd (os ds : NearbyStop) seg,
    loc_coordinates originLocation = Some co
    ∧ loc_coordinates destinationLocation = Some cd
    ∧ segmentos r = [seg]
    ∧ paradaOrigem seg = Annotated os ∧ paradaDestino seg = Annotated ds
    ∧ nearest haversine co busStops os ∧ (distance os <= 3000)%Q
    ∧ nearest haversine cd busStops ds ∧ (distance ds <= 3000)%Q
    ∧ (commonLine os ds (linha seg)
       ∨ (linha seg = "0.999"%string ∧ ∀ line, ¬ commonLine os ds line)).
Proof.
  unfold calculateDirectRoute. intros H.
  apply bind_Some in H as (origins & Horigins & H).
  apply bind_Some in H as (dests & Hdests & H).
  apply directOuter_Some in H as (os & no & ds & nd & line0 & ls & -> & -> & Hl & Hb).
  apply findNearbyStops_head in Horigins as (co & Ho & Hos & Hole).
  apply findNearbyStops_head in Hdests as (cd & Hd & Hds & Hdle).
  unfold buildDirectRoute in Hb.
  apply bind_Some in Hb as (busDistance & _ & Hb).
  apply bind_Some in Hb as (stopCount & _ & Hb). injection Hb as <-.
  eexists co, cd, os, ds, _. simpl.
  repeat (split; [done|]).
  apply findConnectingLines_head in Hl as [Hc|(-> & _ & Hnone)]; [by left|by right].
Qed.

Lemma calculateDirectRoute_boards_nearest_witness :
  ∃ r,
    calculateDirectRoute meridianDistance crossOrigin crossDestination crossCatalog
      = Some (Some r)
    ∧ ∃ co cd (os ds : NearbyStop) seg,
        loc_coordinates crossOrigin = Some co
        ∧ loc_coordinates crossDestination = Some cd
        ∧ segmentos r = [seg]
        ∧ paradaOrigem seg = Annotated os ∧ paradaDestino seg = Annotated ds
        ∧ nearest meridianDistance co crossCatalog os ∧ (distance os <= 3000)%Q
        ∧ nearest meridianDistance cd crossCatalog ds ∧ (distance ds <= 3000)%Q
        ∧ (commonLine os ds (linha seg)
           ∨ (linha seg = "0.999"%string ∧ ∀ line, ¬ commonLine os ds line)).
Proof.
  eexists. split; [by vm_compute|].
  apply (calculateDirectRoute_boards_nearest meridianDistance crossOrigin
           crossDestination crossCatalog).
  by vm_compute.
Defined.

(** ** The transfer builder *)

(** X7: a route that [calculateRouteWithTransfer] returns has two segments
    that meet at a terminal, and that terminal is the first terminal of the
    catalog (the first entry of type 'main' with four lines or more),
    wherever it lies and whatever lines it has; the route starts at the
    catalog stop nearest to the origin and ends at the one nearest to the
    destination.  No second terminal and no second pair of stops is tried. *)
Theorem calculateRouteWithTransfer_first_terminal (haversine : coord → coord → Q)
    (originLocation destinationLocation : Location) (busStops : list Stop)
    (r : Route) :
  calculateRouteWithTransfer haversine originLocation destinationLocation busStops
    = Some (Some r) →
  ∃ co cd (os ds : NearbyStop) (t : Stop) ts s1 s2,
    loc_coordinates originLocation = Some co
    ∧ loc_coordinates destinationLocation = Some cd
    ∧ segmentos r = [s1; s2]
    ∧ paradaOrigem s1 = Annotated os ∧ paradaDestino s1 = Plain t
    ∧ paradaOrigem s2 = Plain t ∧ paradaDestino s2 = Annotated ds
    ∧ nearest haversine co busStops os ∧ nearest haversine cd busStops ds
    ∧ List.filter isTerminal busStops = t :: ts.
Proof.
  unfold calculateRouteWithTransfer. intros H.
  apply bind_Some in H as (origins & Horigins & H).
  apply bind_Some in H as (dests & Hdests & H).
  apply bind_Some in H as (terminals & Hterminals & H).
  apply transferOuter_first in H
    as (os & no & ds & nd & t & ts & f0 & fl & s0 & sl & -> & -> & -> & _ & _ & Hb).
  apply findNearbyStops_head in Horigins as (co & Ho & Hos & _).
  apply findNearbyStops_head in Hdests as (cd & Hd & Hds & _).
  apply terminalStops_Some in Hterminals.
  unfold buildTransferRoute in Hb.
  apply bind_Some in Hb as (leg1 & _ & Hb). apply bind_Some in Hb as (leg2 & _ & Hb).
  apply bind_Some in Hb as (p1 & _ & Hb). apply bind_Some in Hb as (p2 & _ & Hb).
  injection Hb as <-.
  eexists co, cd, os, ds, t, ts, _, _. simpl. by repeat (split; [done|]).
Qed.

Lemma calculateRouteWithTransfer_first_terminal_witness :
  ∃ r,
    calculateRouteWithTransfer meridianDistance tieOrigin tieDestination transferCatalog
      = Some (Some r)
    ∧ ∃ co cd (os ds : NearbyStop) (t : Stop) ts s1 s2,
        loc_coordinates tieOrigin = Some co
        ∧ loc_coordinates tieDestination = Some cd
        ∧ segmentos r = [s1; s2]
        ∧ paradaOrigem s1 = Annotated os ∧ paradaDestino s1 = Plain t
        ∧ paradaOrigem s2 = Plain t ∧ paradaDestino s2 = Annotated ds
        ∧ nearest meridianDistance co transferCatalog os
        ∧ nearest meridianDistance cd transferCatalog ds
        ∧ List.filter isTerminal transferCatalog = t :: ts.
Proof.
  eexists. split; [by vm_compute|].
  apply (calculateRouteWithTransfer_first_terminal meridianDistance tieOrigin
           tieDestination transferCatalog).
  by vm_compute.
Defined.

(** X8: on a catalog whose entries all carry coordinates and lines, and for
    two locations that carry coordinates, [calculateRouteWithTransfer] does
    not throw, and it returns a route exactly when some stop lies within
    3000 m of the origin, some stop lies within 3000 m of the destination,
    and the catalog has a terminal. *)
Theorem calculateRouteWithTransfer_offered (haversine : coord → coord → Q)
    (originLocation destinationLocation : Location) (busStops : list Stop)
    (co cd : coord) :
  Forall complete busStops →
  loc_coordinates originLocation = Some co →
  loc_coordinates destinationLocation = Some cd →
  ∃ res,
    calculateRouteWithTransfer haversine originLocation destinationLocation busStops
      = Some res
    ∧ (is_Some res ↔
       (∃ s, reachable haversine co 3000 busStops s)
       ∧ (∃ s, reachable haversine cd 3000 busStops s)
       ∧ ∃ s, s ∈ busStops ∧ isTerminal s = true).
Proof.
  intros Hok Ho Hd.
  assert (∀ s, s ∈ busStops → is_Some (coordinates s)) as Hcoords.
  { intros s Hs. rewrite Forall_forall in Hok. by apply Hok. }
  unfold calculateRouteWithTransfer. rewrite Ho, Hd.
  destruct (findNearbyStops_is_Some haversine co busStops 3000 10 Hcoords)
    as [origins Horigins].
  destruct (findNearbyStops_is_Some haversine cd busStops 3000 10 Hcoords)
    as [dests Hdests].
  rewrite Horigins, Hdests. simpl.
  rewrite terminalStops_filter.
  2: { intros s Hs _. rewrite Forall_forall in Hok. by apply Hok. }
  simpl.
  pose proof (findNearbyStops_cons_iff haversine co busStops 3000 10 origins
                ltac:(lia) Horigins) as HO.
  pose proof (findNearbyStops_cons_iff haversine cd busStops 3000 10 dests
                ltac:(lia) Hdests) as HD.
  assert (List.filter isTerminal busStops ≠ []
          ↔ ∃ s, s ∈ busStops ∧ isTerminal s = true) as HT.
  { split.
    - destruct (List.filter isTerminal busStops) as [|t ts] eqn:Hf; [done|].
      intros _. exists t. apply elem_of_List_filter. rewrite Hf. by left.
    - intros (s & Hs & Ht) Hnil.
      assert (s ∈ List.filter isTerminal busStops) as Hin
        by by apply elem_of_List_filter.
      rewrite Hnil in Hin. by apply not_elem_of_nil in Hin. }
  destruct (List.filter isTerminal busStops) as [|t ts] eqn:Hf.
  { rewrite transferOuter_no_terminals. exists None. split; [done|].
    split; [by intros [? [=]]|]. intros (_ & _ & Hr). by apply HT in Hr. }
  destruct dests as [|ds nd].
  { rewrite transferOuter_no_dests. exists None. split; [done|].
    split; [by intros [? [=]]|]. intros (_ & Hr & _). by apply HD in Hr. }
  destruct origins as [|os no].
  { exists None. split; [done|].
    split; [by intros [? [=]]|]. intros (Hr & _). by apply HO in Hr. }
  destruct (transferOuter_complete haversine originLocation destinationLocation
              os no ds nd t ts) as [r Hr].
  - eapply findNearbyStops_complete; [exact Hok|exact Horigins|by left].
  - eapply findNearbyStops_complete; [exact Hok|exact Hdests|by left].
  - rewrite Forall_forall in Hok. apply Hok.
    assert (t ∈ List.filter isTerminal busStops) as Hin by (rewrite Hf; by left).
    by apply elem_of_List_filter in Hin as [? _].
  - exists (Some r). split; [done|]. split; [|by eexists].
    intros _. split; [by apply HO|]. split; [by apply HD|by apply HT].
Qed.

Lemma calculateRouteWithTransfer_offered_witness :
  ∃ res,
    calculateRouteWithTransfer meridianDistance tieOrigin tieDestination transferCatalog
      = Some res
    ∧ (is_Some res ↔
       (∃ s, reachable meridianDistance (onMeridian (-158000 # 10000)) 3000
               transferCatalog s)
       ∧ (∃ s, reachable meridianDistance (onMeridian (-157460 # 10000)) 3000
                 transferCatalog s)
       ∧ ∃ s, s ∈ transferCatalog ∧ isTerminal s = true).
Proof.
  apply (calculateRouteWithTransfer_offered meridianDistance tieOrigin tieDestination
           transferCatalog).
  - apply transferCatalog_complete.
  - reflexivity.
  - reflexivity.
Defined.

(** ** Invariants of the routes the builders return *)

(** X9: every route that [calculateDirectRoute],
    [calculateRouteWithTransfer] or [createExampleRoute] returns carries the
    two locations it was asked for, has one segment more than it has
    transfers, costs one fare of 4.50 per segment, has consecutive segments
    that meet at one stop, and counts at least two stops on every segment. *)
Theorem built_route_shape (haversine : coord → coord → Q)
    (originLocation destinationLocation : Location) (busStops : list Stop)
    (r : Route) :
  built haversine originLocation destinationLocation busStops r →
  origem r = originLocation ∧ destino r = destinationLocation
  ∧ Z.of_nat (length (segmentos r)) = transferencias r + 1
  ∧ (custo_total r == (9 # 2) * inject_Z (transferencias r + 1))%Q
  ∧ chained (segmentos r)
  ∧ Forall (λ s, 2 ≤ paradas s) (segmentos r).
Proof.
  intros H. built_cases H originLocation destinationLocation; cbn -[Z.max Math_round].
  all: repeat (split; [done|]).
  all: repeat (apply Forall_cons_2; [cbn -[Z.max Math_round]; lia|]).
  all: apply Forall_nil_2.
Qed.

Lemma built_route_shape_witness :
  ∃ r,
    calculateRouteWithTransfer meridianDistance tieOrigin tieDestination transferCatalog
      = Some (Some r)
    ∧ origem r = tieOrigin ∧ destino r = tieDestination
    ∧ Z.of_nat (length (segmentos r)) = transferencias r + 1
    ∧ (custo_total r == (9 # 2) * inject_Z (transferencias r + 1))%Q
    ∧ chained (segmentos r)
    ∧ Forall (λ s, 2 ≤ paradas s) (segmentos r).
Proof.
  eexists. split; [by vm_compute|].
  apply (built_route_shape meridianDistance tieOrigin tieDestination transferCatalog).
  right. left. by vm_compute.
Defined.

(** X10: every walk recorded on a segment of a route that a builder returns
    is longer than 50 m, takes at least one minute, and is not faster than
    80 m per minute; shorter walks are not recorded at all. *)
Theorem built_route_walks (haversine : coord → coord → Q)
    (originLocation destinationLocation : Location) (busStops : list Stop)
    (r : Route) :
  built haversine originLocation destinationLocation busStops r →
  Forall (λ w, (50 < w_distancia w)%Q ∧ 1 ≤ w_tempo w
               ∧ (w_distancia w <= 80 * inject_Z (w_tempo w))%Q)
         (recordedWalks r).
Proof.
  assert (∀ d, Forall (λ w, (50 < w_distancia w)%Q ∧ 1 ≤ w_tempo w
                             ∧ (w_distancia w <= 80 * inject_Z (w_tempo w))%Q)
                 (option_list (walkLeg d (calculateWalkingTime d)))) as Hleg.
  { intros d. unfold walkLeg. destruct (Qlt_le_dec 50 d); simpl; [|constructor].
    apply Forall_cons_2; [|constructor]. simpl.
    split; [done|]. split; [by apply calculateWalkingTime_pos|].
    apply calculateWalkingTime_ge. }
  intros H. built_cases H originLocation destinationLocation;
    unfold recordedWalks; cbn [segmentos flat_map caminhadaInicial caminhadaFinal].
  - rewrite app_nil_r. apply Forall_app. split; apply Hleg.
  - cbn [option_list]. rewrite !app_nil_r. cbn [app]. apply Forall_app. split; apply Hleg.
  - cbn [option_list app].
    repeat (apply Forall_cons_2; [cbn; split; [done|split; [lia|done]]|]).
    apply Forall_nil_2.
Qed.

Lemma built_route_walks_witness :
  ∃ r,
    calculateDirectRoute meridianDistance tieOrigin tieDestination shortWalkCatalog
      = Some (Some r)
    ∧ length (recordedWalks r) = 1%nat
    ∧ Forall (λ w, (50 < w_distancia w)%Q ∧ 1 ≤ w_tempo w
                   ∧ (w_distancia w <= 80 * inject_Z (w_tempo w))%Q)
             (recordedWalks r).
Proof.
  eexists. split; [by vm_compute|]. split; [by vm_compute|].
  apply (built_route_walks meridianDistance tieOrigin tieDestination shortWalkCatalog).
  left. by vm_compute.
Defined.

(** X11: when no distance is negative, every route that a builder returns
    has a total distance that is not negative, a total time of at least 8
    minutes, no segment with a negative time, and it is never faster overall
    than a bus: the total distance is at most 300 m for each minute of the
    total time. *)
Theorem built_route_bounds (haversine : coord → coord → Q)
    (originLocation destinationLocation : Location) (busStops : list Stop)
    (r : Route) :
  (∀ a b, (0 <= haversine a b)%Q) →
  built haversine originLocation destinationLocation busStops r →
  (0 <= distancia_total r)%Q
  ∧ 8 ≤ tempo_total r
  ∧ Forall (λ s, 0 ≤ tempo s) (segmentos r)
  ∧ (distancia_total r <= 300 * inject_Z (tempo_total r))%Q.
Proof. apply built_bounds. Qed.

Lemma built_route_bounds_witness :
  ∃ r,
    calculateDirectRoute meridianDistance tieOrigin tieDestination tieCatalog
      = Some (Some r)
    ∧ (0 <= distancia_total r)%Q
    ∧ 8 ≤ tempo_total r
    ∧ Forall (λ s, 0 ≤ tempo s) (segmentos r)
    ∧ (distancia_total r <= 300 * inject_Z (tempo_total r))%Q.
Proof.
  eexists. split; [by vm_compute|].
  apply (built_route_bounds meridianDistance tieOrigin tieDestination tieCatalog).
  - apply meridianDistance_nonneg.
  - left. by vm_compute.
Defined.

(** X12: when the distance function obeys the triangle inequality, a route
    with a transfer is never better than the direct route between the same
    two locations: both start and end at the same two stops, the transfer
    route takes at least 15 minutes more, is at least as long, and costs
    twice as much. *)
Theorem transfer_never_beats_direct (haversine : coord → coord → Q)
    (originLocation destinationLocation : Location) (busStops : list Stop)
    (rd rt : Route) :
  (∀ a b c, (haversine a c <= haversine a b + haversine b c)%Q) →
  calculateDirectRoute haversine originLocation destinationLocation busStops
    = Some (Some rd) →
  calculateRouteWithTransfer haversine originLocation destinationLocation busStops
    = Some (Some rt) →
  tempo_total rd + 15 ≤ tempo_total rt
  ∧ (distancia_total rd <= distancia_total rt)%Q
  ∧ (custo_total rt == 2 * custo_total rd)%Q
  ∧ (paradaOrigem <$> head (segmentos rd)) = (paradaOrigem <$> head (segmentos rt))
  ∧ (paradaDestino <$> last (segmentos rd)) = (paradaDestino <$> last (segmentos rt)).
Proof.
  intros Htri Hd Ht.
  unfold calculateDirectRoute in Hd. unfold calculateRouteWithTransfer in Ht.
  apply bind_Some in Hd as (origins & Horigins & Hd).
  apply bind_Some in Hd as (dests & Hdests & Hd).
  rewrite Horigins, Hdests in Ht. cbn [mbind option_bind] in Ht.
  apply bind_Some in Ht as (terminals & _ & Ht).
  apply directOuter_Some in Hd as (os & no & ds & nd & line0 & ls & -> & -> & _ & Hbd).
  apply transferOuter_first in Ht
    as (os' & no' & ds' & nd' & t & ts & f0 & fl & s0 & sl & [= <- <-] & [= <- <-]
        & _ & _ & _ & Hbt).
  unfold buildDirectRoute, estimateStopCount in Hbd.
  unfold buildTransferRoute, estimateStopCount in Hbt.
  destruct (coordinates os) as [co|]; [|done].
  destruct (coordinates ds) as [cd|]; [|done].
  destruct (coordinates t) as [ct|]; [|done].
  cbn [calculateDistance mbind option_bind] in Hbd, Hbt.
  injection Hbd as <-. injection Hbt as <-.
  cbn [tempo_total distancia_total custo_total segmentos head last fmap option_fmap
       option_map paradaOrigem paradaDestino].
  pose proof (Htri co ct cd) as Hleg.
  pose proof (calculateBusTime_legs _ _ _ Hleg) as Htime.
  split; [case_decide; lia|]. split; [lra|]. split; [done|]. done.
Qed.

Lemma transfer_never_beats_direct_witness :
  ∃ rd rt,
    calculateDirectRoute meridianDistance tieOrigin tieDestination transferCatalog
      = Some (Some rd)
    ∧ calculateRouteWithTransfer meridianDistance tieOrigin tieDestination
        transferCatalog = Some (Some rt)
    ∧ tempo_total rd + 15 ≤ tempo_total rt
    ∧ (distancia_total rd <= distancia_total rt)%Q
    ∧ (custo_total rt == 2 * custo_total rd)%Q
    ∧ (paradaOrigem <$> head (segmentos rd)) = (paradaOrigem <$> head (segmentos rt))
    ∧ (paradaDestino <$> last (segmentos rd)) = (paradaDestino <$> last (segmentos rt)).
Proof.
  do 2 eexists. split; [by vm_compute|]. split; [by vm_compute|].
  apply (transfer_never_beats_direct meridianDistance tieOrigin tieDestination
           transferCatalog).
  - apply meridianDistance_triangle.
  - by vm_compute.
  - by vm_compute.
Defined.

(** ** The orchestrator *)

(** X13: on a catalog whose entries all carry coordinates and lines, and for
    two locations that carry coordinates, the [try] block of
    [calculateRoutes] runs to its end (the [catch] block is not entered).
    The routes returned are the example route and, exactly when some stop
    lies within 3000 m of the origin and some stop within 3000 m of the
    destination, one direct route; no entry is [null]. *)
Theorem calculateRoutes_on_complete_catalog (haversine : coord → coord → Q)
    (originLocation destinationLocation : Location) (busStops : list Stop)
    (co cd : coord) :
  Forall complete busStops →
  loc_coordinates originLocation = Some co →
  loc_coordinates destinationLocation = Some cd →
  ∃ e res rs,
    createExampleRoute haversine originLocation destinationLocation busStops
      = Some (Some e)
    ∧ calculateDirectRoute haversine originLocation destinationLocation busStops
      = Some res
    ∧ calculateRoutes_try haversine originLocation destinationLocation busStops
      = Some rs
    ∧ calculateRoutes haversine originLocation destinationLocation busStops = Some rs
    ∧ rs ≡ₚ Some e :: match res with Some dr => [Some dr] | None => [] end
    ∧ (length rs = 2%nat ↔
       (∃ s, reachable haversine co 3000 busStops s)
       ∧ (∃ s, reachable haversine cd 3000 busStops s)).
Proof.
  intros Hok Ho Hd.
  destruct (calculateRoutes_complete haversine originLocation destinationLocation
              busStops co cd Hok Ho Hd) as (e & res & rs & He & Hres & Htry & Hrs & Hperm).
  exists e, res, rs. repeat (split; [done|]).
  destruct (calculateDirectRoute_complete haversine originLocation destinationLocation
              busStops co cd Hok Ho Hd) as (res' & Hres' & Hiff).
  rewrite Hres in Hres'. injection Hres' as <-.
  rewrite <- Hiff, Hperm. destruct res as [dr|]; simpl.
  - split; [by eexists|done].
  - split; [done|by intros [? [=]]].
Qed.

Lemma calculateRoutes_on_complete_catalog_witness :
  ∃ e res rs,
    createExampleRoute meridianDistance crossOrigin crossDestination crossCatalog
      = Some (Some e)
    ∧ calculateDirectRoute meridianDistance crossOrigin crossDestination crossCatalog
      = Some res
    ∧ calculateRoutes_try meridianDistance crossOrigin crossDestination crossCatalog
      = Some rs
    ∧ calculateRoutes meridianDistance crossOrigin crossDestination crossCatalog
      = Some rs
    ∧ rs ≡ₚ Some e :: match res with Some dr => [Some dr] | None => [] end
    ∧ (length rs = 2%nat ↔
       (∃ s, reachable meridianDistance (onMeridian (-158000 # 10000)) 3000
               crossCatalog s)
       ∧ (∃ s, reachable meridianDistance (onMeridian (-157910 # 10000)) 3000
                 crossCatalog s)).
Proof.
  apply (calculateRoutes_on_complete_catalog meridianDistance crossOrigin
           crossDestination crossCatalog).
  - apply crossCatalog_complete.
  - reflexivity.
  - reflexivity.
Defined.

(** X14: one catalog entry without coordinates, wherever it lies, makes
    [calculateDirectRoute] throw; [calculateRoutes] then returns the example
    route alone, for two locations that carry coordinates: every direct
    route is lost, without an error reaching the caller. *)
Theorem calculateRoutes_degraded_catalog (haversine : coord → coord → Q)
    (originLocation destinationLocation : Location) (busStops : list Stop)
    (co cd : coord) (s : Stop) :
  loc_coordinates originLocation = Some co →
  loc_coordinates destinationLocation = Some cd →
  s ∈ busStops → coordinates s = None →
  ∃ e,
    createExampleRoute haversine originLocation destinationLocation busStops
      = Some (Some e)
    ∧ calculateDirectRoute haversine originLocation destinationLocation busStops = None
    ∧ calculateRoutes haversine originLocation destinationLocation busStops
      = Some [Some e].
Proof.
  intros Ho Hd Hs Hc.
  destruct (createExampleRoute_with_coordinates haversine originLocation
              destinationLocation busStops co cd Ho Hd) as [e He].
  exists e. split; [done|].
  assert (calculateDirectRoute haversine originLocation destinationLocation busStops
          = None) as Hdirect.
  { unfold calculateDirectRoute.
    assert (findNearbyStops haversine (loc_coordinates originLocation) busStops 3000 10
            = None) as ->; [|done].
    apply findNearbyStops_None. exists s. split; [done|by right]. }
  split; [done|].
  unfold calculateRoutes, calculateRoutes_try, calculateRoutes_catch.
  by rewrite He, Hdirect.
Qed.

Lemma calculateRoutes_degraded_catalog_witness :
  ∃ e,
    createExampleRoute meridianDistance crossOrigin crossDestination degradedCatalog
      = Some (Some e)
    ∧ calculateDirectRoute meridianDistance crossOrigin crossDestination degradedCatalog
      = None
    ∧ calculateRoutes meridianDistance crossOrigin crossDestination degradedCatalog
      = Some [Some e].
Proof.
  apply (calculateRoutes_degraded_catalog meridianDistance crossOrigin crossDestination
           degradedCatalog (onMeridian (-158000 # 10000)) (onMeridian (-157910 # 10000))
           unlocatedStop).
  - reflexivity.
  - reflexivity.
  - apply list_elem_of_In. simpl. auto.
  - reflexivity.
Defined.

(** ** Connecting lines and terminals *)

(** X15: [findConnectingLines] throws in two cases only: the origin stop has
    no [lines], or it has at least one line and the destination stop has no
    [lines].  An origin stop with an empty [lines] array never reads the
    destination's, and the call returns the placeholder. *)
Theorem findConnectingLines_throws (originStop destinationStop : Stop) :
  (findConnectingLines originStop destinationStop = None
   ↔ lines originStop = None
     ∨ ∃ line la, lines originStop = Some (line :: la)
                  ∧ lines destinationStop = None)
  ∧ (lines originStop = Some [] →
     findConnectingLines originStop destinationStop = Some ["0.999"%string]).
Proof.
  split; [apply findConnectingLines_None|].
  intros Ha. unfold findConnectingLines. by rewrite Ha.
Qed.

(** X16: for two stops that carry [lines], the codes that
    [findConnectingLines] returns do not depend on which of the two is the
    origin: the two results have the same members (their order and the
    number of repetitions follow the first argument). *)
Theorem findConnectingLines_symmetric (a b : Stop) (la lb : list string) :
  lines a = Some la → lines b = Some lb →
  ∃ rab rba,
    findConnectingLines a b = Some rab
    ∧ findConnectingLines b a = Some rba
    ∧ ∀ line, line ∈ rab ↔ line ∈ rba.
Proof.
  intros Ha Hb.
  rewrite (findConnectingLines_Some a b la lb Ha Hb).
  rewrite (findConnectingLines_Some b a lb la Hb Ha). cbv zeta.
  do 2 eexists. split; [done|]. split; [done|].
  assert (∀ line, line ∈ List.filter (λ line, existsb (String.eqb line) lb) la
                  ↔ line ∈ List.filter (λ line, existsb (String.eqb line) la) lb)
    as Hsame.
  { intros line. rewrite !elem_of_List_filter, !existsb_eqb_elem_of. tauto. }
  destruct (List.filter _ la) as [|x xs] eqn:Hab;
    destruct (List.filter _ lb) as [|y ys] eqn:Hba; simpl.
  - done.
  - exfalso. assert (y ∈ @nil string) as Hy by (apply Hsame; by left).
    by apply not_elem_of_nil in Hy.
  - exfalso. assert (x ∈ @nil string) as Hx by (apply Hsame; by left).
    by apply not_elem_of_nil in Hx.
  - exact Hsame.
Qed.

Lemma findConnectingLines_symmetric_witness :
  ∃ rab rba,
    findConnectingLines stopDesc1 stopDesc2 = Some rab
    ∧ findConnectingLines stopDesc2 stopDesc1 = Some rba
    ∧ ∀ line, line ∈ rab ↔ line ∈ rba.
Proof.
  apply (findConnectingLines_symmetric stopDesc1 stopDesc2
           ["0.140"; "0.111"]%string ["0.111"; "0.140"]%string).
  - reflexivity.
  - reflexivity.
Defined.

(** X17: the terminal filter of [calculateRouteWithTransfer] throws exactly
    when some entry of the catalog is of type 'main' and has no [lines]; a
    missing [lines] on a stop of any other type is never read.  When the
    filter throws, so does [calculateRouteWithTransfer], unless one of the
    two searches for nearby stops has thrown before it. *)
Theorem terminalStops_throws (haversine : coord → coord → Q)
    (originLocation destinationLocation : Location) (busStops : list Stop) :
  (terminalStops busStops = None
   ↔ ∃ s, s ∈ busStops ∧ stop_type s = Some "main"%string ∧ lines s = None)
  ∧ (terminalStops busStops = None →
     calculateRouteWithTransfer haversine originLocation destinationLocation busStops
     = None).
Proof.
  split; [apply terminalStops_None|].
  intros Hnone. unfold calculateRouteWithTransfer.
  destruct (findNearbyStops haversine (loc_coordinates originLocation) busStops 3000 10);
    simpl; [|done].
  destruct (findNearbyStops haversine (loc_coordinates destinationLocation) busStops
              3000 10); simpl; [|done].
  by rewrite Hnone.
Qed.

(** ** The results page *)

(** X18: what the results page shows once [fetchRoutes] has run for a search
    with an origin and a destination.  The spinner is gone and no navigation
    has been asked for.  When both locations carry coordinates the page
    lists the routes that [calculateRoutes] finds in [mockBusStops]: the
    example route and, if there is one, the direct route, and no error is
    set.  When a location has no coordinates the page shows the error box
    with the message "Nenhuma rota encontrada ..." and no route.  The "no
    route" box and the message of the [catch] block are never shown. *)
Theorem fetchRoutes_outcome (haversine : coord → coord → Q)
    (origem destino : Location) (st0 : PageState) :
  let searchData := Some (mkSearchData (Some origem) (Some destino)) in
  let st := fetchRoutes haversine searchData st0 in
  st_isLoading st = false
  ∧ st_navigated st = st_navigated st0
  ∧ st_selectedRoute st = st_selectedRoute st0 ∧ st_showMap st = st_showMap st0
  ∧ ((∃ co cd e res,
        loc_coordinates origem = Some co ∧ loc_coordinates destino = Some cd
        ∧ createExampleRoute haversine origem destino mockBusStops = Some (Some e)
        ∧ calculateDirectRoute haversine origem destino mockBusStops = Some res
        ∧ st_routes st ≡ₚ Some e :: match res with Some dr => [Some dr] | None => [] end
        ∧ st_error st = None
        ∧ RouteResultsPage searchData st
          = Some (Some (RoutesSection (st_routes st)
                          (if st_showMap st0 then st_selectedRoute st0 else None))))
     ∨ ((loc_coordinates origem = None ∨ loc_coordinates destino = None)
        ∧ st_routes st = []
        ∧ RouteResultsPage searchData st
          = Some (Some (ErrorState "Nenhuma rota encontrada entre os pontos selecionados. Tente locais mais próximos.")))).
Proof.
  intros searchData st. subst searchData st.
  unfold fetchRoutes, calculateRoutes_call.
  destruct (calculateRoutes_on_mockBusStops haversine origem destino)
    as [(co & cd & e & res & rs & Ho & Hd & He & Hres & -> & Hperm)|[Hmiss ->]].
  - assert (length rs ≠ 0%nat) as Hlen by (rewrite Hperm; done).
    destruct rs as [|r rs]; [done|]. cbn.
    repeat (split; [done|]). left. exists co, cd, e, res. by repeat (split; [done|]).
  - cbn. repeat (split; [done|]). right. done.
Qed.

(** X19: repeating the search from the error box cannot find anything new:
    [handleRetrySearch] calls [calculateRoutes] with the arguments of
    [fetchRoutes], so the routes of the page stay as they were, the spinner
    is gone again, and an error stays an error; only its message changes,
    to "Ainda não foi possível ...". *)
Theorem handleRetrySearch_same_routes (haversine : coord → coord → Q)
    (origem destino : Location) (st0 : PageState) :
  let searchData := Some (mkSearchData (Some origem) (Some destino)) in
  let st := fetchRoutes haversine searchData st0 in
  let st' := handleRetrySearch haversine searchData st in
  st_routes st' = st_routes st
  ∧ st_isLoading st' = false
  ∧ (st_error st = None → st' = st)
  ∧ (st_error st ≠ None →
     st_error st' = Some "Ainda não foi possível encontrar rotas. Considere pontos de origem e destino diferentes."%string).
Proof.
  intros searchData st st'. subst searchData st st'.
  unfold fetchRoutes, handleRetrySearch, calculateRoutes_call.
  cbn [mbind option_bind sd_origem sd_destino].
  destruct (calculateRoutes_never_throws haversine origem destino mockBusStops)
    as [rs ->].
  destruct rs as [|r rs]; cbn; by repeat split.
Qed.

(** ** The list of results *)

(** X20: [RouteResultList] throws exactly when the list it is given holds a
    [null] entry (it reads [rota.id] of every entry).  The list that
    [calculateRoutes] returns for a location without coordinates and an
    empty catalog is such a list. *)
Theorem RouteResultList_throws (haversine : coord → coord → Q)
    (destino : Location) (rotas : list (option Route)) :
  (RouteResultList rotas = None ↔ None ∈ rotas)
  ∧ (rs ← calculateRoutes haversine noCoordinates destino []; RouteResultList rs) = None.
Proof. split; [apply RouteResultList_None|done]. Qed.

(** X21: for two locations that carry coordinates, and any catalog, the list
    that [calculateRoutes] returns is rendered by [RouteResultList] without
    an exception, one item for each route and in the same order, and the
    React keys of the items ([rota.id || index]) are pairwise distinct. *)
Theorem RouteResultList_of_calculateRoutes (haversine : coord → coord → Q)
    (originLocation destinationLocation : Location) (busStops : list Stop)
    (rs : list (option Route)) :
  is_Some (loc_coordinates originLocation) →
  is_Some (loc_coordinates destinationLocation) →
  calculateRoutes haversine originLocation destinationLocation busStops = Some rs →
  ∃ items,
    RouteResultList rs = Some (RoutesList items)
    ∧ Some <$> items.*2 = rs
    ∧ NoDup items.*1.
Proof.
  intros [co Ho] [cd Hd] Hrs.
  apply calculateRoutes_shape in Hrs as (ex & Hex & Hshape).
  destruct (createExampleRoute_with_coordinates haversine originLocation
              destinationLocation busStops co cd Ho Hd) as [e He].
  rewrite He in Hex. injection Hex as <-.
  pose proof (createExampleRoute_id _ _ _ _ _ He) as Hid.
  assert (∃ items, RouteResultList [Some e] = Some (RoutesList items)
                   ∧ Some <$> items.*2 = [Some e] ∧ NoDup items.*1) as Hone.
  { eexists. split; [reflexivity|]. split; [done|]. cbn. apply NoDup_singleton. }
  destruct Hshape as [_ ->|e' dr [= <-] Hdr ->|_ ->]; [done| |done].
  pose proof (calculateDirectRoute_id _ _ _ _ _ Hdr) as Hnoid.
  case_decide; (eexists; split; [reflexivity|]; split; [done|]);
    cbn; unfold routeKey; rewrite Hid, Hnoid;
    apply (bool_decide_unpack _); by vm_compute.
Qed.

Lemma RouteResultList_of_calculateRoutes_witness :
  ∃ rs items,
    calculateRoutes meridianDistance crossOrigin crossDestination crossCatalog = Some rs
    ∧ RouteResultList rs = Some (RoutesList items)
    ∧ Some <$> items.*2 = rs
    ∧ items.*1 = ["0"; "example-route-1"]%string
    ∧ NoDup items.*1.
Proof.
  destruct (RouteResultList_of_calculateRoutes meridianDistance crossOrigin
              crossDestination crossCatalog
              (default [] (calculateRoutes meridianDistance crossOrigin
                             crossDestination crossCatalog)))
    as (items & Hlist & Hroutes & Hkeys).
  - by eexists.
  - by eexists.
  - by vm_compute.
  - exists (default [] (calculateRoutes meridianDistance crossOrigin
                          crossDestination crossCatalog)), items.
    split; [by vm_compute|]. split; [exact Hlist|]. split; [exact Hroutes|].
    split; [|exact Hkeys].
    vm_compute in Hlist. injection Hlist as <-. by vm_compute.
Defined.

(** ** The route card *)

(** X22: the line codes for which a card asks the line service
    ([linhasCodigos]) hold each code once: they are the codes of the
    segments of the route that are not empty, in the order of their first
    segment; and no other list is that. *)
Theorem linhasCodigos_once (rota : Route) (codigos : list string) :
  codigos = linhasCodigos rota
  ↔ NoDup codigos
    ∧ (∀ codigo, codigo ∈ codigos
                 ↔ codigo ≠ ""%string ∧ ∃ seg, seg ∈ segmentos rota ∧ linha seg = codigo)
    ∧ StronglySorted (firstBefore (linha <$> segmentos rota)) codigos.
Proof.
  set (arr := linha <$> List.filter (λ seg, negb (String.eqb (linha seg) ""))
                          (segmentos rota)).
  assert (linhasCodigos rota
          = js_filter_index
              (λ codigo index, bool_decide (js_indexOf codigo arr = Some index)) arr)
    as Hdef by reflexivity.
  destruct (js_filter_index_first arr) as (Hnodup & Hmem & _).
  pose proof (js_filter_index_sorted arr) as Hsorted.
  cbv zeta in Hnodup, Hmem. rewrite <- Hdef in Hnodup, Hmem, Hsorted.
  assert (∀ codigo, codigo ∈ linhasCodigos rota
            ↔ codigo ≠ ""%string ∧ ∃ seg, seg ∈ segmentos rota ∧ linha seg = codigo)
    as Hcodes.
  { intros codigo. rewrite Hmem. unfold arr. rewrite list_elem_of_fmap. split.
    - intros (seg & -> & [Hseg Hne]%elem_of_List_filter). split; [|by exists seg].
      apply negb_true_iff in Hne. by apply String.eqb_neq in Hne.
    - intros (Hne & seg & Hseg & <-). exists seg. split; [done|].
      apply elem_of_List_filter. split; [done|].
      apply negb_true_iff. by apply String.eqb_neq. }
  assert (StronglySorted (firstBefore (linha <$> segmentos rota)) (linhasCodigos rota))
    as Hfirst.
  { eapply StronglySorted_impl_elem; [|exact Hsorted].
    intros a b _ Hb Hab.
    apply (firstBefore_filter_fmap linha (λ c, negb (String.eqb c ""))); [|exact Hab].
    apply Hcodes in Hb as [Hb _].
    apply negb_true_iff. by apply String.eqb_neq. }
  split.
  - intros ->. done.
  - intros (Hn & Hm & Hs).
    apply (firstBefore_unique (linha <$> segmentos rota)); [done..| |done|done].
    intros c. by rewrite Hm, Hcodes.
Qed.

(** X23: [carregarDetalhesLinhas], run on a card that is not loading and has
    no details yet, asks the line service once for each line code of the
    route and for nothing else, leaves the card not loading, and stores
    exactly the details that the service returns: a code whose request
    fails has no entry.  Once some details are stored, a further call asks
    for nothing and changes nothing; while none is stored (every request
    failed, or the route has no line), a further call asks for all the
    codes again. *)
Theorem carregarDetalhesLinhas_loads {Detalhes : Type}
    (buscarDetalhes : string → option Detalhes) (rota : Route)
    (st : CardState Detalhes) :
  cs_loadingDetalhes st = false →
  cs_detalhesLinhas st = ∅ →
  let st' := carregarDetalhesLinhas buscarDetalhes rota st in
  cs_loadingDetalhes st' = false
  ∧ cs_isExpanded st' = cs_isExpanded st
  ∧ cs_requests st' = cs_requests st ++ linhasCodigos rota
  ∧ (∀ codigo detalhes,
       cs_detalhesLinhas st' !! codigo = Some detalhes
       ↔ codigo ∈ linhasCodigos rota ∧ buscarDetalhes codigo = Some detalhes)
  ∧ (cs_detalhesLinhas st' ≠ ∅ →
     carregarDetalhesLinhas buscarDetalhes rota st' = st')
  ∧ (cs_detalhesLinhas st' = ∅ →
     cs_requests (carregarDetalhesLinhas buscarDetalhes rota st')
     = cs_requests st' ++ linhasCodigos rota).
Proof.
  intros Hloading Hempty st'.
  assert (∀ s : CardState Detalhes,
            cs_detalhesLinhas s ≠ ∅ → carregarDetalhesLinhas buscarDetalhes rota s = s)
    as Hidle.
  { intros s Hs. unfold carregarDetalhesLinhas.
    destruct (0 <? size (cs_detalhesLinhas s))%nat eqn:Hsize;
      [by rewrite orb_true_r|].
    apply Nat.ltb_ge in Hsize. exfalso. apply Hs.
    apply map_size_empty_iff. lia. }
  assert (∀ s : CardState Detalhes,
            cs_loadingDetalhes s = false → cs_detalhesLinhas s = ∅ →
            cs_loadingDetalhes (carregarDetalhesLinhas buscarDetalhes rota s) = false
            ∧ cs_requests (carregarDetalhesLinhas buscarDetalhes rota s)
              = cs_requests s ++ linhasCodigos rota) as Hload.
  { intros s Hl He. unfold carregarDetalhesLinhas.
    by rewrite Hl, He, map_size_empty. }
  destruct (Hload st Hloading Hempty) as [Hl' Hr'].
  split; [done|]. split; [|split; [done|split; [|split; [apply Hidle|]]]].
  - subst st'. unfold carregarDetalhesLinhas.
    by rewrite Hloading, Hempty, map_size_empty.
  - intros codigo detalhes. subst st'. unfold carregarDetalhesLinhas.
    rewrite Hloading, Hempty, map_size_empty. cbn.
    rewrite novosDetalhes_lookup, lookup_empty.
    destruct (decide (codigo ∈ linhasCodigos rota)) as [Hin|Hout].
    + destruct (buscarDetalhes codigo); split; intros H; try done; by destruct H.
    + split; [done|]. by intros [? _].
  - intros He'. by apply Hload.
Qed.

Lemma carregarDetalhesLinhas_loads_witness :
  ∃ r,
    transferRoute = Some r
    ∧ linhasCodigos r = ["0.111"; "0.300"]%string
    ∧ let st := mkCardState true ∅ false [] in
      let st' := carregarDetalhesLinhas answersFor0111 r st in
      cs_loadingDetalhes st' = false
      ∧ cs_isExpanded st' = cs_isExpanded st
      ∧ cs_requests st' = cs_requests st ++ linhasCodigos r
      ∧ (∀ codigo detalhes,
           cs_detalhesLinhas st' !! codigo = Some detalhes
           ↔ codigo ∈ linhasCodigos r ∧ answersFor0111 codigo = Some detalhes)
      ∧ (cs_detalhesLinhas st' ≠ ∅ →
         carregarDetalhesLinhas answersFor0111 r st' = st')
      ∧ (cs_detalhesLinhas st' = ∅ →
         cs_requests (carregarDetalhesLinhas answersFor0111 r st')
         = cs_requests st' ++ linhasCodigos r).
Proof.
  eexists. split; [by vm_compute|]. split; [by vm_compute|].
  apply (carregarDetalhesLinhas_loads answersFor0111).
  - reflexivity.
  - reflexivity.
Defined.

(** X24: [formatarTempo] writes two different durations of at least one
    minute differently, and it writes neither of them as "< 1 min" (for
    whole minutes up to [Number.MAX_SAFE_INTEGER]). *)
Theorem formatarTempo_distinct (m1 m2 : Z) :
  1 ≤ m1 ≤ MAX_SAFE_INTEGER → 1 ≤ m2 ≤ MAX_SAFE_INTEGER → m1 ≠ m2 →
  formatarTempo m1 ≠ formatarTempo m2
  ∧ formatarTempo m1 ≠ "< 1 min"%string.
Proof.
  intros [H1 _] [H2 _] Hne. split.
  - intros Heq. by apply formatarTempo_inj in Heq.
  - by apply formatarTempo_not_less.
Qed.

Lemma formatarTempo_distinct_witness :
  formatarTempo 59 = "59 min"%string
  ∧ formatarTempo 60 = "1h"%string
  ∧ formatarTempo 59 ≠ formatarTempo 60
  ∧ formatarTempo 59 ≠ "< 1 min"%string.
Proof.
  split; [by vm_compute|]. split; [by vm_compute|].
  apply (formatarTempo_distinct 59 60); unfold MAX_SAFE_INTEGER; lia.
Defined.

(** X25: when no distance is negative, the duration that a card shows for a
    route of one of the three builders is the [tempo_total] of the route
    (the fallbacks of [rota.tempo_total || rota.duracao || 0] are not
    taken), and it is never shown as "< 1 min". *)
Theorem built_route_duration_shown (haversine : coord → coord → Q)
    (originLocation destinationLocation : Location) (busStops : list Stop)
    (r : Route) :
  (∀ a b, (0 <= haversine a b)%Q) →
  built haversine originLocation destinationLocation busStops r →
  tempoTotal r = tempo_total r
  ∧ formatarTempo (tempoTotal r) ≠ "< 1 min"%string
  ∧ (tempo_total r < 60 →
     formatarTempo (tempoTotal r) = pretty (tempo_total r) +:+ " min").
Proof.
  intros Hnn Hbuilt.
  destruct (built_bounds haversine originLocation destinationLocation busStops r
              Hnn Hbuilt) as (_ & Hmin & _).
  assert (tempoTotal r = tempo_total r) as ->.
  { unfold tempoTotal. destruct (Z.eqb_spec (tempo_total r) 0); [lia|done]. }
  split; [done|]. split; [apply formatarTempo_not_less; lia|].
  intros Hlt. unfold formatarTempo.
  destruct (Z.ltb_spec (tempo_total r) 1); [lia|].
  destruct (Z.ltb_spec (tempo_total r) 60); [done|lia].
Qed.

Lemma built_route_duration_shown_witness :
  ∃ r,
    calculateDirectRoute meridianDistance tieOrigin tieDestination tieCatalog
      = Some (Some r)
    ∧ formatarTempo (tempoTotal r) = "48 min"%string
    ∧ tempoTotal r = tempo_total r
    ∧ formatarTempo (tempoTotal r) ≠ "< 1 min"%string
    ∧ (tempo_total r < 60 →
       formatarTempo (tempoTotal r) = pretty (tempo_total r) +:+ " min").
Proof.
  eexists. split; [by vm_compute|]. split; [by vm_compute|].
  apply (built_route_duration_shown meridianDistance tieOrigin tieDestination
           tieCatalog).
  - apply meridianDistance_nonneg.
  - left. by vm_compute.
Defined.

(** ** The lines of the visible stops *)

(** X26: [linhasUnicas] of [sincronizarDadosMapa] holds no [undefined]
    entry and no two lines with the same [codigo]; it keeps, for every code
    that occurs in the answers, the first line object with that code, in
    the order in which the codes first occur; and no other list is that. *)
Theorem linhasUnicas_first_of_each {Linha : Type} (codigo : Linha → string)
    (linhasArrays : list (list Linha)) :
  ∃ ls,
    linhasUnicas codigo linhasArrays = Some <$> ls
    ∧ ∀ ls',
        ls' = ls
        ↔ NoDup (codigo <$> ls')
          ∧ (∀ l, l ∈ concat linhasArrays → ∃ l', l' ∈ ls' ∧ codigo l' = codigo l)
          ∧ (∀ l', l' ∈ ls' →
               ∃ pre suf, concat linhasArrays = pre ++ l' :: suf
                          ∧ ∀ x, x ∈ pre → codigo x ≠ codigo l')
          ∧ StronglySorted (firstBefore (codigo <$> concat linhasArrays))
              (codigo <$> ls').
Proof.
  destruct (linhasUnicas_from codigo (concat linhasArrays) [] [])
    as (ls & Hls & Hnodup & _ & _ & Hcov & Hfirst); [done|].
  simpl in Hls, Hfirst.
  assert (∀ l, l ∈ concat linhasArrays → ∃ l', l' ∈ ls ∧ codigo l' = codigo l)
    as Hcovers.
  { intros l Hl. destruct (Hcov l Hl) as [Hnil|?]; [|done].
    by apply not_elem_of_nil in Hnil. }
  assert (StronglySorted (firstBefore (codigo <$> concat linhasArrays))
            (codigo <$> ls)) as Hsorted.
  { rewrite (find_codigos codigo _ _ _ Hls).
    by destruct (js_Set_from_sorted (codigo <$> concat linhasArrays) [] []). }
  assert (∀ ks : list Linha,
            (∀ l', l' ∈ ks →
               ∃ pre suf, concat linhasArrays = pre ++ l' :: suf
                          ∧ ∀ x, x ∈ pre → codigo x ≠ codigo l') →
            ∀ l', l' ∈ ks → l' ∈ concat linhasArrays) as Hin.
  { intros ks Hks l' Hl'. destruct (Hks l' Hl') as (p & s & -> & _).
    apply elem_of_app. right. by left. }
  exists ls. split; [done|]. intros ls'. split.
  - intros ->. done.
  - intros (Hnodup' & Hcovers' & Hfirst' & Hsorted').
    assert (codigo <$> ls' = codigo <$> ls) as Heq.
    { apply (firstBefore_unique (codigo <$> concat linhasArrays)); [done..| |done|done].
      intros c. rewrite !list_elem_of_fmap. split.
      - intros (l' & -> & Hl').
        destruct (Hcovers l' (Hin ls' Hfirst' l' Hl')) as (l & Hl & Hc). by exists l.
      - intros (l & -> & Hl).
        destruct (Hcovers' l (Hin ls Hfirst l Hl)) as (l' & Hl' & Hc). by exists l'. }
    apply list_eq. intros i.
    assert ((codigo <$> ls') !! i = (codigo <$> ls) !! i) as Hi by by rewrite Heq.
    rewrite !list_lookup_fmap in Hi.
    destruct (ls' !! i) as [l'|] eqn:Hl', (ls !! i) as [l|] eqn:Hl;
      simpl in Hi; try done.
    injection Hi as Hi. f_equal.
    apply (first_of_codigo_unique codigo (concat linhasArrays)); [done|..].
    + apply Hfirst'. by eapply list_elem_of_lookup_2.
    + apply Hfirst. by eapply list_elem_of_lookup_2.
Qed.

(** ** Stops out of reach *)

(** X27: a catalog stop that carries coordinates and lies more than 3000 m
    from the origin and from the destination has no influence on the direct
    route nor on the list that [calculateRoutes] returns, wherever in the
    catalog it stands: with and without it the results are the same, when
    both locations carry coordinates. *)
Theorem calculateRoutes_ignores_far_stops (haversine : coord → coord → Q)
    (originLocation destinationLocation : Location) (l1 l2 : list Stop) (s : Stop)
    (co cd c : coord) :
  loc_coordinates originLocation = Some co →
  loc_coordinates destinationLocation = Some cd →
  coordinates s = Some c →
  ¬ (haversine co c <= 3000)%Q → ¬ (haversine cd c <= 3000)%Q →
  calculateDirectRoute haversine originLocation destinationLocation (l1 ++ s :: l2)
  = calculateDirectRoute haversine originLocation destinationLocation (l1 ++ l2)
  ∧ calculateRoutes haversine originLocation destinationLocation (l1 ++ s :: l2)
    = calculateRoutes haversine originLocation destinationLocation (l1 ++ l2).
Proof.
  intros Ho Hd Hc Hfaro Hfard.
  assert (calculateDirectRoute haversine originLocation destinationLocation
            (l1 ++ s :: l2)
          = calculateDirectRoute haversine originLocation destinationLocation
              (l1 ++ l2)) as Hdirect.
  { unfold calculateDirectRoute. rewrite Ho, Hd.
    by rewrite !(findNearbyStops_far_stop haversine _ l1 l2 s c). }
  split; [done|].
  unfold calculateRoutes, calculateRoutes_try, calculateRoutes_catch.
  rewrite Hdirect. reflexivity.
Qed.

Lemma calculateRoutes_ignores_far_stops_witness :
  calculateDirectRoute meridianDistance crossOrigin crossDestination farStopCatalog
  = calculateDirectRoute meridianDistance crossOrigin crossDestination
      ([crossA] ++ [crossB])
  ∧ calculateRoutes meridianDistance crossOrigin crossDestination farStopCatalog
    = calculateRoutes meridianDistance crossOrigin crossDestination
        ([crossA] ++ [crossB]).
Proof.
  apply (calculateRoutes_ignores_far_stops meridianDistance crossOrigin
           crossDestination [crossA] [crossB] tieStop2
           (onMeridian (-158000 # 10000)) (onMeridian (-157910 # 10000))
           (onMeridian (-157478 # 10000))).
  - reflexivity.
  - reflexivity.
  - reflexivity.
  - by vm_compute.
  - by vm_compute.
Defined.

(** ** From the search form to the results page *)

(** X28: an origin that is typed in full (its name is that of a suggestion
    or of a known location) but not picked from the list passes
    [validateForm]; [handleSubmit] then calls [onSearch] with the origin as
    it was selected before the validation, that is [null], although
    [validateForm] has just selected the matching location.  The results
    page cannot render such a search (reading [searchData.origem.name]
    throws), and its [fetchRoutes] would only navigate back.  The state that
    [validateForm] leaves behind passes both locations at a further
    submission. *)
Theorem handleSubmit_typed_not_picked (trim toLowerCase : string → string)
    (locations : list Location) (this : FormState) (c d : Location) :
  truthy (trim (f_origem this)) = true →
  truthy (trim (f_destino this)) = true →
  toLowerCase (trim (f_origem this)) ≠ toLowerCase (trim (f_destino this)) →
  f_origemSelecionada this = None →
  List.find (λ loc, String.eqb (toLowerCase (loc_name loc))
                               (toLowerCase (f_origem this)))
            (f_origemSuggestions this ++ locations) = Some c →
  f_destinoSelecionado this = Some d →
  ∃ st,
    handleSubmit trim toLowerCase locations this
      = (st, Some (mkSearchData None (Some d)))
    ∧ f_origemSelecionada st = Some c
    ∧ (∀ page, RouteResultsPage (Some (mkSearchData None (Some d))) page = None)
    ∧ (∀ haversine page,
         fetchRoutes haversine (Some (mkSearchData None (Some d))) page
         = navigate "/" page)
    ∧ ∃ st',
        handleSubmit trim toLowerCase locations st
          = (st', Some (mkSearchData (Some c) (Some d))).
Proof.
  intros Ho Hd Hne Hnone Hfind Hsel.
  assert (String.eqb (toLowerCase (trim (f_origem this)))
                     (toLowerCase (trim (f_destino this))) = false) as Hneb
    by by apply String.eqb_neq.
  eexists. split; [|split; [|split; [done|split; [done|]]]].
  - unfold handleSubmit, validateForm. cbv zeta.
    rewrite Ho, Hd, Hneb, Hnone, Hfind, Hsel. cbn. reflexivity.
  - reflexivity.
  - eexists. unfold handleSubmit, validateForm. cbv zeta. cbn.
    rewrite Ho, Hd, Hneb, Hsel. cbn. reflexivity.
Qed.

Lemma handleSubmit_typed_not_picked_witness :
  ∃ st,
    handleSubmit id id [] typedForm
      = (st, Some (mkSearchData None (Some crossDestination)))
    ∧ f_origemSelecionada st = Some crossOrigin
    ∧ (∀ page,
         RouteResultsPage (Some (mkSearchData None (Some crossDestination))) page = None)
    ∧ (∀ haversine page,
         fetchRoutes haversine (Some (mkSearchData None (Some crossDestination))) page
         = navigate "/" page)
    ∧ ∃ st',
        handleSubmit id id [] st
          = (st', Some (mkSearchData (Some crossOrigin) (Some crossDestination))).
Proof.
  apply (handleSubmit_typed_not_picked id id [] typedForm crossOrigin crossDestination).
  - reflexivity.
  - reflexivity.
  - by vm_compute.
  - reflexivity.
  - reflexivity.
  - reflexivity.
Defined.
